(** * RQL (reflog-ql): parser, schema validator and autocomplete engine

    A shallow embedding of [javascript/src/parse.ts], [javascript/src/schema.ts]
    and [javascript/src/autocomplete.ts], and the properties of the
    specification checked against it.

    Conventions of the embedding.
    - A JavaScript string is a Rocq [string]; one [ascii] stands for one UTF-16
      code unit below 256, so the model is exact on Latin-1 text.
    - String indices and lengths are [nat]; the caller-supplied cursor is a [Z].
    - [throw new ParseError(msg)] is the result [Throw msg].
    - A [while] loop whose index can jump is a function on a fuel argument; it
      answers [OutOfFuel] (parser) or [None] (autocomplete) when the fuel is
      used up before the loop condition fails.  The parser sets its own fuel
      and never uses it up ([parsePlainText_total]); the autocomplete
      functions take the fuel from their caller.  Loops that advance one
      character at a time are structural recursions on the unread suffix. *)

From Stdlib Require Import String Ascii List Arith Lia Bool ZArith.
From Stdlib Require Import Permutation.
Import ListNotations.

Open Scope string_scope.
Open Scope list_scope.
Open Scope nat_scope.

(** String concatenation, the [+] of JavaScript on strings. *)
Infix "^^" := String.append (at level 60, right associativity).

(* ================================================================== *)
(** ** JavaScript string primitives *)
(* ================================================================== *)

Module JS.

Definition dquote : ascii := "034"%char.
Definition backslash : ascii := "092"%char.

Definition str1 (c : ascii) : string := String c EmptyString.

(** [/\s/] on a code unit below 256: TAB, LF, VT, FF, CR, SPACE, NBSP. *)
Definition isSpace (c : ascii) : bool :=
  let n := nat_of_ascii c in
  ((9 <=? n) && (n <=? 13)) || (n =? 32) || (n =? 160).

(** [/\d/] *)
Definition isDigit (c : ascii) : bool :=
  let n := nat_of_ascii c in (48 <=? n) && (n <=? 57).

Definition lowerChar (c : ascii) : ascii :=
  let n := nat_of_ascii c in
  if ((65 <=? n) && (n <=? 90))
     || ((192 <=? n) && (n <=? 222) && negb (n =? 215))
  then ascii_of_nat (n + 32) else c.

(** [s.toLowerCase()] on Latin-1 text, where it maps character by character
    and keeps the length.  (Outside Latin-1 it can lengthen a string.) *)
Fixpoint toLowerCase (s : string) : string :=
  match s with
  | EmptyString => EmptyString
  | String c r => String (lowerChar c) (toLowerCase r)
  end.

(** [s[i]]; [None] is [undefined]. *)
Definition charAt (s : string) (i : nat) : option ascii := String.get i s.

(** [s[i] === c] *)
Definition charIs (s : string) (i : nat) (c : ascii) : bool :=
  match charAt s i with
  | Some d => Ascii.eqb d c
  | None => false
  end.

(** [s.slice(a, b)] for [0 <= a], [0 <= b]. *)
Definition slice (s : string) (a b : nat) : string := substring a (b - a) s.

(** [s.slice(a)] for [0 <= a]. *)
Definition sliceFrom (s : string) (a : nat) : string :=
  substring a (String.length s - a) s.

(** [s.startsWith(p)] *)
Definition startsWith (s p : string) : bool := String.prefix p s.

Definition rev (s : string) : string :=
  string_of_list_ascii (List.rev (list_ascii_of_string s)).

(** [s.endsWith(p)] *)
Definition endsWith (s p : string) : bool := String.prefix (rev p) (rev s).

Fixpoint trimStart (s : string) : string :=
  match s with
  | EmptyString => EmptyString
  | String c r => if isSpace c then trimStart r else s
  end.

Definition trimEnd (s : string) : string := rev (trimStart (rev s)).

Definition trim (s : string) : string := trimEnd (trimStart s).

(** [!s] on a string *)
Definition isEmpty (s : string) : bool :=
  match s with EmptyString => true | _ => false end.

(** [s.indexOf(c)] for a one-character [c]; [None] is [-1]. *)
Fixpoint indexOfFrom (c : ascii) (s : string) (i : nat) : option nat :=
  match s with
  | EmptyString => None
  | String d r => if Ascii.eqb d c then Some i else indexOfFrom c r (S i)
  end.

Definition indexOf (s : string) (c : ascii) : option nat := indexOfFrom c s 0.

(** [s.lastIndexOf(c)] for a one-character [c]. *)
Fixpoint lastIndexOfFrom (c : ascii) (s : string) (i : nat) (last : option nat)
  : option nat :=
  match s with
  | EmptyString => last
  | String d r =>
      lastIndexOfFrom c r (S i) (if Ascii.eqb d c then Some i else last)
  end.

Definition lastIndexOf (s : string) (c : ascii) : option nat :=
  lastIndexOfFrom c s 0 None.

(** [s.includes(c)] for a one-character [c]. *)
Definition includes (s : string) (c : ascii) : bool :=
  match indexOf s c with Some _ => true | None => false end.

(** [s.split(c)] for a one-character separator. *)
Fixpoint splitOn (c : ascii) (s : string) (cur : string) : list string :=
  match s with
  | EmptyString => [cur]
  | String d r =>
      if Ascii.eqb d c then cur :: splitOn c r EmptyString
      else splitOn c r (cur ^^ str1 d)
  end.

Definition split (s : string) (c : ascii) : list string :=
  splitOn c s EmptyString.

(** [s.split(/\s+/)]: [inWs] records that the previous character belonged to
    the separator run being skipped. *)
Fixpoint splitWsFrom (s : string) (cur : string) (inWs : bool) : list string :=
  match s with
  | EmptyString => [cur]
  | String d r =>
      if isSpace d then
        if inWs then splitWsFrom r cur true
        else cur :: splitWsFrom r EmptyString true
      else splitWsFrom r (cur ^^ str1 d) false
  end.

Definition splitWs (s : string) : list string := splitWsFrom s EmptyString false.

(** [s.replace(c, empty)] for a one-character pattern: the first occurrence
    only. *)
Fixpoint removeFirst (c : ascii) (s : string) : string :=
  match s with
  | EmptyString => EmptyString
  | String d r => if Ascii.eqb d c then r else String d (removeFirst c r)
  end.

(** [xs.join(sep)] *)
Fixpoint join (sep : string) (xs : list string) : string :=
  match xs with
  | [] => EmptyString
  | [x] => x
  | x :: r => x ^^ sep ^^ join sep r
  end.

(** First index [>= i] at which the unread suffix [rest = s.slice(i)] stops
    satisfying [p]: the loop [while (i < s.length && p(s[i])) i++]. *)
Fixpoint scanWhile (p : ascii -> bool) (rest : string) (i : nat) : nat :=
  match rest with
  | EmptyString => i
  | String c r => if p c then scanWhile p r (S i) else i
  end.

Definition skipWs (s : string) (i : nat) : nat :=
  scanWhile isSpace (sliceFrom s i) i.

Definition skipNonWs (s : string) (i : nat) : nat :=
  scanWhile (fun c => negb (isSpace c)) (sliceFrom s i) i.

(** Every character of [s] satisfies [p]. *)
Fixpoint allChars (p : ascii -> bool) (s : string) : bool :=
  match s with
  | EmptyString => true
  | String c r => p c && allChars p r
  end.

(** Insertion-ordered [Set]/[Map] keys: the first occurrence of each element
    is kept, in order ([Array.from(new Set(xs))]). *)
Fixpoint uniqAcc (seen : list string) (xs : list string) : list string :=
  match xs with
  | [] => []
  | x :: r =>
      if existsb (String.eqb x) seen then uniqAcc seen r
      else x :: uniqAcc (x :: seen) r
  end.

Definition uniq (xs : list string) : list string := uniqAcc [] xs.

(** [set.has(x)] *)
Definition has (xs : list string) (x : string) : bool := existsb (String.eqb x) xs.

(** The digits of a decimal numeral, most significant first. *)
Fixpoint digitsValue (s : string) (acc : N) : N :=
  match s with
  | EmptyString => acc
  | String c r => digitsValue r (acc * 10 + N.of_nat (nat_of_ascii c - 48))%N
  end.

(** A JavaScript number obtained from a decimal literal, kept as the exact
    decimal value: [NInt z] is the result of [parseInt], [NDec m k] stands for
    [m / 10^k] and is the result of [parseFloat].  (JavaScript then rounds to
    the nearest double; integers below 2^53 are exact.) *)
Inductive number : Type :=
  | NInt (z : Z)
  | NDec (mantissa : Z) (scale : nat).

End JS.

(* ================================================================== *)
(** ** schema.ts *)
(* ================================================================== *)

Module Schema.

Inductive FieldType : Type := TyString | TyNumber | TyBoolean.

Record FieldDef : Type := mkFieldDef {
  type : option FieldType;
  values : option (list string)
}.

(** [fields?: Record<string, FieldDef>] is kept as the list of its entries
    in [Object.entries] order. *)
Record EntityDef : Type := mkEntityDef {
  name : string;
  relations : option (list string);
  fields : option (list (string * FieldDef))
}.

Record Schema : Type := mkSchema {
  entities : list EntityDef
}.

Definition defineSchema (entities : list EntityDef) : Schema := mkSchema entities.

Definition userFields : list (string * FieldDef) :=
  [ ("status", mkFieldDef (Some TyString) (Some ["active"; "pending"; "suspended"]));
    ("role", mkFieldDef (Some TyString) (Some ["admin"; "moderator"; "user"; "guest"]));
    ("age", mkFieldDef (Some TyNumber) None);
    ("verified", mkFieldDef (Some TyBoolean) None) ].

Definition productFields : list (string * FieldDef) :=
  [ ("category", mkFieldDef (Some TyString) (Some ["archived"; "electronics"; "books"]));
    ("price", mkFieldDef (Some TyNumber) None);
    ("stock", mkFieldDef (Some TyNumber) None) ].

Definition exampleSchema : Schema :=
  defineSchema
    [ mkEntityDef "user" (Some ["posts"; "comments"; "profile"]) (Some userFields);
      mkEntityDef "users" (Some ["posts"; "comments"; "profile"]) (Some userFields);
      mkEntityDef "product" (Some ["reviews"; "category"]) (Some productFields);
      mkEntityDef "products" (Some ["reviews"; "category"]) (Some productFields) ].

End Schema.

(* ================================================================== *)
(** ** parse.ts *)
(* ================================================================== *)

Module Parse.

Import JS.

(** The outcome of a call that may [throw new ParseError(msg)]. *)
Inductive result (A : Type) : Type :=
  | Ok (a : A)
  | Throw (msg : string)
  | OutOfFuel.

Arguments Ok {A} a.
Arguments Throw {A} msg.
Arguments OutOfFuel {A}.

Inductive Value : Type :=
  | VString (s : string)
  | VNumber (n : number)
  | VBoolean (b : bool).

Set Warnings "-register-all".

(** [RQLCondition]: an object with [field]/[op]/[value], or with [and], or
    with [or]. *)
Inductive RQLCondition : Type :=
  | Comparison (field op : string) (value : Value)
  | And (children : list RQLCondition)
  | Or (children : list RQLCondition).

Inductive Dir : Type := Asc | Desc.

Record RQLOrderTerm : Type := mkOrderTerm {
  term_field : string;
  term_dir : Dir
}.

(** [RQLQuery]; [include] is the list [Object.keys(include)] of the own keys
    of the object (each one mapped to [true]): the keys that are array
    indices first, in ascending order, then the others in insertion order
    ([objectKeys]). *)
Record RQLQuery : Type := mkQuery {
  entity : option string;
  limit : option N;
  order : option (list RQLOrderTerm);
  include : option (list string);
  where_ : option RQLCondition
}.

Definition emptyQuery : RQLQuery := mkQuery None None None None None.

Definition OPS : list string := ["!="; "<="; ">="; "="; "<"; ">"].

Inductive WhereToken : Type :=
  | TParen (value : string)
  | TKeyword (value : string)
  | TOp (value : string)
  | TIdent (value raw : string)
  | TString (value : string)
  | TNumber (value : number)
  | TBoolean (value : bool).

(** *** tokenizeWhere *)

(** The first operator of [OPS] found at index [i]. *)
Definition matchOp (s : string) (i : nat) : option string :=
  find (fun op => String.eqb (slice s i (i + String.length op)) op) OPS.

(** The body of a quoted string, read from the unread suffix [rest] at index
    [i]: the index reached, the unescaped value and [foundClosing]. *)
Fixpoint scanString (rest : string) (i : nat) (val : string)
  : nat * string * bool :=
  match rest with
  | EmptyString => (i, val, false)
  | String c r =>
      if Ascii.eqb c backslash then
        match r with
        | EmptyString => (i + 2, val ^^ "undefined", false)
        | String d r' =>
            if Ascii.eqb d dquote then scanString r' (i + 2) (val ^^ str1 dquote)
            else if Ascii.eqb d backslash then
              scanString r' (i + 2) (val ^^ str1 backslash)
            else scanString r' (i + 2) (val ^^ str1 d)
        end
      else if Ascii.eqb c dquote then (S i, val, true)
      else scanString r (S i) (val ^^ str1 c)
  end.

(** A character outside the class of whitespace, parentheses, the double
    quote and [=], [<], [>], [!]: the word characters of the tokenizer. *)
Definition isWordChar (c : ascii) : bool :=
  negb (isSpace c
        || Ascii.eqb c "("%char || Ascii.eqb c ")"%char || Ascii.eqb c dquote
        || Ascii.eqb c "="%char || Ascii.eqb c "<"%char || Ascii.eqb c ">"%char
        || Ascii.eqb c "!"%char).

Fixpoint allDigits (s : string) : bool :=
  match s with
  | EmptyString => true
  | String c r => isDigit c && allDigits r
  end.

(** [/^\d+$/] *)
Definition isDigits (s : string) : bool := negb (isEmpty s) && allDigits s.

Definition stripMinus (s : string) : bool * string :=
  match s with
  | String c r => if Ascii.eqb c "-"%char then (true, r) else (false, s)
  | EmptyString => (false, s)
  end.

(** The integer and the fractional digits of a literal, split at the first
    [.], when there is one. *)
Definition splitDot (s : string) : string * option string :=
  match indexOf s "."%char with
  | None => (s, None)
  | Some k => (slice s 0 k, Some (sliceFrom s (S k)))
  end.

(** [/^-?\d+(\.\d+)?$/] *)
Definition isNumeric (raw : string) : bool :=
  let '(_, body) := stripMinus raw in
  match splitDot body with
  | (ip, None) => isDigits ip
  | (ip, Some fp) => isDigits ip && isDigits fp
  end.

Definition signed (neg : bool) (n : N) : Z :=
  if neg then Z.opp (Z.of_N n) else Z.of_N n.

(** [parseFloat(raw)] when [raw] has a dot, else [parseInt(raw, 10)], on a [raw] that
    satisfies [isNumeric]. *)
Definition numberOf (raw : string) : number :=
  let '(neg, body) := stripMinus raw in
  match splitDot body with
  | (ip, None) => NInt (signed neg (digitsValue ip 0%N))
  | (ip, Some fp) =>
      NDec (signed neg (digitsValue (ip ^^ fp) 0%N)) (String.length fp)
  end.

Definition classifyWord (raw : string) : WhereToken :=
  let lower := toLowerCase raw in
  if String.eqb lower "and" || String.eqb lower "or" then TKeyword lower
  else if String.eqb lower "true" then TBoolean true
  else if String.eqb lower "false" then TBoolean false
  else if isNumeric raw then TNumber (numberOf raw)
  else TIdent raw raw.

(** The [while (i < s.length)] loop of [tokenizeWhere]; one unit of fuel per
    iteration. *)
Fixpoint tokenizeLoop (fuel : nat) (s : string) (i : nat)
    (tokens : list WhereToken) : result (list WhereToken) :=
  match fuel with
  | 0 => OutOfFuel
  | S fuel' =>
      if String.length s <=? i then Ok tokens else
      let i := skipWs s i in
      if String.length s <=? i then Ok tokens
      else if charIs s i "("%char then
        tokenizeLoop fuel' s (S i) (tokens ++ [TParen "("])
      else if charIs s i ")"%char then
        tokenizeLoop fuel' s (S i) (tokens ++ [TParen ")"])
      else if charIs s i dquote then
        let '(j, val, foundClosing) :=
          scanString (sliceFrom s (S i)) (S i) EmptyString in
        if foundClosing then tokenizeLoop fuel' s j (tokens ++ [TString val])
        else Throw "Unclosed quoted string in where clause"
      else
        match matchOp s i with
        | Some op =>
            tokenizeLoop fuel' s (i + String.length op) (tokens ++ [TOp op])
        | None =>
            let j := scanWhile isWordChar (sliceFrom s i) i in
            let raw := slice s i j in
            if isEmpty raw then Throw "Unexpected character in where clause"
            else tokenizeLoop fuel' s j (tokens ++ [classifyWord raw])
        end
  end.

Definition tokenizeWhere (inner : string) : result (list WhereToken) :=
  tokenizeLoop (S (String.length inner)) inner 0 [].

(** The same loop with, beside each token, the index at which the text of
    the token starts (the value of [i] when the branch that pushes it is
    taken).  The indices are no part of the program: they record where a
    token comes from, and erasing them gives [tokenizeLoop]
    ([tokenizeLoopAt_tokens]). *)
Fixpoint tokenizeLoopAt (fuel : nat) (s : string) (i : nat)
    (tokens : list (nat * WhereToken)) : result (list (nat * WhereToken)) :=
  match fuel with
  | 0 => OutOfFuel
  | S fuel' =>
      if String.length s <=? i then Ok tokens else
      let i := skipWs s i in
      if String.length s <=? i then Ok tokens
      else if charIs s i "("%char then
        tokenizeLoopAt fuel' s (S i) (tokens ++ [(i, TParen "(")])
      else if charIs s i ")"%char then
        tokenizeLoopAt fuel' s (S i) (tokens ++ [(i, TParen ")")])
      else if charIs s i dquote then
        let '(j, val, foundClosing) :=
          scanString (sliceFrom s (S i)) (S i) EmptyString in
        if foundClosing then
          tokenizeLoopAt fuel' s j (tokens ++ [(i, TString val)])
        else Throw "Unclosed quoted string in where clause"
      else
        match matchOp s i with
        | Some op =>
            tokenizeLoopAt fuel' s (i + String.length op)
                           (tokens ++ [(i, TOp op)])
        | None =>
            let j := scanWhile isWordChar (sliceFrom s i) i in
            let raw := slice s i j in
            if isEmpty raw then Throw "Unexpected character in where clause"
            else tokenizeLoopAt fuel' s j (tokens ++ [(i, classifyWord raw)])
        end
  end.

Definition tokenizeWhereAt (inner : string)
  : result (list (nat * WhereToken)) :=
  tokenizeLoopAt (S (String.length inner)) inner 0 [].

(** *** parseWhere *)

Definition isKeyword (t : WhereToken) (a b : string) : bool :=
  match t with
  | TKeyword v => String.eqb v a || String.eqb v b
  | _ => false
  end.

Definition isParen (t : WhereToken) (p : string) : bool :=
  match t with
  | TParen v => String.eqb v p
  | _ => false
  end.

(** [left.or ? left.or : [left]] *)
Definition orChildren (c : RQLCondition) : list RQLCondition :=
  match c with
  | Or cs => cs
  | _ => [c]
  end.

(** [t.and ? t.and : [t]] *)
Definition andChildren (c : RQLCondition) : list RQLCondition :=
  match c with
  | And cs => cs
  | _ => [c]
  end.

Section Grammar.

Variable tokens : list WhereToken.

(** The functions of [parseWhere] share the mutable [pos]; here each takes the
    current [pos] and returns the new one with its result ([None] is
    [null]). *)
Definition parsed : Type := result (option RQLCondition * nat).

Definition parseComparison (pos : nat) : parsed :=
  match nth_error tokens pos with
  | None => Ok (None, pos)
  | Some fieldTok =>
      let fieldOf :=
        match fieldTok with
        | TIdent _ raw => Some raw
        | TString v => Some v
        | _ => None
        end in
      match fieldOf with
      | None => Ok (None, pos)
      | Some field =>
          let pos := S pos in
          let '(op, pos) :=
            match nth_error tokens pos with
            | Some (TOp v) => (v, S pos)
            | _ => ("=", pos)
            end in
          match nth_error tokens pos with
          | None => Throw "Incomplete comparison in where clause"
          | Some (TIdent _ raw) =>
              Ok (Some (Comparison field op (VString raw)), S pos)
          | Some (TString v) =>
              Ok (Some (Comparison field op (VString v)), S pos)
          | Some (TNumber n) =>
              Ok (Some (Comparison field op (VNumber n)), S pos)
          | Some (TBoolean b) =>
              Ok (Some (Comparison field op (VBoolean b)), S pos)
          | Some _ => Throw "Invalid value in where comparison"
          end
      end
  end.

Fixpoint parseOr (fuel : nat) (pos : nat) : parsed :=
  match fuel with
  | 0 => OutOfFuel
  | S fuel' =>
      match parseAnd fuel' pos with
      | Ok (left_, pos) =>
          match nth_error tokens pos with
          | None => Ok (left_, pos)
          | Some t =>
              if isKeyword t "or" "OR" then
                match left_ with
                | None => Throw "Invalid where: OR with no left side"
                | Some l =>
                    match parseOr fuel' (S pos) with
                    | Ok (None, _) =>
                        Throw "Invalid where: OR with no right side"
                    | Ok (Some r, pos) =>
                        Ok (Some (Or (orChildren l ++ orChildren r)), pos)
                    | Throw m => Throw m
                    | OutOfFuel => OutOfFuel
                    end
                end
              else Ok (left_, pos)
          end
      | Throw m => Throw m
      | OutOfFuel => OutOfFuel
      end
  end

with parseAnd (fuel : nat) (pos : nat) : parsed :=
  match fuel with
  | 0 => OutOfFuel
  | S fuel' =>
      match parsePrimary fuel' pos with
      | Ok (None, pos) => Ok (None, pos)
      | Ok (Some term, pos) =>
          match parseAndLoop fuel' [term] pos with
          | Ok (terms, pos) =>
              match terms with
              | [t] => Ok (Some t, pos)
              | _ => Ok (Some (And (flat_map andChildren terms)), pos)
              end
          | Throw m => Throw m
          | OutOfFuel => OutOfFuel
          end
      | Throw m => Throw m
      | OutOfFuel => OutOfFuel
      end
  end

(** The [while (pos < tokens.length)] loop of [parseAnd]. *)
with parseAndLoop (fuel : nat) (terms : list RQLCondition) (pos : nat)
  : result (list RQLCondition * nat) :=
  match fuel with
  | 0 => OutOfFuel
  | S fuel' =>
      match nth_error tokens pos with
      | None => Ok (terms, pos)
      | Some t =>
          if isKeyword t "or" "OR" then Ok (terms, pos)
          else if isKeyword t "and" "AND" then
            match parsePrimary fuel' (S pos) with
            | Ok (None, _) => Throw "Invalid where: AND with no right side"
            | Ok (Some term, pos) => parseAndLoop fuel' (terms ++ [term]) pos
            | Throw m => Throw m
            | OutOfFuel => OutOfFuel
            end
          else
            match parsePrimary fuel' pos with
            | Ok (None, pos) => Ok (terms, pos)
            | Ok (Some term, pos) => parseAndLoop fuel' (terms ++ [term]) pos
            | Throw m => Throw m
            | OutOfFuel => OutOfFuel
            end
      end
  end

with parsePrimary (fuel : nat) (pos : nat) : parsed :=
  match fuel with
  | 0 => OutOfFuel
  | S fuel' =>
      match nth_error tokens pos with
      | None => Ok (None, pos)
      | Some t =>
          if isParen t "(" then
            match parseOr fuel' (S pos) with
            | Ok (innerCond, pos) =>
                match nth_error tokens pos with
                | Some t' =>
                    if isParen t' ")" then
                      match innerCond with
                      | None => Throw "Empty parenthetical expression"
                      | Some c => Ok (Some c, S pos)
                      end
                    else Throw "Missing closing parenthesis"
                | None => Throw "Missing closing parenthesis"
                end
            | Throw m => Throw m
            | OutOfFuel => OutOfFuel
            end
          else parseComparison pos
      end
  end.

End Grammar.

(** Fuel that the grammar never uses up on [n] tokens (lemma
    [parseOr_enough_fuel]): the calls of the recursive descent are never
    nested deeper than this.  JavaScript bounds that depth by its call
    stack and throws a [RangeError] beyond it, some thousands of nested
    parentheses deep; the model has no such bound. *)
Definition grammarFuel (n : nat) : nat := 4 * n + 4.

Definition parseWhere (inner : string) : result RQLCondition :=
  match tokenizeWhere inner with
  | Ok tokens =>
      match tokens with
      | [] => Throw "Empty where clause"
      | _ =>
          match parseOr tokens (grammarFuel (List.length tokens)) 0 with
          | Ok (res, pos) =>
              if pos <? List.length tokens then
                Throw "Unbalanced or invalid where expression"
              else
                match res with
                | None => Throw "Empty or invalid where expression"
                | Some c => Ok c
                end
          | Throw m => Throw m
          | OutOfFuel => OutOfFuel
          end
      end
  | Throw m => Throw m
  | OutOfFuel => OutOfFuel
  end.

(** *** splitTopLevel *)

Definition KEYS : list string := ["entity"; "limit"; "order"; "include"; "where"].

(** One of the five keys and a colon at the start of [rest]; [ci] is the [i]
    flag of the regular expression. *)
Definition keyAt (ci : bool) (rest : string) : bool :=
  existsb (fun k => String.prefix (k ^^ ":") (if ci then toLowerCase rest else rest))
          KEYS.

Fixpoint nextKeyFrom (ci : bool) (rest : string) (k : nat) : option nat :=
  match rest with
  | EmptyString => None
  | String c r =>
      if isSpace c && keyAt ci r then Some k else nextKeyFrom ci r (S k)
  end.

(** [re.lastIndex = from; re.exec(s)?.index] for the regular expression
    [/(\s)(entity|limit|order|include|where):/g], with the [i] flag when [ci]. *)
Definition nextKey (ci : bool) (s : string) (from : nat) : option nat :=
  nextKeyFrom ci (sliceFrom s from) from.

(** The body of a quoted string whose value is not needed: the index reached
    and [foundClosing]. *)
Fixpoint skipQuoted (rest : string) (i : nat) : nat * bool :=
  match rest with
  | EmptyString => (i, false)
  | String c r =>
      if Ascii.eqb c backslash then
        match r with
        | EmptyString => (i + 2, false)
        | String _ r' => skipQuoted r' (i + 2)
        end
      else if Ascii.eqb c dquote then (S i, true)
      else skipQuoted r (S i)
  end.

(** The loop [while (i < str.length && depth > 0)] over a [where:(] block:
    the index and the depth on leaving it. *)
Fixpoint whereBlockLoop (fuel : nat) (str : string) (i depth : nat)
  : result (nat * nat) :=
  match fuel with
  | 0 => OutOfFuel
  | S fuel' =>
      if (i <? String.length str) && (0 <? depth) then
        if charIs str i backslash then whereBlockLoop fuel' str (i + 2) depth
        else if charIs str i dquote then
          let '(j, foundClosing) := skipQuoted (sliceFrom str (S i)) (S i) in
          if foundClosing then whereBlockLoop fuel' str j depth
          else Throw "Unclosed quoted string in where clause"
        else if charIs str i "("%char then whereBlockLoop fuel' str (S i) (S depth)
        else if charIs str i ")"%char then whereBlockLoop fuel' str (S i) (depth - 1)
        else whereBlockLoop fuel' str (S i) depth
      else Ok (i, depth)
  end.

(** The outer loop of [splitTopLevel]. *)
Fixpoint splitLoop (fuel : nat) (str : string) (i : nat) (clauses : list string)
  : result (list string) :=
  match fuel with
  | 0 => OutOfFuel
  | S fuel' =>
      if String.length str <=? i then Ok clauses else
      let i := skipWs str i in
      if String.length str <=? i then Ok clauses
      else if charIs str i dquote then
        let start := i in
        let '(j, foundClosing) := skipQuoted (sliceFrom str (S i)) (S i) in
        if foundClosing then splitLoop fuel' str j (clauses ++ [slice str start j])
        else Throw "Unclosed quoted string"
      else if String.eqb (slice str i (i + 6)) "order:" then
        let start := i in
        let i := i + 6 in
        let end_ :=
          match nextKey false str i with
          | Some k => k
          | None => String.length str
          end in
        splitLoop fuel' str end_ (clauses ++ [slice str start end_])
      else if String.eqb (slice str i (i + 6)) "where:"
              && charIs str (i + 6) "("%char then
        let start := i in
        match whereBlockLoop (S (String.length str)) str (i + 7) 1 with
        | Ok (j, depth) =>
            if depth =? 0 then splitLoop fuel' str j (clauses ++ [slice str start j])
            else Throw "Unbalanced parentheses in where clause"
        | Throw m => Throw m
        | OutOfFuel => OutOfFuel
        end
      else
        (* a [where:] without parenthesis has advanced [i] past the key
           before the regular token starts *)
        let i := if String.eqb (slice str i (i + 6)) "where:" then i + 6 else i in
        let start := i in
        let j := skipNonWs str i in
        splitLoop fuel' str j (clauses ++ [slice str start j])
  end.

Definition splitTopLevel (str : string) : result (list string) :=
  splitLoop (S (String.length str)) str 0 [].

(** *** unwrapWhere *)

(** The [for] loop of [unwrapWhere] from index [i] on, [last] being
    [s.length - 1]: the final depth. *)
Fixpoint unwrapLoop (rest : string) (i last : nat) (depth : Z) : result Z :=
  match rest with
  | EmptyString => Ok depth
  | String c r =>
      let depth :=
        if Ascii.eqb c "("%char then (depth + 1)%Z
        else if Ascii.eqb c ")"%char then (depth - 1)%Z
        else depth in
      if (depth <? 0)%Z then Throw "Unbalanced parentheses in where clause"
      else if (depth =? 0)%Z && (i <? last) then
        Throw "Unbalanced or invalid where expression"
      else unwrapLoop r (S i) last depth
  end.

Definition unwrapWhere (value : string) : result string :=
  let s := trim value in
  if startsWith s "(" then
    match unwrapLoop s 0 (String.length s - 1) 0%Z with
    | Ok depth =>
        if negb (depth =? 0)%Z then Throw "Unbalanced parentheses in where clause"
        else if negb (endsWith s ")") then
          Throw "Unbalanced parentheses in where clause"
        else Ok (trim (slice s 1 (String.length s - 1)))
    | Throw m => Throw m
    | OutOfFuel => OutOfFuel
    end
  else Ok s.

(** *** validateAgainstSchema *)

Definition quoted (s : string) : string := str1 dquote ^^ s ^^ str1 dquote.

(** The names pushed on [fieldErrors] by [collectFields]. *)
Fixpoint collectFields (allowedFields : list string) (cond : RQLCondition)
  : list string :=
  match cond with
  | Comparison field _ _ => if has allowedFields field then [] else [field]
  | And cs => flat_map (collectFields allowedFields) cs
  | Or cs => flat_map (collectFields allowedFields) cs
  end.

(** The relation check: the first key of [include] that is not allowed. *)
Definition checkRelations (entityName : string) (allowed : list string)
    (keys : list string) : result unit :=
  match find (fun rel => negb (has allowed rel)) keys with
  | Some rel =>
      Throw ("Unknown relation " ^^ quoted rel ^^ " for entity "
             ^^ quoted entityName ^^ ". Known relations: " ^^ join ", " allowed)
  | None => Ok tt
  end.

(** The field check of the where clause. *)
Definition checkFields (entityName : string) (allowedFields : list string)
    (cond : RQLCondition) : result unit :=
  let unknown := uniq (collectFields allowedFields cond) in
  match unknown with
  | [] => Ok tt
  | _ =>
      Throw ("Unknown field(s) for entity " ^^ quoted entityName ^^ ": "
             ^^ join ", " unknown ^^ ". Known fields: " ^^ join ", " allowedFields)
  end.

Definition validateAgainstSchema (rql : RQLQuery) (schema : Schema.Schema)
  : result unit :=
  match Schema.entities schema with
  | [] => Ok tt
  | ents =>
      let entityNames := uniq (map Schema.name ents) in
      let entityCheck :=
        match entity rql with
        | Some e =>
            if negb (isEmpty e) && negb (has entityNames e) then
              Throw ("Unknown entity " ^^ quoted e ^^ ". Known entities: "
                     ^^ join ", " entityNames)
            else Ok tt
        | None => Ok tt
        end in
      match entityCheck with
      | Ok _ =>
          match entity rql with
          | None => Ok tt
          | Some e =>
              match find (fun d => String.eqb (Schema.name d) e) ents with
              | None => Ok tt
              | Some entityDef =>
                  let relationCheck :=
                    match include rql with
                    | Some (k :: ks) =>
                        let allowed :=
                          uniq (match Schema.relations entityDef with
                                | Some rs => rs
                                | None => []
                                end) in
                        checkRelations e allowed (k :: ks)
                    | _ => Ok tt
                    end in
                  match relationCheck with
                  | Ok _ =>
                      match where_ rql, Schema.fields entityDef with
                      | Some cond, Some fs =>
                          checkFields e (uniq (map fst fs)) cond
                      | _, _ => Ok tt
                      end
                  | Throw m => Throw m
                  | OutOfFuel => OutOfFuel
                  end
              end
          end
      | Throw m => Throw m
      | OutOfFuel => OutOfFuel
      end
  end.

(** *** parsePlainText *)

(** [parseInt(s, 10)]; [None] is [NaN].  The result is the integer that the
    digits denote; JavaScript returns the double nearest to it, which is
    that integer itself up to [2^53] in absolute value.  Statements about
    the value of a result carry that bound. *)
Definition parseInt (s : string) : option Z :=
  let s := trimStart s in
  let '(neg, body) :=
    match s with
    | String c r =>
        if Ascii.eqb c "-"%char then (true, r)
        else if Ascii.eqb c "+"%char then (false, r)
        else (false, s)
    | EmptyString => (false, s)
    end in
  let k := scanWhile isDigit body 0 in
  if k =? 0 then None else Some (signed neg (digitsValue (slice body 0 k) 0%N)).

Definition parseLimit (value : string) : result N :=
  if isEmpty value then Throw "limit value must be non-empty"
  else
    match parseInt value with
    | None => Throw "limit must be a valid integer"
    | Some n =>
        if (n <? 0)%Z then Throw "limit must be non-negative"
        else if negb (isDigits (trim value)) then
          Throw "limit must be an integer without decimals"
        else Ok (Z.to_N n)
    end.

(** One iteration of the loop over [value.split(",")] of the order clause. *)
Definition parseOrderTerm (part : string) : result RQLOrderTerm :=
  let t := trim part in
  if isEmpty t then Throw "Empty term in order list"
  else
    let tokens := splitWs t in
    let field := hd EmptyString tokens in
    let fieldLower := toLowerCase field in
    if String.eqb fieldLower "asc" || String.eqb fieldLower "desc" then
      Throw ("Invalid order term " ^^ quoted field
             ^^ ": order must be a field name (e.g. order:name or order:created_at desc), not a direction alone.")
    else
      match tokens with
      | _ :: tok1 :: _ =>
          let d := toLowerCase tok1 in
          if String.eqb d "asc" then Ok (mkOrderTerm field Asc)
          else if String.eqb d "desc" then Ok (mkOrderTerm field Desc)
          else Throw ("Invalid order direction " ^^ quoted tok1
                      ^^ ". Use asc or desc.")
      | _ => Ok (mkOrderTerm field Asc)
      end.

Fixpoint parseOrderTerms (parts : list string) (terms : list RQLOrderTerm)
  : result (list RQLOrderTerm) :=
  match parts with
  | [] => Ok terms
  | part :: rest =>
      match parseOrderTerm part with
      | Ok term => parseOrderTerms rest (terms ++ [term])
      | Throw m => Throw m
      | OutOfFuel => OutOfFuel
      end
  end.

(** An array index: the canonical numeral of an integer from [0] to
    [2^32 - 2]. *)
Definition isArrayIndex (s : string) : bool :=
  isDigits s
  && (String.eqb s "0" || negb (String.prefix "0" s))
  && (digitsValue s 0 <=? 4294967294)%N.

Fixpoint insertIndex (k : string) (sorted : list string) : list string :=
  match sorted with
  | [] => [k]
  | x :: r =>
      if (digitsValue k 0 <=? digitsValue x 0)%N then k :: sorted
      else x :: insertIndex k r
  end.

(** [Object.keys(o)] for a plain object [o] whose own keys were created in
    the order [keys]: the array indices in ascending numeric order, then
    the other names in the order of their creation. *)
Definition objectKeys (keys : list string) : list string :=
  fold_right insertIndex [] (filter isArrayIndex keys)
  ++ filter (fun k => negb (isArrayIndex k)) keys.

(** The loop over [value.split(",")] of the include clause; [keys] are the
    own keys of [out.include] so far, in the order of their creation.  The
    assignment [out.include[r] = true] creates the key [r] unless the object
    has it already; for [r = __proto__] it reaches the accessor of
    [Object.prototype], which ignores a value that is no object, and no key
    is created. *)
Fixpoint parseInclude (parts : list string) (keys : list string)
  : result (list string) :=
  match parts with
  | [] => Ok keys
  | rel :: rest =>
      let r := trim rel in
      if isEmpty r then Throw "Empty relation name in include list"
      else parseInclude rest
             (if String.eqb r "__proto__" || has keys r then keys
              else keys ++ [r])
  end.

Definition isSome {A : Type} (o : option A) : bool :=
  match o with Some _ => true | None => false end.

(** The body of the loop over the clauses. *)
Definition parseClause (out : RQLQuery) (clause : string) : result RQLQuery :=
  match indexOf clause ":"%char with
  | None =>
      Throw ("Invalid clause " ^^ quoted clause
             ^^ ": expected key:value format (e.g., entity:users). "
             ^^ "Valid keys: entity, limit, order, include, where")
  | Some colon =>
      let key := toLowerCase (trim (slice clause 0 colon)) in
      let value := trim (sliceFrom clause (S colon)) in
      if String.eqb key "entity" then
        if isSome (entity out) then Throw "Duplicate top-level key: entity"
        else if isEmpty value then Throw "entity value must be non-empty"
        else Ok (mkQuery (Some value) (limit out) (order out) (include out)
                         (where_ out))
      else if String.eqb key "limit" then
        if isSome (limit out) then Throw "Duplicate top-level key: limit"
        else
          match parseLimit value with
          | Ok n => Ok (mkQuery (entity out) (Some n) (order out) (include out)
                                (where_ out))
          | Throw m => Throw m
          | OutOfFuel => OutOfFuel
          end
      else if String.eqb key "order" then
        if isSome (order out) then Throw "Duplicate top-level key: order"
        else if isEmpty value then Throw "order value must be non-empty"
        else
          match parseOrderTerms (split value ","%char) [] with
          | Ok terms => Ok (mkQuery (entity out) (limit out) (Some terms)
                                    (include out) (where_ out))
          | Throw m => Throw m
          | OutOfFuel => OutOfFuel
          end
      else if String.eqb key "include" then
        if isSome (include out) then Throw "Duplicate top-level key: include"
        else if isEmpty value then Throw "include value must be non-empty"
        else
          match parseInclude (split value ","%char) [] with
          | Ok keys => Ok (mkQuery (entity out) (limit out) (order out)
                                   (Some (objectKeys keys)) (where_ out))
          | Throw m => Throw m
          | OutOfFuel => OutOfFuel
          end
      else if String.eqb key "where" then
        if isSome (where_ out) then Throw "Duplicate top-level key: where"
        else if isEmpty value then Throw "where value must be non-empty"
        else
          match unwrapWhere value with
          | Ok inner =>
              match parseWhere inner with
              | Ok cond => Ok (mkQuery (entity out) (limit out) (order out)
                                       (include out) (Some cond))
              | Throw m => Throw m
              | OutOfFuel => OutOfFuel
              end
          | Throw m => Throw m
          | OutOfFuel => OutOfFuel
          end
      else
        Throw ("Unknown top-level key: " ^^ quoted key
               ^^ ". Valid keys: entity, limit, order, include, where")
  end.

Fixpoint parseClauses (clauses : list string) (out : RQLQuery) : result RQLQuery :=
  match clauses with
  | [] => Ok out
  | clause :: rest =>
      match parseClause out clause with
      | Ok out' => parseClauses rest out'
      | Throw m => Throw m
      | OutOfFuel => OutOfFuel
      end
  end.

(** [parsePlainText(input, schema?)]; [None] is an omitted schema. *)
Definition parsePlainText (input : string) (schema : option Schema.Schema)
  : result RQLQuery :=
  let trimmed := trim input in
  if isEmpty trimmed then Ok emptyQuery
  else
    match splitTopLevel trimmed with
    | Ok clauses =>
        match parseClauses clauses emptyQuery with
        | Ok out =>
            match schema with
            | Some sch =>
                match validateAgainstSchema out sch with
                | Ok _ => Ok out
                | Throw m => Throw m
                | OutOfFuel => OutOfFuel
                end
            | None => Ok out
            end
        | Throw m => Throw m
        | OutOfFuel => OutOfFuel
        end
    | Throw m => Throw m
    | OutOfFuel => OutOfFuel
    end.

(** [isValidPlainText]: [true] on a result, [false] on a [ParseError]. *)
Definition isValidPlainText (input : string) (schema : option Schema.Schema)
  : result bool :=
  match parsePlainText input schema with
  | Ok _ => Ok true
  | Throw _ => Ok false
  | OutOfFuel => OutOfFuel
  end.

End Parse.

(* ================================================================== *)
(** ** autocomplete.ts *)
(* ================================================================== *)

Module Autocomplete.

Import JS.

Definition TOP_LEVEL_KEYS : list string :=
  ["entity:"; "limit:"; "order:"; "include:"; "where:("].

Definition WHERE_OPS : list string := ["!="; "<="; ">="; "="; "<"; ">"].

Record SegmentResult : Type := mkSegment {
  segment : string;
  startIndex : nat
}.

Inductive WhereKind : Type := KField | KValue.

(** [field] and [op] are optional: [None] is [undefined]. *)
Record WhereParseResult : Type := mkWhereParse {
  wp_kind : WhereKind;
  wp_partial : string;
  wp_field : option string;
  wp_op : option string
}.

Inductive TokenType : Type := Paren | Keyword | Op | Val | Word.

Record Token : Type := mkToken {
  tok_type : TokenType;
  tok_value : string
}.

Inductive CursorContext : Type :=
  | TopLevel (partial : string) (usedKeys : list string)
  | EntityValue (partial : string)
  | LimitValue (partial : string)
  | OrderValue (partial entityValue : string) (afterField : option bool)
  | IncludeValue (partial entityValue : string)
  | WhereField (partial entityValue : string)
  | WhereValue (partial field op entityValue : string)
  | Unknown (partial : string).

(** *** Scanners *)

Fixpoint quotedEnd (rest : string) (i : nat) : nat :=
  match rest with
  | EmptyString => i
  | String c r =>
      if Ascii.eqb c backslash then
        match r with
        | EmptyString => i + 2
        | String _ r' => quotedEnd r' (i + 2)
        end
      else if Ascii.eqb c dquote then S i
      else quotedEnd r (S i)
  end.

(** [skipQuotedString(s, startIndex)] *)
Definition skipQuotedString (s : string) (startIndex : nat) : nat :=
  quotedEnd (sliceFrom s (S startIndex)) (S startIndex).

(** The [while (i < s.length && depth > 0)] loop of [skipWhereBlock]. *)
Fixpoint skipWhereLoop (fuel : nat) (s : string) (i depth : nat) : option nat :=
  match fuel with
  | 0 => None
  | S fuel' =>
      if (i <? String.length s) && (0 <? depth) then
        if charIs s i backslash then skipWhereLoop fuel' s (i + 2) depth
        else if charIs s i dquote then
          skipWhereLoop fuel' s (skipQuotedString s i) depth
        else if charIs s i "("%char then skipWhereLoop fuel' s (S i) (S depth)
        else if charIs s i ")"%char then skipWhereLoop fuel' s (S i) (depth - 1)
        else skipWhereLoop fuel' s (S i) depth
      else Some i
  end.

Definition skipWhereBlock (fuel : nat) (s : string) (startIndex : nat)
  : option nat :=
  let i := startIndex + 6 in
  if negb (charIs s i "("%char) then Some i
  else skipWhereLoop fuel s (S i) 1.

(** [findNextKeyStart(s, fromIndex)]: the regular expression carries the
    flags [gi]. *)
Definition findNextKeyStart (s : string) (fromIndex : nat) : nat :=
  match Parse.nextKey true s fromIndex with
  | Some k => k
  | None => String.length s
  end.

(** A match of [/^(k1|k2|...):/i] at the start of [rest]: the key matched,
    in lower case. *)
Definition matchKey (keys : list string) (rest : string) : option string :=
  find (fun k => String.prefix (k ^^ ":") (toLowerCase rest)) keys.

(** [/\s$/.test(s)] *)
Definition endsWithWs (s : string) : bool :=
  match rev s with
  | String c _ => isSpace c
  | EmptyString => false
  end.

(** *** getSegmentAtCursor *)

(** The loop that skips an include value. *)
Fixpoint includeLoop (fuel : nat) (beforeCursor : string) (i : nat) : option nat :=
  match fuel with
  | 0 => None
  | S fuel' =>
      let len := String.length beforeCursor in
      if len <=? i then Some i else
      let i := skipWs beforeCursor i in
      if len <=? i then Some i
      else if String.eqb (slice beforeCursor i (i + 6)) "where:"
              && charIs beforeCursor (i + 6) "("%char then Some i
      else if Parse.isSome (matchKey ["entity"; "limit"; "order"; "include"]
                                     (sliceFrom beforeCursor i)) then Some i
      else if charIs beforeCursor i dquote then
        includeLoop fuel' beforeCursor (skipQuotedString beforeCursor i)
      else includeLoop fuel' beforeCursor (S i)
  end.

(** The main loop of [getSegmentAtCursor]: [inl r] when the loop body
    returns [r], [inr lastClauseStart] when the loop runs to its end. *)
Fixpoint segmentLoop (fuel : nat) (beforeCursor : string) (cursor : nat)
    (i lastClauseStart : nat) : option (SegmentResult + nat) :=
  match fuel with
  | 0 => None
  | S fuel' =>
      let len := String.length beforeCursor in
      if len <=? i then Some (inr lastClauseStart) else
      let i := skipWs beforeCursor i in
      if len <=? i then Some (inr lastClauseStart) else
      let clauseStart := i in
      if charIs beforeCursor i dquote then
        segmentLoop fuel' beforeCursor cursor (skipQuotedString beforeCursor i)
                    lastClauseStart
      else if String.eqb (slice beforeCursor i (i + 6)) "where:"
              && charIs beforeCursor (i + 6) "("%char then
        match skipWhereBlock fuel' beforeCursor i with
        | None => None
        | Some endOfBlock =>
            if cursor <=? endOfBlock then
              Some (inl (mkSegment (slice beforeCursor i cursor) i))
            else
              Some (inl (mkSegment (slice beforeCursor endOfBlock cursor)
                                   endOfBlock))
        end
      else if String.eqb (toLowerCase (slice beforeCursor i (i + 6))) "order:" then
        let segmentEnd := findNextKeyStart beforeCursor (i + 6) in
        if cursor <? segmentEnd then
          Some (inl (mkSegment (slice beforeCursor i cursor) i))
        else if segmentEnd <? len then
          segmentLoop fuel' beforeCursor cursor segmentEnd segmentEnd
        else if (cursor =? len) && endsWithWs beforeCursor
                && isEmpty (trim (slice beforeCursor (i + 6) segmentEnd)) then
          segmentLoop fuel' beforeCursor cursor len len
        else Some (inl (mkSegment (slice beforeCursor i cursor) i))
      else
        match matchKey ["entity"; "limit"; "include"] (sliceFrom beforeCursor i) with
        | Some key =>
            let i := i + (String.length key + 1) in
            if String.eqb key "include" then
              match includeLoop fuel' beforeCursor i with
              | None => None
              | Some j => segmentLoop fuel' beforeCursor cursor j clauseStart
              end
            else
              segmentLoop fuel' beforeCursor cursor (skipNonWs beforeCursor i)
                          clauseStart
        | None =>
            segmentLoop fuel' beforeCursor cursor (skipNonWs beforeCursor i)
                        clauseStart
        end
  end.

Definition getSegmentAtCursor (fuel : nat) (query : string) (cursor : nat)
  : option SegmentResult :=
  let beforeCursor := slice query 0 cursor in
  let len := String.length beforeCursor in
  match segmentLoop fuel beforeCursor cursor 0 0 with
  | None => None
  | Some (inl r) => Some r
  | Some (inr lastClauseStart) =>
      if (cursor =? String.length query) && (0 <? len) && endsWithWs beforeCursor
      then Some (mkSegment EmptyString len)
      else Some (mkSegment (sliceFrom beforeCursor lastClauseStart) lastClauseStart)
  end.

(** *** getEntityValueFromQuery *)

(** The first match in [rest] of the regular expression [entity:] followed
    by a captured maximal run of non-whitespace characters: the capture. *)
Fixpoint entityCapture (rest : string) : option string :=
  match rest with
  | EmptyString => None
  | String _ r =>
      if String.prefix "entity:" rest then
        let v := sliceFrom rest 7 in
        Some (slice v 0 (scanWhile (fun c => negb (isSpace c)) v 0))
      else entityCapture r
  end.

Definition getEntityValueFromQuery (query : string) : string :=
  match entityCapture query with
  | Some v => trim v
  | None => EmptyString
  end.

(** *** getTopLevelKeysUsed *)

(** [keys.add(k)] on an insertion-ordered set. *)
Definition setAdd (keys : list string) (k : string) : list string :=
  if has keys k then keys else keys ++ [k].

Fixpoint keysLoop (fuel : nat) (query : string) (i : nat) (keys : list string)
  : option (list string) :=
  match fuel with
  | 0 => None
  | S fuel' =>
      let len := String.length query in
      if len <=? i then Some keys else
      let i := skipWs query i in
      if len <=? i then Some keys
      else if charIs query i dquote then
        keysLoop fuel' query (skipQuotedString query i) keys
      else if String.eqb (slice query i (i + 6)) "where:" then
        match skipWhereBlock fuel' query i with
        | None => None
        | Some j => keysLoop fuel' query j (setAdd keys "where")
        end
      else if String.eqb (toLowerCase (slice query i (i + 6))) "order:" then
        keysLoop fuel' query (findNextKeyStart query (i + 6)) (setAdd keys "order")
      else
        let start := i in
        let i := skipNonWs query i in
        let segment := slice query start i in
        let keys :=
          match indexOf segment ":"%char with
          | Some colonIndex =>
              let key := toLowerCase (trim (slice segment 0 colonIndex)) in
              if String.eqb key "entity" || String.eqb key "limit"
                 || String.eqb key "include"
              then setAdd keys key else keys
          | None => keys
          end in
        keysLoop fuel' query i keys
  end.

Definition getTopLevelKeysUsed (fuel : nat) (query : string)
  : option (list string) :=
  keysLoop fuel query 0 [].

(** *** tokenizeWhereInner *)

Definition wordChar (c : ascii) : bool := Parse.isWordChar c.

(** The first operator of [WHERE_OPS] found at index [i]. *)
Definition opFound (s : string) (i : nat) : option string :=
  find (fun op => String.eqb (slice s i (i + String.length op)) op) WHERE_OPS.

(** [/^kw$/i.test(s.slice(i, i + n))] and no word character right after,
    [n] being the length of [kw]. *)
Definition keywordAt (s : string) (i : nat) (kw : string) : bool :=
  let n := String.length kw in
  (n <=? String.length s - i)
  && String.eqb (toLowerCase (slice s i (i + n))) kw
  && ((String.length s <=? i + n)
      || negb (match charAt s (i + n) with
               | Some c => wordChar c
               | None => false
               end)).

(** The body of a quoted value: the index reached and the value read. *)
Fixpoint scanValue (rest : string) (i : nat) (value : string) : nat * string :=
  match rest with
  | EmptyString => (i, value)
  | String c r =>
      if Ascii.eqb c backslash then
        match r with
        | EmptyString => (S i, value)
        | String d r' => scanValue r' (i + 2) (value ^^ str1 d)
        end
      else if Ascii.eqb c dquote then (S i, value)
      else scanValue r (S i) (value ^^ str1 c)
  end.

(** One iteration of the [while (i < s.length)] loop of [tokenizeWhereInner]
    at an index [i < s.length]: the index and the tokens after it. *)
Definition tokenizeStep (s : string) (i : nat) (tokens : list Token)
  : nat * list Token :=
  let i := skipWs s i in
  if String.length s <=? i then (i, tokens)
  else if charIs s i "("%char || charIs s i ")"%char then
    (S i, tokens ++ [mkToken Paren (slice s i (S i))])
  else if keywordAt s i "or" then
    (i + 2, tokens ++ [mkToken Keyword (slice s i (i + 2))])
  else if keywordAt s i "and" then
    (i + 3, tokens ++ [mkToken Keyword (slice s i (i + 3))])
  else
    match opFound s i with
    | Some op => (i + String.length op, tokens ++ [mkToken Op op])
    | None =>
        if charIs s i dquote then
          let '(j, value) := scanValue (sliceFrom s (S i)) (S i) EmptyString in
          (j, tokens ++ [mkToken Val value])
        else
          let start := i in
          let i := scanWhile wordChar (sliceFrom s i) i in
          let word := slice s start i in
          if negb (isEmpty word) then
            let lower := toLowerCase word in
            let tokenType :=
              if String.eqb lower "and" || String.eqb lower "or"
              then Keyword else Word in
            (i, tokens ++ [mkToken tokenType word])
          else (i, tokens)
    end.

Fixpoint tokenizeLoop (fuel : nat) (s : string) (i : nat) (tokens : list Token)
  : option (list Token) :=
  match fuel with
  | 0 => None
  | S fuel' =>
      if String.length s <=? i then Some tokens
      else
        let '(j, tokens') := tokenizeStep s i tokens in
        tokenizeLoop fuel' s j tokens'
  end.

Definition tokenizeWhereInner (fuel : nat) (s : string) : option (list Token) :=
  tokenizeLoop fuel s 0 [].

(** *** parseWhereInner *)

Definition isType (t : option Token) (ty : TokenType) : bool :=
  match t with
  | Some tk =>
      match tok_type tk, ty with
      | Paren, Paren | Keyword, Keyword | Op, Op | Val, Val | Word, Word => true
      | _, _ => false
      end
  | None => false
  end.

Definition parseWhereInner (fuel : nat) (inner : string)
  : option WhereParseResult :=
  let trimmed := trimEnd inner in
  if isEmpty trimmed then Some (mkWhereParse KField EmptyString None None)
  else
    match tokenizeWhereInner fuel trimmed with
    | None => None
    | Some tokens =>
        let back := List.rev tokens in
        match back with
        | [] => Some (mkWhereParse KField EmptyString None None)
        | last :: _ =>
            let prev := nth_error back 1 in
            let prevPrev := nth_error back 2 in
            match tok_type last with
            | Word =>
                if isType prev Op then
                  Some (mkWhereParse KValue (tok_value last)
                          (option_map tok_value prevPrev)
                          (option_map tok_value prev))
                else Some (mkWhereParse KField (tok_value last) None None)
            | Op =>
                Some (mkWhereParse KValue EmptyString
                        (option_map tok_value prev) (Some (tok_value last)))
            | Val =>
                Some (mkWhereParse KValue (tok_value last)
                        (option_map tok_value prevPrev)
                        (option_map tok_value prev))
            | Paren | Keyword =>
                Some (mkWhereParse KField EmptyString None None)
            end
        end
    end.

(** *** getContext *)

(** The running balance of parentheses over the characters of [s]. *)
Fixpoint parenBalance (s : string) (balance : Z) : Z :=
  match s with
  | EmptyString => balance
  | String c r =>
      parenBalance r (if Ascii.eqb c "("%char then (balance + 1)%Z
                      else if Ascii.eqb c ")"%char then (balance - 1)%Z
                      else balance)
  end.

Definition orElse (o : option string) (d : string) : string :=
  match o with Some v => v | None => d end.

(** [getContext(query, cursor)]; [None] when a loop does not end within
    [fuel] iterations. *)
Definition getContext (fuel : nat) (query : string) (cursor : Z)
  : option CursorContext :=
  let safeCursor :=
    Z.to_nat (Z.max 0 (Z.min cursor (Z.of_nat (String.length query)))) in
  match getSegmentAtCursor fuel query safeCursor with
  | None => None
  | Some seg =>
  let segment := segment seg in
  let entityValue := getEntityValueFromQuery query in
  match getTopLevelKeysUsed fuel query with
  | None => None
  | Some usedKeys =>
  if isEmpty segment then Some (TopLevel EmptyString usedKeys)
  else
    let before (c : ascii) : bool :=
      (0 <? safeCursor) && charIs query (safeCursor - 1) c in
    match indexOf segment ":"%char with
    | None =>
        let trimmedSegment := toLowerCase (trim segment) in
        let justTypedColon := before ":"%char in
        if justTypedColon && String.eqb trimmedSegment "entity" then
          Some (EntityValue EmptyString)
        else if justTypedColon && String.eqb trimmedSegment "limit" then
          Some (LimitValue EmptyString)
        else if justTypedColon && String.eqb trimmedSegment "order" then
          Some (OrderValue EmptyString entityValue None)
        else if justTypedColon && String.eqb trimmedSegment "include" then
          Some (IncludeValue EmptyString entityValue)
        else if String.eqb trimmedSegment "where" && before "("%char then
          Some (WhereField EmptyString entityValue)
        else Some (TopLevel (trim segment) usedKeys)
    | Some colonIndex =>
        let key := toLowerCase (trim (slice segment 0 colonIndex)) in
        let value := sliceFrom segment (S colonIndex) in
        if String.eqb key "entity" then Some (EntityValue value)
        else if String.eqb key "limit" then Some (LimitValue (trim value))
        else if String.eqb key "order" then
          let afterLastComma :=
            match lastIndexOf value ","%char with
            | Some k => sliceFrom value (S k)
            | None => value
            end in
          let partial :=
            if endsWith afterLastComma " " || isEmpty (trim afterLastComma)
            then EmptyString
            else
              let trimmed := trimEnd afterLastComma in
              match lastIndexOf trimmed " "%char with
              | None => trimmed
              | Some lastSpace => sliceFrom trimmed (S lastSpace)
              end in
          let afterField :=
            (0 <? String.length (trimEnd afterLastComma))
            && endsWith afterLastComma " " in
          Some (OrderValue partial entityValue (Some afterField))
        else if String.eqb key "include" then
          let afterLastComma :=
            match lastIndexOf value ","%char with
            | Some k => trim (sliceFrom value (S k))
            | None => trim value
            end in
          Some (IncludeValue afterLastComma entityValue)
        else if String.eqb key "where" then
          let inner :=
            if startsWith (trim value) "(" then sliceFrom (trim value) 1
            else trim value in
          let inner :=
            if endsWith inner ")" && (parenBalance inner 0 =? -1)%Z
            then trim (slice inner 0 (String.length inner - 1))
            else inner in
          match parseWhereInner fuel inner with
          | None => None
          | Some parsed =>
              match wp_kind parsed with
              | KField => Some (WhereField (wp_partial parsed) entityValue)
              | KValue =>
                  Some (WhereValue (wp_partial parsed)
                          (orElse (wp_field parsed) EmptyString)
                          (orElse (wp_op parsed) "=")
                          entityValue)
              end
          end
        else Some (Unknown segment)
    end
  end
  end.

(** *** getSuggestions *)

(** [replacePartial?: boolean]: [None] is an absent property. *)
Record Suggestion : Type := mkSuggestion {
  label : string;
  insertText : string;
  replacePartial : option bool;
  replaceLength : nat
}.

Definition contextPartial (context : CursorContext) : string :=
  match context with
  | TopLevel p _ | EntityValue p | LimitValue p | OrderValue p _ _
  | IncludeValue p _ | WhereField p _ | WhereValue p _ _ _ | Unknown p => p
  end.

(** [matchesPartial], [partial] being the lower-cased partial of the context. *)
Definition matchesPartial (partial : string) (name : string) : bool :=
  isEmpty partial || startsWith (toLowerCase name) partial.

(** [withReplace] applied to the object with the given [label], [insertText]
    and [replacePartial]. *)
Definition withReplace (replaceLen : nat) (label insertText : string)
    (replacePartial : option bool) : Suggestion :=
  match replacePartial with
  | Some false => mkSuggestion label insertText replacePartial 0
  | _ => mkSuggestion label insertText replacePartial replaceLen
  end.

(** [findRelevantEntities] *)
Definition findRelevantEntities (schema : Schema.Schema) (entityValue : string)
  : list Schema.EntityDef :=
  if isEmpty entityValue then Schema.entities schema
  else
    let lowerEntityValue := toLowerCase entityValue in
    filter (fun e =>
              String.eqb (toLowerCase (Schema.name e)) lowerEntityValue
              || startsWith (toLowerCase (Schema.name e)) lowerEntityValue)
           (Schema.entities schema).

(** [Object.entries(entity.fields ?? {})] *)
Definition fieldEntries (e : Schema.EntityDef) : list (string * Schema.FieldDef) :=
  match Schema.fields e with
  | Some fs => fs
  | None => []
  end.

(** The keys of [fieldMap], in insertion order. *)
Definition fieldMapKeys (partial : string) (relevant : list Schema.EntityDef)
  : list string :=
  uniq (filter (matchesPartial partial)
               (flat_map (fun e => map fst (fieldEntries e)) relevant)).

(** [entity.fields?.[field]], for a [field] that is an own property of the
    fields map or is absent from it and from [Object.prototype].  The name
    of a property inherited from [Object.prototype] is outside this
    definition: the program reads the inherited value, and at [constructor]
    it then fails with a [TypeError] on [Object.values], which is no
    list. *)
Definition fieldLookup (e : Schema.EntityDef) (field : string)
  : option Schema.FieldDef :=
  match Schema.fields e with
  | Some fs => option_map snd (find (fun kv => String.eqb (fst kv) field) fs)
  | None => None
  end.

Definition plain (replaceLen : nat) (name : string) : Suggestion :=
  withReplace replaceLen name name None.

Definition getSuggestions (context : CursorContext) (schema : Schema.Schema)
  : list Suggestion :=
  let partial := toLowerCase (contextPartial context) in
  let replaceLen := String.length (contextPartial context) in
  match context with
  | TopLevel _ usedKeys =>
      map (plain replaceLen)
          (filter (fun k =>
                     let keyName := removeFirst "("%char (removeFirst ":"%char k) in
                     negb (has usedKeys keyName) && matchesPartial partial keyName)
                  TOP_LEVEL_KEYS)
  | EntityValue _ =>
      map (fun e => plain replaceLen (Schema.name e))
          (filter (fun e => matchesPartial partial (Schema.name e))
                  (Schema.entities schema))
  | LimitValue _ => []
  | OrderValue _ entityValue afterField =>
      let relevantEntities := findRelevantEntities schema entityValue in
      let suggestions := map (plain replaceLen) (fieldMapKeys partial relevantEntities) in
      match afterField with
      | Some true =>
          suggestions
          ++ map (plain replaceLen) (filter (matchesPartial partial) ["asc"; "desc"])
      | _ => suggestions
      end
  | IncludeValue _ entityValue =>
      let relevantEntities := findRelevantEntities schema entityValue in
      let relations :=
        uniq (filter (matchesPartial partial)
                (flat_map (fun e => match Schema.relations e with
                                    | Some rs => rs
                                    | None => []
                                    end) relevantEntities)) in
      map (plain replaceLen) relations
  | WhereField p entityValue =>
      let relevantEntities := findRelevantEntities schema entityValue in
      let keys := fieldMapKeys partial relevantEntities in
      let exactFieldMatch := negb (isEmpty p) && has keys p in
      if exactFieldMatch then
        map (fun op => withReplace replaceLen op op (Some false)) WHERE_OPS
      else map (plain replaceLen) keys
  | WhereValue _ field _ entityValue =>
      let relevantEntities := findRelevantEntities schema entityValue in
      let valueSet :=
        uniq (filter (matchesPartial partial)
                (flat_map (fun e =>
                             match fieldLookup e field with
                             | Some fieldDef =>
                                 match Schema.values fieldDef with
                                 | Some vs => vs
                                 | None => []
                                 end
                             | None => []
                             end) relevantEntities)) in
      map (plain replaceLen) valueSet
  | Unknown _ => []
  end.

(** [getSuggestionsAtCursor] *)
Definition getSuggestionsAtCursor (fuel : nat) (query : string) (cursor : Z)
    (schema : Schema.Schema) : option (list Suggestion) :=
  match getContext fuel query cursor with
  | Some context => Some (getSuggestions context schema)
  | None => None
  end.

End Autocomplete.

(* ================================================================== *)
(** ** Predicates of the specification *)
(* ================================================================== *)

Module Spec.

Import JS.

(** The query [rql] with its order clause replaced. *)
Definition setOrder (rql : Parse.RQLQuery) (o : option (list Parse.RQLOrderTerm))
  : Parse.RQLQuery :=
  Parse.mkQuery (Parse.entity rql) (Parse.limit rql) o (Parse.include rql)
                (Parse.where_ rql).

(** The query [rql] with its where clause replaced. *)
Definition setWhere (rql : Parse.RQLQuery) (w : option Parse.RQLCondition)
  : Parse.RQLQuery :=
  Parse.mkQuery (Parse.entity rql) (Parse.limit rql) (Parse.order rql)
                (Parse.include rql) w.

(** The head of [rest], if any, does not satisfy [p]. *)
Definition stopsAt (p : ascii -> bool) (rest : string) : Prop :=
  match rest with
  | String d _ => p d = false
  | EmptyString => True
  end.

(** Neither a double quote nor a backslash: a character that stands for
    itself inside a quoted string. *)
Definition plainChar (c : ascii) : bool :=
  negb (Ascii.eqb c dquote) && negb (Ascii.eqb c backslash).

(** The characters of a numeric literal. *)
Definition numChar (c : ascii) : bool :=
  isDigit c || Ascii.eqb c "."%char || Ascii.eqb c "-"%char.

Definition isAnd (c : Parse.RQLCondition) : bool :=
  match c with Parse.And _ => true | _ => false end.

Definition isOr (c : Parse.RQLCondition) : bool :=
  match c with Parse.Or _ => true | _ => false end.

(** The flattening invariant, at every node of the tree: a logical node has
    at least two children, no [And] is a child of an [And] and no [Or] is a
    child of an [Or]. *)
Fixpoint flattened (c : Parse.RQLCondition) : bool :=
  match c with
  | Parse.Comparison _ _ _ => true
  | Parse.And cs =>
      (2 <=? List.length cs)
      && forallb (fun d => negb (isAnd d) && flattened d) cs
  | Parse.Or cs =>
      (2 <=? List.length cs)
      && forallb (fun d => negb (isOr d) && flattened d) cs
  end.

(** What the grammar functions return: nothing, or a flattened tree. *)
Definition good (r : option Parse.RQLCondition) : Prop :=
  match r with
  | Some c => flattened c = true
  | None => True
  end.

(** [replaceLength] is [0] when [replacePartial] is [false], and the length
    [n] of the partial otherwise. *)
Definition replaceOk (n : nat) (s : Autocomplete.Suggestion) : Prop :=
  Autocomplete.replaceLength s
  = match Autocomplete.replacePartial s with
    | Some false => 0
    | _ => n
    end.

(** The label of [s] starts, case-insensitively, with [partial]. *)
Definition prefixLaw (partial : string) (s : Autocomplete.Suggestion) : bool :=
  startsWith (toLowerCase (Autocomplete.label s)) (toLowerCase partial).

(** The names of the fields of the entities relevant to [entityValue]. *)
Definition relevantFieldNames (schema : Schema.Schema) (entityValue : string)
  : list string :=
  flat_map (fun e => map fst (Autocomplete.fieldEntries e))
           (Autocomplete.findRelevantEntities schema entityValue).

(** The condition of the exact-match override: a where-field context whose
    non-empty partial is, case-sensitively, the name of a field of a relevant
    entity. *)
Definition exactFieldMatch (context : Autocomplete.CursorContext)
    (schema : Schema.Schema) : bool :=
  match context with
  | Autocomplete.WhereField p entityValue =>
      negb (isEmpty p) && has (relevantFieldNames schema entityValue) p
  | _ => false
  end.

(** The six comparison operators, each inserted at the cursor. *)
Definition operatorSuggestions : list Autocomplete.Suggestion :=
  map (fun op => Autocomplete.mkSuggestion op op (Some false) 0)
      ["!="; "<="; ">="; "="; "<"; ">"].

(** The value that a token stands for in the place of a value. *)
Definition tokenValue (t : Parse.WhereToken) : option Parse.Value :=
  match t with
  | Parse.TIdent _ raw => Some (Parse.VString raw)
  | Parse.TString v => Some (Parse.VString v)
  | Parse.TNumber n => Some (Parse.VNumber n)
  | Parse.TBoolean b => Some (Parse.VBoolean b)
  | _ => None
  end.

(** The name that a token stands for in the place of a field. *)
Definition tokenField (t : Parse.WhereToken) : option string :=
  match t with
  | Parse.TIdent _ raw => Some raw
  | Parse.TString v => Some v
  | _ => None
  end.

(** The comparisons of a tree, left to right. *)
Fixpoint leavesOf (c : Parse.RQLCondition)
  : list (string * string * Parse.Value) :=
  match c with
  | Parse.Comparison f o v => [(f, o, v)]
  | Parse.And cs => flat_map leavesOf cs
  | Parse.Or cs => flat_map leavesOf cs
  end.

(** The unquoted word that starts at index [k] of [s]. *)
Definition wordAt (s : string) (k : nat) : string :=
  slice s k (scanWhile Parse.isWordChar (sliceFrom s k) k).

(** How the token that starts at index [k] of [s] is typed: at a double
    quote it is the string token of the text between the quotes, escapes
    removed, whatever that text looks like; elsewhere it is the token of
    the unquoted word that starts there, as [classifyWord] types it. *)
Definition typedAt (s : string) (k : nat) (t : Parse.WhereToken) : Prop :=
  if charIs s k dquote
  then exists j body,
         Parse.scanString (sliceFrom s (S k)) (S k) EmptyString = (j, body, true)
         /\ t = Parse.TString body
  else t = Parse.classifyWord (wordAt s k).

(** Every token that stands for a value is typed by the place it starts
    at. *)
Definition lexemeOk (s : string) (kt : nat * Parse.WhereToken) : Prop :=
  tokenValue (snd kt) <> None -> typedAt s (fst kt) (snd kt).

(** The comparison [(f, op, v)] is read from three tokens in a row, or from
    two when the operator is left out: the token of the field, the token of
    the operator, and the token of the value. *)
Definition leafAt (tokens : list Parse.WhereToken)
    (leaf : string * string * Parse.Value) : Prop :=
  exists p tf,
    nth_error tokens p = Some tf
    /\ tokenField tf = Some (fst (fst leaf))
    /\ exists q tv,
         nth_error tokens q = Some tv
         /\ tokenValue tv = Some (snd leaf)
         /\ ((nth_error tokens (S p) = Some (Parse.TOp (snd (fst leaf)))
              /\ q = S (S p))
             \/ (snd (fst leaf) = "=" /\ q = S p)).

(** The same with the place in the text [s] where the token of the value
    starts, and the typing of the token at that place. *)
Definition comparisonAt (s : string) (lexemes : list (nat * Parse.WhereToken))
    (leaf : string * string * Parse.Value) : Prop :=
  exists p tf,
    nth_error (map snd lexemes) p = Some tf
    /\ tokenField tf = Some (fst (fst leaf))
    /\ exists q kv tv,
         nth_error lexemes q = Some (kv, tv)
         /\ tokenValue tv = Some (snd leaf)
         /\ typedAt s kv tv
         /\ ((nth_error (map snd lexemes) (S p)
              = Some (Parse.TOp (snd (fst leaf)))
              /\ q = S (S p))
             \/ (snd (fst leaf) = "=" /\ q = S p)).

(** The fold of case that touches the letters [A] to [Z] only. *)
Definition asciiLowerChar (c : ascii) : ascii :=
  let n := nat_of_ascii c in
  if (65 <=? n) && (n <=? 90) then ascii_of_nat (n + 32) else c.

Fixpoint asciiLower (s : string) : string :=
  match s with
  | EmptyString => EmptyString
  | String c r => String (asciiLowerChar c) (asciiLower r)
  end.

(** The label of [s] starts with [partial], the case of the letters [A] to
    [Z] ignored. *)
Definition asciiPrefixLaw (partial : string) (s : Autocomplete.Suggestion)
  : bool :=
  startsWith (asciiLower (Autocomplete.label s)) (asciiLower partial).

(** A schema whose only entity has relations and no fields map. *)
Definition bareSchema : Schema.Schema :=
  Schema.defineSchema [Schema.mkEntityDef "items" (Some ["tags"]) None].

End Spec.

(* ================================================================== *)
(** ** Further predicates and reference functions *)
(* ================================================================== *)

Module Props.

Import JS.

(** The fields of the comparisons of a tree, left to right. *)
Fixpoint fieldsOf (c : Parse.RQLCondition) : list string :=
  match c with
  | Parse.Comparison f _ _ => [f]
  | Parse.And cs => flat_map fieldsOf cs
  | Parse.Or cs => flat_map fieldsOf cs
  end.

(** The operators of the comparisons of a tree, left to right. *)
Fixpoint opsOf (c : Parse.RQLCondition) : list string :=
  match c with
  | Parse.Comparison _ o _ => [o]
  | Parse.And cs => flat_map opsOf cs
  | Parse.Or cs => flat_map opsOf cs
  end.

(** The keys of the include clause of a query. *)
Definition includeKeys (rql : Parse.RQLQuery) : list string :=
  match Parse.include rql with
  | Some ks => ks
  | None => []
  end.

(** The relations of an entity definition. *)
Definition relationsOf (d : Schema.EntityDef) : list string :=
  match Schema.relations d with
  | Some rs => rs
  | None => []
  end.

(** The key of a clause: the text before its first colon, trimmed and in
    lower case. *)
Definition clauseKey (clause : string) : option string :=
  match indexOf clause ":"%char with
  | Some colon => Some (toLowerCase (trim (slice clause 0 colon)))
  | None => None
  end.

(** The top-level keys that a query carries. *)
Definition setKeys (rql : Parse.RQLQuery) : list string :=
  (if Parse.isSome (Parse.entity rql) then ["entity"] else [])
  ++ (if Parse.isSome (Parse.limit rql) then ["limit"] else [])
  ++ (if Parse.isSome (Parse.order rql) then ["order"] else [])
  ++ (if Parse.isSome (Parse.include rql) then ["include"] else [])
  ++ (if Parse.isSome (Parse.where_ rql) then ["where"] else []).

(** The text of a quoted string that stands for [v]: a backslash before
    every double quote and every backslash. *)
Fixpoint escape (v : string) : string :=
  match v with
  | EmptyString => EmptyString
  | String c r =>
      if Ascii.eqb c dquote || Ascii.eqb c backslash
      then String backslash (String c (escape r))
      else String c (escape r)
  end.

Definition notSpace (c : ascii) : bool := negb (isSpace c).

(** The context with its partial in lower case. *)
Definition lowerPartial (context : Autocomplete.CursorContext)
  : Autocomplete.CursorContext :=
  match context with
  | Autocomplete.TopLevel p ks => Autocomplete.TopLevel (toLowerCase p) ks
  | Autocomplete.EntityValue p => Autocomplete.EntityValue (toLowerCase p)
  | Autocomplete.LimitValue p => Autocomplete.LimitValue (toLowerCase p)
  | Autocomplete.OrderValue p e a => Autocomplete.OrderValue (toLowerCase p) e a
  | Autocomplete.IncludeValue p e => Autocomplete.IncludeValue (toLowerCase p) e
  | Autocomplete.WhereField p e => Autocomplete.WhereField (toLowerCase p) e
  | Autocomplete.WhereValue p f o e =>
      Autocomplete.WhereValue (toLowerCase p) f o e
  | Autocomplete.Unknown p => Autocomplete.Unknown (toLowerCase p)
  end.

(** A suggestion without its length to replace. *)
Definition withoutLength (s : Autocomplete.Suggestion)
  : string * string * option bool :=
  (Autocomplete.label s, Autocomplete.insertText s,
   Autocomplete.replacePartial s).

Definition isWhereField (context : Autocomplete.CursorContext) : bool :=
  match context with
  | Autocomplete.WhereField _ _ => true
  | _ => false
  end.

(** The contexts whose suggestions come out of an insertion-ordered set or
    of the fixed list of keys. *)
Definition dedupes (context : Autocomplete.CursorContext) : bool :=
  match context with
  | Autocomplete.EntityValue _ => false
  | Autocomplete.OrderValue _ _ (Some true) => false
  | _ => true
  end.

(** An integer that a double holds exactly: up to [2^53]. *)
Definition exactInteger (n : N) : Prop := (n <= 9007199254740992)%N.

(** A name that the assignment to a key of a plain object makes an own key:
    every name but [__proto__]. *)
Definition ownKey (r : string) : bool := negb (String.eqb r "__proto__").

(** A part of a comma-separated list that is not blank. *)
Definition nonBlank (p : string) : bool := negb (isEmpty (trim p)).

(** [asc] or [desc], in any case. *)
Definition isDirection (s : string) : bool :=
  String.eqb (toLowerCase s) "asc" || String.eqb (toLowerCase s) "desc".

(** What the field of a term of an order clause satisfies: a non-empty word
    without whitespace that is no direction. *)
Definition fieldOk (t : Parse.RQLOrderTerm) : Prop :=
  Parse.term_field t <> EmptyString
  /\ allChars notSpace (Parse.term_field t) = true
  /\ isDirection (Parse.term_field t) = false.

(** The first of two optional values that is present. *)
Definition orElseOpt {A : Type} (a b : option A) : option A :=
  match a with
  | Some _ => a
  | None => b
  end.

(** The query that carries the clauses of [a] and, where [a] has none, those
    of [b]. *)
Definition merge (a b : Parse.RQLQuery) : Parse.RQLQuery :=
  Parse.mkQuery (orElseOpt (Parse.entity a) (Parse.entity b))
                (orElseOpt (Parse.limit a) (Parse.limit b))
                (orElseOpt (Parse.order a) (Parse.order b))
                (orElseOpt (Parse.include a) (Parse.include b))
                (orElseOpt (Parse.where_ a) (Parse.where_ b)).

(** No clause is carried by both queries. *)
Definition disjoint (a b : Parse.RQLQuery) : bool :=
  negb (Parse.isSome (Parse.entity a) && Parse.isSome (Parse.entity b))
  && negb (Parse.isSome (Parse.limit a) && Parse.isSome (Parse.limit b))
  && negb (Parse.isSome (Parse.order a) && Parse.isSome (Parse.order b))
  && negb (Parse.isSome (Parse.include a) && Parse.isSome (Parse.include b))
  && negb (Parse.isSome (Parse.where_ a) && Parse.isSome (Parse.where_ b)).

(** What the validator asks of a query: nothing when the schema lists no
    entity or the query names none; otherwise the entity is known (or the
    empty name), the keys of include are relations of its first definition
    and, when that definition has a fields map, the fields of the where
    tree are keys of the map. *)
Definition accepts (rql : Parse.RQLQuery) (schema : Schema.Schema) : Prop :=
  Schema.entities schema = []
  \/ match Parse.entity rql with
     | None => True
     | Some e =>
         match find (fun d => String.eqb (Schema.name d) e)
                    (Schema.entities schema) with
         | None => e = EmptyString
         | Some d =>
             incl (includeKeys rql) (relationsOf d)
             /\ match Parse.where_ rql, Schema.fields d with
                | Some cond, Some fs => incl (fieldsOf cond) (map fst fs)
                | _, _ => True
                end
         end
     end.

(** An operator token carries one of the six operators. *)
Definition opToken (t : Parse.WhereToken) : Prop :=
  match t with
  | Parse.TOp v => In v Parse.OPS
  | _ => True
  end.

(** Every comparison of the tree has one of the six operators. *)
Definition opsValid (c : Parse.RQLCondition) : Prop :=
  Forall (fun o => In o Parse.OPS) (opsOf c).

(** A character that is no parenthesis. *)
Definition notParen (c : ascii) : bool :=
  negb (Ascii.eqb c "("%char || Ascii.eqb c ")"%char).

(** What the loop hands back: a segment that runs from its start index to
    the cursor, or a clause start inside the text. *)
Definition segmentOk (beforeCursor : string) (cursor : nat)
    (r : Autocomplete.SegmentResult + nat) : Prop :=
  match r with
  | inl seg =>
      Autocomplete.startIndex seg <= cursor
      /\ Autocomplete.segment seg
         = slice beforeCursor (Autocomplete.startIndex seg) cursor
  | inr lastClauseStart => lastClauseStart <= String.length beforeCursor
  end.

(** A character other than the exclamation mark. *)
Definition noBang (c : ascii) : bool := negb (Ascii.eqb c "!"%char).

(** The name of a top-level key without its colon and parenthesis. *)
Definition keyName (k : string) : string :=
  removeFirst "("%char (removeFirst ":"%char k).

(** Neither the entity nor the order list of the query is empty. *)
Definition nonEmptyValues (rql : Parse.RQLQuery) : Prop :=
  Parse.entity rql <> Some EmptyString
  /\ Parse.order rql <> Some [].

End Props.

(* ================================================================== *)
(** ** Properties of the parser *)
(* ================================================================== *)

Import JS.

Section ParserExamples.

Import Parse.

(** The scenarios of the specification and of the test suite. *)

Example scenario_entity_only :
  parsePlainText "entity:users" None
  = Ok (mkQuery (Some "users") None None None None).
Proof. vm_compute; reflexivity. Qed.

Example scenario_implicit_and :
  parsePlainText "entity:users limit:10 where:(status=active age>=18)" None
  = Ok (mkQuery (Some "users") (Some 10%N) None None
          (Some (And [Comparison "status" "=" (VString "active");
                      Comparison "age" ">=" (VNumber (NInt 18))]))).
Proof. vm_compute; reflexivity. Qed.

Example scenario_nested :
  parsePlainText
    "entity:users where:((role=admin) OR (age>=18 AND verified=true))" None
  = Ok (mkQuery (Some "users") None None None
          (Some (Or [Comparison "role" "=" (VString "admin");
                     And [Comparison "age" ">=" (VNumber (NInt 18));
                          Comparison "verified" "=" (VBoolean true)]]))).
Proof. vm_compute; reflexivity. Qed.

Example scenario_order_terms :
  parsePlainText "entity:products order:price asc,name" None
  = Ok (mkQuery (Some "products") None
          (Some [mkOrderTerm "price" Asc; mkOrderTerm "name" Asc]) None None).
Proof. vm_compute; reflexivity. Qed.

Example scenario_negative_limit :
  parsePlainText "entity:users limit:-1" None
  = Throw "limit must be non-negative".
Proof. vm_compute; reflexivity. Qed.

Example scenario_all_clauses :
  parsePlainText
    "entity:products limit:5 order:price asc,name where:(stock>0)" None
  = Ok (mkQuery (Some "products") (Some 5%N)
          (Some [mkOrderTerm "price" Asc; mkOrderTerm "name" Asc]) None
          (Some (Comparison "stock" ">" (VNumber (NInt 0))))).
Proof. vm_compute; reflexivity. Qed.

Example scenario_include :
  parsePlainText "entity:users include:comments,articles" None
  = Ok (mkQuery (Some "users") None None (Some ["comments"; "articles"]) None).
Proof. vm_compute; reflexivity. Qed.

Example scenario_duplicate_key :
  parsePlainText "entity:users order:name order:created_at desc" None
  = Throw "Duplicate top-level key: order".
Proof. vm_compute; reflexivity. Qed.

Example scenario_empty_order :
  parsePlainText "entity:users order:" None
  = Throw "order value must be non-empty".
Proof. vm_compute; reflexivity. Qed.

Example scenario_dangling_or :
  parsePlainText "entity:users where:(a=1 OR)" None
  = Throw "Invalid where: OR with no right side".
Proof. vm_compute; reflexivity. Qed.

Example scenario_unknown_entity :
  parsePlainText "entity:nobody" (Some Schema.exampleSchema)
  = Throw ("Unknown entity " ^^ quoted "nobody"
           ^^ ". Known entities: user, users, product, products").
Proof. vm_compute; reflexivity. Qed.

Example scenario_unknown_fields :
  parsePlainText "entity:users where:(status=active zzz=1 OR yy=2 zzz=3)"
                 (Some Schema.exampleSchema)
  = Throw ("Unknown field(s) for entity " ^^ quoted "users"
           ^^ ": zzz, yy. Known fields: status, role, age, verified").
Proof. vm_compute; reflexivity. Qed.

(** C5 -- AND binds tighter than OR: the where expression
    [a=1 OR b=2 AND c=3] parses as
    [Or [a=1; And [b=2; c=3]]], both as the inner expression of [parseWhere]
    and as the where clause of a whole query; and the grouping is the same
    for any three comparisons joined by [or] and then [and]. *)
Theorem C5_and_binds_tighter_than_or :
  parseWhere "a=1 OR b=2 AND c=3"
  = Ok (Or [Comparison "a" "=" (VNumber (NInt 1));
            And [Comparison "b" "=" (VNumber (NInt 2));
                 Comparison "c" "=" (VNumber (NInt 3))]])
  /\ parsePlainText "where:(a=1 OR b=2 AND c=3)" None
     = Ok (mkQuery None None None None
             (Some (Or [Comparison "a" "=" (VNumber (NInt 1));
                        And [Comparison "b" "=" (VNumber (NInt 2));
                             Comparison "c" "=" (VNumber (NInt 3))]])))
  /\ forall f1 o1 v1 f2 o2 v2 f3 o3 v3,
       parseOr [TIdent f1 f1; TOp o1; TNumber v1; TKeyword "or";
                TIdent f2 f2; TOp o2; TNumber v2; TKeyword "and";
                TIdent f3 f3; TOp o3; TNumber v3] (grammarFuel 11) 0
       = Ok (Some (Or [Comparison f1 o1 (VNumber v1);
                       And [Comparison f2 o2 (VNumber v2);
                            Comparison f3 o3 (VNumber v3)]]), 11).
Proof.
  split; [vm_compute; reflexivity|].
  split; [vm_compute; reflexivity|].
  intros; reflexivity.
Qed.

(** C2 -- the specification makes an order term with tokens after the field
    and the direction a [ParseError]; the code reads [tokens[0]] and
    [tokens[1]] only, so [order:name asc extra] parses, the third token being
    dropped.  Elsewhere the parser rejects what it does not understand: a
    bare word and an unknown key are errors as clauses of their own, and are
    swallowed when they follow a complete order term. *)
Theorem C2_order_extra_tokens_are_accepted :
  parsePlainText "order:name asc extra" None
  = Ok (mkQuery None None (Some [mkOrderTerm "name" Asc]) None None)
  /\ parseOrderTerm "name asc extra" = Ok (mkOrderTerm "name" Asc)
  /\ splitWs "name asc extra" = ["name"; "asc"; "extra"]
  /\ parsePlainText "entity:users order:name asc sort:x" None
     = Ok (mkQuery (Some "users") None (Some [mkOrderTerm "name" Asc]) None None)
  /\ parsePlainText "entity:users sort:x" None
     = Throw ("Unknown top-level key: " ^^ quoted "sort"
              ^^ ". Valid keys: entity, limit, order, include, where")
  /\ parsePlainText "entity:users extra" None
     = Throw ("Invalid clause " ^^ quoted "extra"
              ^^ ": expected key:value format (e.g., entity:users). "
              ^^ "Valid keys: entity, limit, order, include, where")
  /\ parsePlainText "entity:users limit:10x" None
     = Throw "limit must be an integer without decimals".
Proof. repeat split; vm_compute; reflexivity. Qed.

(** C3 -- the specification lets the splitter end an order clause before
    an upper-case key such as [LIMIT:]; the regular expression of the splitter
    has no [i] flag, so [order:name LIMIT:5] stays one clause and is rejected
    for its direction, while the lower-case spelling parses, an upper-case
    key is accepted as a clause of its own, and the autocomplete scanner
    [findNextKeyStart] does stop at the upper-case key. *)
Theorem C3_order_splitter_is_case_sensitive :
  splitTopLevel "order:name LIMIT:5" = Ok ["order:name LIMIT:5"]
  /\ parsePlainText "order:name LIMIT:5" None
     = Throw ("Invalid order direction " ^^ quoted "LIMIT:5" ^^ ". Use asc or desc.")
  /\ splitTopLevel "order:name limit:5" = Ok ["order:name"; "limit:5"]
  /\ parsePlainText "order:name limit:5" None
     = Ok (mkQuery None (Some 5%N) (Some [mkOrderTerm "name" Asc]) None None)
  /\ parsePlainText "entity:users LIMIT:5" None
     = Ok (mkQuery (Some "users") (Some 5%N) None None None)
  /\ Autocomplete.findNextKeyStart "order:name LIMIT:5" 6 = 10.
Proof. repeat split; vm_compute; reflexivity. Qed.

End ParserExamples.

(* ================================================================== *)
(** ** Typed values of the where tokenizer *)
(* ================================================================== *)

Section Lexemes.

Import Parse Spec.

(** *** The unread suffix *)

Lemma substring_full : forall s, substring 0 (String.length s) s = s.
Proof. induction s as [|c s IH]; [reflexivity|]. simpl. rewrite IH. reflexivity. Qed.

Lemma sliceFrom_0 : forall s, sliceFrom s 0 = s.
Proof. intro s. unfold sliceFrom. rewrite Nat.sub_0_r. apply substring_full. Qed.

Lemma length_append :
  forall a b, String.length (a ^^ b) = String.length a + String.length b.
Proof. induction a as [|c a IH]; intro b; [reflexivity|]. simpl. rewrite IH. reflexivity. Qed.

Lemma substring_append :
  forall a b, substring 0 (String.length a) (a ^^ b) = a.
Proof. induction a as [|c a IH]; intro b; simpl; [destruct b; reflexivity|]. rewrite IH. reflexivity. Qed.

Lemma sliceFrom_empty : forall i, sliceFrom EmptyString i = EmptyString.
Proof. destruct i; reflexivity. Qed.

(** [s[i]] is the head of the unread suffix. *)
Lemma charAt_suffix :
  forall s i,
    charAt s i = match sliceFrom s i with
                 | String c _ => Some c
                 | EmptyString => None
                 end.
Proof.
  induction s as [|c s IH]; intro i.
  - rewrite sliceFrom_empty. destruct i; reflexivity.
  - destruct i as [|i].
    + rewrite sliceFrom_0. reflexivity.
    + change (charAt (String c s) (S i)) with (charAt s i).
      change (sliceFrom (String c s) (S i)) with (sliceFrom s i). apply IH.
Qed.

Lemma slice_suffix :
  forall s i n, slice s i (i + n) = substring 0 n (sliceFrom s i).
Proof.
  induction s as [|c s IH]; intros i n.
  - rewrite sliceFrom_empty. unfold slice. replace (i + n - i) with n by lia.
    destruct i, n; reflexivity.
  - destruct i as [|i].
    + rewrite sliceFrom_0. unfold slice. rewrite Nat.add_0_l, Nat.sub_0_r.
      reflexivity.
    + change (sliceFrom (String c s) (S i)) with (sliceFrom s i).
      rewrite <- IH. unfold slice. replace (S i + n - S i) with (i + n - i) by lia.
      reflexivity.
Qed.

Lemma atEnd_suffix :
  forall s i, (String.length s <=? i) = isEmpty (sliceFrom s i).
Proof.
  induction s as [|c s IH]; intro i.
  - rewrite sliceFrom_empty. reflexivity.
  - destruct i as [|i].
    + rewrite sliceFrom_0. reflexivity.
    + change (sliceFrom (String c s) (S i)) with (sliceFrom s i).
      rewrite <- IH. reflexivity.
Qed.

Lemma sliceFrom_advance :
  forall s i a b,
    sliceFrom s i = a ^^ b -> sliceFrom s (i + String.length a) = b.
Proof.
  induction s as [|c s IH]; intros i a b H.
  - rewrite sliceFrom_empty in *. destruct a; [|discriminate].
    simpl in H. subst b. reflexivity.
  - destruct i as [|i].
    + rewrite sliceFrom_0 in H. rewrite H. clear.
      induction a as [|d a IH]; [apply sliceFrom_0|]. simpl. exact IH.
    + change (sliceFrom (String c s) (S i)) with (sliceFrom s i) in H.
      change (sliceFrom (String c s) (S i + String.length a))
        with (sliceFrom s (i + String.length a)).
      apply IH; exact H.
Qed.

Lemma scanWhile_run :
  forall p a rest i,
    allChars p a = true -> stopsAt p rest ->
    scanWhile p (a ^^ rest) i = i + String.length a.
Proof.
  induction a as [|c a IH]; intros rest i A R.
  - simpl. destruct rest as [|d rest]; simpl; [lia|].
    simpl in R. rewrite R. lia.
  - simpl in A. apply andb_true_iff in A as [Pc A].
    simpl. rewrite Pc, IH by assumption. lia.
Qed.

Lemma wordChar_inv :
  forall c,
    isWordChar c = true ->
    isSpace c = false
    /\ Ascii.eqb c "("%char = false /\ Ascii.eqb c ")"%char = false
    /\ Ascii.eqb c dquote = false
    /\ Ascii.eqb c "="%char = false /\ Ascii.eqb c "<"%char = false
    /\ Ascii.eqb c ">"%char = false /\ Ascii.eqb c "!"%char = false.
Proof.
  intros c H. unfold isWordChar in H. apply negb_true_iff in H.
  do 7 (apply orb_false_iff in H; destruct H as [H ?]).
  repeat split; assumption.
Qed.

Lemma tokenizeLoop_unfold :
  forall fuel s i tokens,
    tokenizeLoop (S fuel) s i tokens
    = if String.length s <=? i then Ok tokens else
      let i := skipWs s i in
      if String.length s <=? i then Ok tokens
      else if charIs s i "("%char then
        tokenizeLoop fuel s (S i) (tokens ++ [TParen "("])
      else if charIs s i ")"%char then
        tokenizeLoop fuel s (S i) (tokens ++ [TParen ")"])
      else if charIs s i dquote then
        let '(j, val, foundClosing) :=
          scanString (sliceFrom s (S i)) (S i) EmptyString in
        if foundClosing then tokenizeLoop fuel s j (tokens ++ [TString val])
        else Throw "Unclosed quoted string in where clause"
      else
        match matchOp s i with
        | Some op =>
            tokenizeLoop fuel s (i + String.length op) (tokens ++ [TOp op])
        | None =>
            let j := scanWhile isWordChar (sliceFrom s i) i in
            let raw := slice s i j in
            if isEmpty raw then Throw "Unexpected character in where clause"
            else tokenizeLoop fuel s j (tokens ++ [classifyWord raw])
        end.
Proof. reflexivity. Qed.

Lemma charIs_suffix :
  forall s i c rest d,
    sliceFrom s i = String c rest -> charIs s i d = Ascii.eqb c d.
Proof.
  intros s i c rest d H. unfold charIs. rewrite charAt_suffix, H. reflexivity.
Qed.

Lemma skipWs_stay :
  forall s i c rest,
    sliceFrom s i = String c rest -> isSpace c = false -> skipWs s i = i.
Proof.
  intros s i c rest H N. unfold skipWs. rewrite H. simpl. rewrite N. reflexivity.
Qed.

(** No operator starts with a character that differs from [!], [<], [>]
    and [=]. *)
Lemma matchOp_none :
  forall s i c rest,
    sliceFrom s i = String c rest ->
    Ascii.eqb c "="%char = false -> Ascii.eqb c "<"%char = false ->
    Ascii.eqb c ">"%char = false -> Ascii.eqb c "!"%char = false ->
    matchOp s i = None.
Proof.
  intros s i c rest H E L G B. unfold matchOp, OPS.
  cbn [find String.length]. rewrite !slice_suffix, H.
  cbn [substring String.eqb]. rewrite E, L, G, B. reflexivity.
Qed.

(** An iteration that starts at a word reads the whole word. *)
Lemma tokenize_word :
  forall fuel s i tokens c w rest,
    sliceFrom s i = String c w ^^ rest ->
    allChars isWordChar (String c w) = true ->
    stopsAt isWordChar rest ->
    tokenizeLoop (S fuel) s i tokens
    = tokenizeLoop fuel s (i + String.length (String c w))
        (tokens ++ [classifyWord (String c w)]).
Proof.
  intros fuel s i tokens c w rest H A R.
  pose proof A as A'. cbn [allChars] in A'. apply andb_true_iff in A' as [Wc _].
  destruct (wordChar_inv c Wc) as [Sp [Po [Pc [Dq [E [L [G B]]]]]]].
  change (String c w ^^ rest) with (String c (w ^^ rest)) in H.
  rewrite tokenizeLoop_unfold.
  rewrite atEnd_suffix, H. cbn [isEmpty]. cbv zeta.
  rewrite (skipWs_stay s i c _ H Sp).
  rewrite atEnd_suffix, H. cbn [isEmpty].
  rewrite !(charIs_suffix s i c _ _ H), Po, Pc, Dq.
  rewrite (matchOp_none s i c _ H E L G B).
  change (String c (w ^^ rest)) with (String c w ^^ rest) in *.
  rewrite (scanWhile_run isWordChar _ rest i A R).
  rewrite slice_suffix, H, substring_append. reflexivity.
Qed.

(** An iteration that starts at [=] reads the operator [=]. *)
Lemma tokenize_eq :
  forall fuel s i tokens rest,
    sliceFrom s i = String "="%char rest ->
    tokenizeLoop (S fuel) s i tokens
    = tokenizeLoop fuel s (i + 1) (tokens ++ [TOp "="]).
Proof.
  intros fuel s i tokens rest H.
  rewrite tokenizeLoop_unfold.
  rewrite atEnd_suffix, H. cbn [isEmpty]. cbv zeta.
  rewrite (skipWs_stay s i _ _ H eq_refl).
  rewrite atEnd_suffix, H. cbn [isEmpty].
  rewrite !(charIs_suffix s i _ _ _ H).
  change (Ascii.eqb "="%char "("%char) with false.
  change (Ascii.eqb "="%char ")"%char) with false.
  change (Ascii.eqb "="%char dquote) with false. cbv iota.
  assert (M : matchOp s i = Some "=").
  { unfold matchOp, OPS. cbn [find String.length].
    rewrite !slice_suffix, H. cbn [substring].
    destruct rest; reflexivity. }
  rewrite M. reflexivity.
Qed.

Lemma append_nil_r : forall s, s ^^ EmptyString = s.
Proof. induction s; simpl; congruence. Qed.

Lemma append_snoc :
  forall a c b, (a ^^ str1 c) ^^ b = a ^^ String c b.
Proof. induction a; intros; simpl; congruence. Qed.

Lemma scanString_plain :
  forall body rest i val,
    allChars plainChar body = true ->
    scanString (body ^^ String dquote rest) i val
    = (i + String.length body + 1, val ^^ body, true).
Proof.
  induction body as [|c body IH]; intros rest i val A.
  - cbn [append scanString String.length].
    change (Ascii.eqb dquote backslash) with false.
    change (Ascii.eqb dquote dquote) with true. cbv iota.
    rewrite append_nil_r.
    apply f_equal2; [apply f_equal2; [lia|reflexivity]|reflexivity].
  - cbn [allChars] in A. apply andb_true_iff in A as [Pc A].
    unfold plainChar in Pc. apply andb_true_iff in Pc as [Nq Nb].
    apply negb_true_iff in Nq, Nb.
    cbn [append scanString String.length]. rewrite Nb, Nq, IH by exact A.
    rewrite append_snoc.
    apply f_equal2; [apply f_equal2; [lia|reflexivity]|reflexivity].
Qed.

(** An iteration that starts at a quote reads the quoted string. *)
Lemma tokenize_quoted :
  forall fuel s i tokens body rest,
    sliceFrom s i = String dquote (body ^^ String dquote rest) ->
    allChars plainChar body = true ->
    tokenizeLoop (S fuel) s i tokens
    = tokenizeLoop fuel s (i + String.length body + 2) (tokens ++ [TString body]).
Proof.
  intros fuel s i tokens body rest H A.
  rewrite tokenizeLoop_unfold.
  rewrite atEnd_suffix, H. cbn [isEmpty]. cbv zeta.
  rewrite (skipWs_stay s i _ _ H eq_refl).
  rewrite atEnd_suffix, H. cbn [isEmpty].
  rewrite !(charIs_suffix s i _ _ _ H).
  change (Ascii.eqb dquote "("%char) with false.
  change (Ascii.eqb dquote ")"%char) with false.
  rewrite Ascii.eqb_refl. cbv iota.
  assert (N : sliceFrom s (S i) = body ^^ String dquote rest).
  { replace (S i) with (i + String.length (str1 dquote)) by (simpl; lia).
    apply sliceFrom_advance. exact H. }
  rewrite N, scanString_plain by exact A. cbv iota beta.
  replace (S i + String.length body + 1) with (i + String.length body + 2) by lia.
  reflexivity.
Qed.

Lemma tokenize_end :
  forall fuel s i tokens,
    sliceFrom s i = EmptyString -> tokenizeLoop (S fuel) s i tokens = Ok tokens.
Proof.
  intros fuel s i tokens H. rewrite tokenizeLoop_unfold, atEnd_suffix, H.
  reflexivity.
Qed.


(** *** The classification of an unquoted word *)

Lemma allChars_append :
  forall p a b, allChars p (a ^^ b) = allChars p a && allChars p b.
Proof.
  induction a as [|c a IH]; intro b; [reflexivity|].
  simpl. rewrite IH, andb_assoc. reflexivity.
Qed.

Lemma allChars_impl :
  forall (p q : ascii -> bool) s,
    (forall c, p c = true -> q c = true) ->
    allChars p s = true -> allChars q s = true.
Proof.
  intros p q s I. induction s as [|c s IH]; [reflexivity|].
  simpl. intro H. apply andb_true_iff in H as [Pc H].
  rewrite (I c Pc), (IH H). reflexivity.
Qed.

Lemma allDigits_allChars : forall s, allDigits s = allChars isDigit s.
Proof. induction s as [|c s IH]; [reflexivity|]. simpl. rewrite IH. reflexivity. Qed.

Lemma indexOfFrom_split :
  forall c s i k,
    indexOfFrom c s i = Some k ->
    exists n, k = i + n
              /\ s = substring 0 n s ^^ String c (sliceFrom s (S n)).
Proof.
  induction s as [|d r IH]; intros i k H; [discriminate|].
  cbn [indexOfFrom] in H. destruct (Ascii.eqb d c) eqn:E.
  - injection H as <-. apply Ascii.eqb_eq in E. subst d.
    exists 0. split; [lia|].
    change (sliceFrom (String c r) 1) with (sliceFrom r 0).
    rewrite sliceFrom_0. reflexivity.
  - destruct (IH _ _ H) as [n [-> Hs]]. exists (S n). split; [lia|].
    change (sliceFrom (String d r) (S (S n))) with (sliceFrom r (S n)).
    cbn [substring append]. rewrite <- Hs. reflexivity.
Qed.

Lemma isDigits_allChars :
  forall s, isDigits s = true -> allChars numChar s = true.
Proof.
  intros s H. unfold isDigits in H. apply andb_true_iff in H as [_ H].
  rewrite allDigits_allChars in H. revert H. apply allChars_impl.
  intros c D. unfold numChar. rewrite D. reflexivity.
Qed.

Lemma isNumeric_chars :
  forall raw, isNumeric raw = true -> allChars numChar raw = true.
Proof.
  intros raw H. unfold isNumeric in H.
  assert (B : forall body,
             match splitDot body with
             | (ip, None) => isDigits ip
             | (ip, Some fp) => isDigits ip && isDigits fp
             end = true -> allChars numChar body = true).
  { intros body. unfold splitDot, indexOf.
    destruct (indexOfFrom "."%char body 0) as [k|] eqn:K.
    - destruct (indexOfFrom_split _ _ _ _ K) as [n [-> Hs]].
      cbn [Nat.add]. unfold slice. rewrite Nat.sub_0_r.
      intro D. apply andb_true_iff in D as [Di Df].
      rewrite Hs, allChars_append. cbn [allChars].
      rewrite (isDigits_allChars _ Di), (isDigits_allChars _ Df).
      reflexivity.
    - apply isDigits_allChars. }
  unfold stripMinus in H. destruct raw as [|c r]; [apply B; exact H|].
  destruct (Ascii.eqb c "-"%char) eqn:M.
  - cbn [allChars]. rewrite (B _ H), andb_true_r.
    unfold numChar. rewrite M. apply orb_true_r.
  - apply B; exact H.
Qed.

Lemma isNumeric_head :
  forall c r, isNumeric (String c r) = true -> numChar c = true.
Proof.
  intros c r H. apply isNumeric_chars in H. cbn [allChars] in H.
  apply andb_true_iff in H as [H _]. exact H.
Qed.

Lemma numChar_wordChar : forall c, numChar c = true -> isWordChar c = true.
Proof.
  intros [[] [] [] [] [] [] [] []]; vm_compute; congruence.
Qed.

Lemma lowerChar_wordChar : forall c, isWordChar (lowerChar c) = isWordChar c.
Proof.
  intros [[] [] [] [] [] [] [] []]; vm_compute; reflexivity.
Qed.

Lemma toLowerCase_wordChars :
  forall s, allChars isWordChar (toLowerCase s) = allChars isWordChar s.
Proof.
  induction s as [|c s IH]; [reflexivity|].
  simpl. rewrite lowerChar_wordChar, IH. reflexivity.
Qed.

(** A numeric character is no letter, in either case. *)
Lemma numChar_lower :
  forall c,
    numChar c = true ->
    Ascii.eqb (lowerChar c) "a"%char = false
    /\ Ascii.eqb (lowerChar c) "o"%char = false
    /\ Ascii.eqb (lowerChar c) "t"%char = false
    /\ Ascii.eqb (lowerChar c) "f"%char = false.
Proof.
  intros [[] [] [] [] [] [] [] []]; vm_compute; intro H;
    try discriminate H; repeat split; reflexivity.
Qed.

(** A word that matches the numeric pattern becomes a number token. *)
Lemma classifyWord_numeric :
  forall raw, isNumeric raw = true -> classifyWord raw = TNumber (numberOf raw).
Proof.
  intros raw H. unfold classifyWord. rewrite H.
  destruct raw as [|c r]; [discriminate H|].
  destruct (numChar_lower c (isNumeric_head c r H)) as [Na [No [Nt Nf]]].
  cbn [toLowerCase String.eqb]. rewrite Na, No, Nt, Nf. reflexivity.
Qed.

Lemma classifyWord_boolean :
  forall raw (b : bool),
    toLowerCase raw = (if b then "true" else "false") ->
    classifyWord raw = TBoolean b.
Proof.
  intros raw b H. unfold classifyWord. rewrite H. destruct b; reflexivity.
Qed.

(** *** Comparisons on [id] *)

Lemma tokenize_id_eq :
  forall fuel value,
    tokenizeLoop (S (S fuel)) ("id=" ^^ value) 0 []
    = tokenizeLoop fuel ("id=" ^^ value) 3 [TIdent "id" "id"; TOp "="].
Proof.
  intros fuel value.
  assert (H0 : sliceFrom ("id=" ^^ value) 0 = "id" ^^ String "="%char value)
    by (rewrite sliceFrom_0; reflexivity).
  rewrite (tokenize_word (S fuel) ("id=" ^^ value) 0 [] "i"%char "d"
             (String "="%char value) H0 eq_refl eq_refl).
  apply sliceFrom_advance in H0.
  rewrite (tokenize_eq _ _ _ _ _ H0). reflexivity.
Qed.

Lemma tokenize_id_quoted :
  forall body,
    allChars plainChar body = true ->
    tokenizeWhere ("id=" ^^ quoted body)
    = Ok [TIdent "id" "id"; TOp "="; TString body].
Proof.
  intros body A. unfold tokenizeWhere.
  assert (L : String.length ("id=" ^^ quoted body) = 4 + (String.length body + 1))
    by (unfold quoted; cbn [append String.length str1];
        rewrite length_append; simpl; lia).
  rewrite L. cbn [Nat.add]. rewrite tokenize_id_eq.
  assert (H : sliceFrom ("id=" ^^ quoted body) 3
              = String dquote (body ^^ String dquote EmptyString))
    by (unfold quoted; cbn [append str1];
        change 3 with (0 + String.length "id=");
        apply sliceFrom_advance; rewrite sliceFrom_0; reflexivity).
  rewrite (tokenize_quoted _ _ _ _ _ _ H A).
  apply tokenize_end.
  assert (H' : sliceFrom ("id=" ^^ quoted body) 3 = quoted body ^^ EmptyString)
    by (rewrite append_nil_r; exact H).
  clear H. rename H' into H.
  apply sliceFrom_advance in H.
  replace (3 + String.length body + 2) with (3 + String.length (quoted body));
    [exact H|].
  unfold quoted. cbn [append String.length str1]. rewrite length_append. simpl. lia.
Qed.

Lemma tokenize_id_word :
  forall raw,
    raw <> EmptyString ->
    allChars isWordChar raw = true ->
    tokenizeWhere ("id=" ^^ raw)
    = Ok [TIdent "id" "id"; TOp "="; classifyWord raw].
Proof.
  intros raw N A. unfold tokenizeWhere.
  destruct raw as [|c w]; [congruence|].
  assert (L : String.length ("id=" ^^ String c w) = 4 + String.length w)
    by reflexivity.
  rewrite L. cbn [Nat.add]. rewrite tokenize_id_eq.
  assert (H : sliceFrom ("id=" ^^ String c w) 3 = String c w ^^ EmptyString)
    by (rewrite append_nil_r; change 3 with (0 + String.length "id=");
        apply sliceFrom_advance; rewrite sliceFrom_0; reflexivity).
  rewrite (tokenize_word _ _ 3 _ c w EmptyString H A I).
  apply tokenize_end. apply sliceFrom_advance in H. exact H.
Qed.

(** The parse of [id=] followed by one value token. *)
Lemma parse_id_value :
  forall value,
    parseOr [TIdent "id" "id"; TOp "="; value] (grammarFuel 3) 0
    = match value with
      | TIdent _ raw => Ok (Some (Comparison "id" "=" (VString raw)), 3)
      | TString v => Ok (Some (Comparison "id" "=" (VString v)), 3)
      | TNumber n => Ok (Some (Comparison "id" "=" (VNumber n)), 3)
      | TBoolean b => Ok (Some (Comparison "id" "=" (VBoolean b)), 3)
      | _ => Throw "Invalid value in where comparison"
      end.
Proof. intros []; reflexivity. Qed.

Lemma quoted_value_is_string :
  forall body,
    allChars plainChar body = true ->
    parseWhere ("id=" ^^ quoted body) = Ok (Comparison "id" "=" (VString body)).
Proof.
  intros body A. unfold parseWhere. rewrite (tokenize_id_quoted body A).
  cbn [List.length]. rewrite parse_id_value. reflexivity.
Qed.

Lemma numeric_word_is_number :
  forall raw,
    isNumeric raw = true ->
    parseWhere ("id=" ^^ raw) = Ok (Comparison "id" "=" (VNumber (numberOf raw))).
Proof.
  intros raw H. unfold parseWhere.
  rewrite tokenize_id_word.
  - rewrite (classifyWord_numeric raw H). cbn [List.length].
    rewrite parse_id_value. reflexivity.
  - intros ->. discriminate H.
  - apply isNumeric_chars in H. revert H. apply allChars_impl.
    exact numChar_wordChar.
Qed.

Lemma boolean_word_is_boolean :
  forall raw (b : bool),
    toLowerCase raw = (if b then "true" else "false") ->
    parseWhere ("id=" ^^ raw) = Ok (Comparison "id" "=" (VBoolean b)).
Proof.
  intros raw b H. unfold parseWhere.
  rewrite tokenize_id_word.
  - rewrite (classifyWord_boolean raw b H). cbn [List.length].
    rewrite parse_id_value. reflexivity.
  - intros ->. destruct b; discriminate H.
  - rewrite <- toLowerCase_wordChars, H. destruct b; reflexivity.
Qed.

End Lexemes.

(* ================================================================== *)
(** ** Schema validation *)
(* ================================================================== *)

Section Validator.

Import Parse Spec.

(** The validator reads the entity, the include keys and the where tree of
    the query, and nothing else. *)
Lemma validate_ignores_order :
  forall rql o schema,
    validateAgainstSchema (setOrder rql o) schema
    = validateAgainstSchema rql schema.
Proof. intros [e l o' i w] o schema. reflexivity. Qed.

Lemma validate_ignores_limit :
  forall e l l' o i w schema,
    validateAgainstSchema (mkQuery e l o i w) schema
    = validateAgainstSchema (mkQuery e l' o i w) schema.
Proof. reflexivity. Qed.

(** A parse with a schema is the parse without one followed by the
    validation of its result. *)
Lemma parse_with_schema :
  forall input schema rql,
    parsePlainText input None = Ok rql ->
    validateAgainstSchema rql schema = Ok tt ->
    parsePlainText input (Some schema) = Ok rql.
Proof.
  intros input schema rql. unfold parsePlainText.
  destruct (isEmpty (trim input)).
  - intros H V. exact H.
  - destruct (splitTopLevel (trim input)) as [clauses| |]; try discriminate.
    destruct (parseClauses clauses emptyQuery) as [out| |]; try discriminate.
    intros H V. injection H as ->. rewrite V. reflexivity.
Qed.

(** An empty input gives the empty query whatever the schema. *)
Lemma validate_empty_query :
  forall schema, validateAgainstSchema emptyQuery schema = Ok tt.
Proof.
  intros [ents]. unfold validateAgainstSchema. simpl.
  destruct ents; reflexivity.
Qed.

Lemma validate_no_entities :
  forall rql schema,
    Schema.entities schema = [] -> validateAgainstSchema rql schema = Ok tt.
Proof.
  intros rql schema H. unfold validateAgainstSchema. rewrite H. reflexivity.
Qed.

Lemma validate_no_entity :
  forall rql schema,
    entity rql = None -> validateAgainstSchema rql schema = Ok tt.
Proof.
  intros rql schema H. unfold validateAgainstSchema. rewrite H.
  destruct (Schema.entities schema); reflexivity.
Qed.

(** When the entity of the query resolves to a definition without a fields
    map, the where clause plays no part in the validation. *)
Lemma validate_no_fields_ignores_where :
  forall rql schema e d w,
    entity rql = Some e ->
    find (fun d => String.eqb (Schema.name d) e) (Schema.entities schema) = Some d ->
    Schema.fields d = None ->
    validateAgainstSchema (setWhere rql w) schema
    = validateAgainstSchema rql schema.
Proof.
  intros [e0 l o i w0] schema e d w He Hf Hn. cbn [entity] in He. subst e0.
  unfold validateAgainstSchema, setWhere. cbn [entity include where_].
  destruct (Schema.entities schema) as [|d0 ds] eqn:E; [reflexivity|].
  destruct (if negb (isEmpty e) && negb (has (uniq (map Schema.name (d0 :: ds))) e)
            then _ else _); try reflexivity.
  rewrite Hf, Hn.
  destruct i as [[|k ks]|].
  - destruct w, w0; reflexivity.
  - destruct (checkRelations e _ (k :: ks)); try reflexivity.
    destruct w, w0; reflexivity.
  - destruct w, w0; reflexivity.
Qed.

(** C7 -- schema validation never rejects a query because of its order
    clause: when a query parses without a schema and its entity, include
    relations and where fields validate (the query deprived of its order
    clause validates), the parse with the schema succeeds with the same
    result, whatever the field names of the order terms. *)
Theorem C7_order_fields_not_validated :
  forall input schema rql,
    parsePlainText input None = Ok rql ->
    validateAgainstSchema (setOrder rql None) schema = Ok tt ->
    parsePlainText input (Some schema) = Ok rql.
Proof.
  intros input schema rql Hp Hv.
  apply parse_with_schema; [exact Hp|].
  rewrite <- (validate_ignores_order rql None). exact Hv.
Qed.

(** The order field [nonexistent] is not a field of [users]. *)
Lemma C7_witness :
  parsePlainText
    "entity:users include:posts where:(status=active) order:nonexistent desc"
    (Some Schema.exampleSchema)
  = Ok (mkQuery (Some "users") None (Some [mkOrderTerm "nonexistent" Desc])
          (Some ["posts"]) (Some (Comparison "status" "=" (VString "active")))).
Proof.
  apply C7_order_fields_not_validated; vm_compute; reflexivity.
Defined.

(** C10, as stated -- when the matched entity defines no fields map, the
    relation check of the include clause is still made: the entity [items]
    of [bareSchema] has relations and no fields map, the query below parses
    without a schema, and with the schema it is rejected for its include
    relation. *)
Lemma C10_counterexample :
  find (fun d => String.eqb (Schema.name d) "items") (Schema.entities bareSchema)
  = Some (Schema.mkEntityDef "items" (Some ["tags"]) None)
  /\ parsePlainText "entity:items include:nothing where:(nofield=1)" None
     = Ok (mkQuery (Some "items") None None (Some ["nothing"])
             (Some (Comparison "nofield" "=" (VNumber (NInt 1)))))
  /\ parsePlainText "entity:items include:nothing where:(nofield=1)"
                    (Some bareSchema)
     = Throw ("Unknown relation " ^^ quoted "nothing" ^^ " for entity "
              ^^ quoted "items" ^^ ". Known relations: tags").
Proof. repeat split; vm_compute; reflexivity. Qed.

(** C10, amended -- validation is vacuous unless an entity resolves, but
    for the relation check of an entity without fields map.  For a query
    that parses without a schema: (1) with a schema whose entity list is
    empty, and (2) when the query has no entity, no relation or field check
    is made and the parse with the schema succeeds, whatever the include
    relations and the where fields; (3) when the entity resolves to a
    definition without a fields map, no field check is made, while the
    relation check still is: the parse with the schema succeeds for any
    where fields as soon as the query deprived of its where clause
    validates. *)
Theorem C10_validation_vacuous_without_entity :
  forall input schema rql,
    parsePlainText input None = Ok rql ->
    (Schema.entities schema = [] ->
       parsePlainText input (Some schema) = Ok rql)
    /\ (entity rql = None ->
          parsePlainText input (Some schema) = Ok rql)
    /\ (forall e d,
          entity rql = Some e ->
          find (fun d => String.eqb (Schema.name d) e) (Schema.entities schema)
          = Some d ->
          Schema.fields d = None ->
          validateAgainstSchema (setWhere rql None) schema = Ok tt ->
          parsePlainText input (Some schema) = Ok rql).
Proof.
  intros input schema rql Hp. repeat split.
  - intro H. apply parse_with_schema; [exact Hp|].
    apply validate_no_entities; exact H.
  - intro H. apply parse_with_schema; [exact Hp|].
    apply validate_no_entity; exact H.
  - intros e d He Hf Hn Hv. apply parse_with_schema; [exact Hp|].
    rewrite <- (validate_no_fields_ignores_where rql schema e d None He Hf Hn).
    exact Hv.
Qed.

Lemma C10_witness :
  parsePlainText "entity:ghost include:nothing where:(nofield=1)"
                 (Some (Schema.defineSchema []))
  = Ok (mkQuery (Some "ghost") None None (Some ["nothing"])
          (Some (Comparison "nofield" "=" (VNumber (NInt 1)))))
  /\ parsePlainText "include:nothing where:(nofield=1)" (Some Schema.exampleSchema)
     = Ok (mkQuery None None None (Some ["nothing"])
             (Some (Comparison "nofield" "=" (VNumber (NInt 1)))))
  /\ parsePlainText "entity:items include:tags where:(nofield=1)" (Some bareSchema)
     = Ok (mkQuery (Some "items") None None (Some ["tags"])
             (Some (Comparison "nofield" "=" (VNumber (NInt 1))))).
Proof.
  split; [|split].
  - refine (proj1 (C10_validation_vacuous_without_entity
             "entity:ghost include:nothing where:(nofield=1)"
             (Schema.defineSchema [])
             (mkQuery (Some "ghost") None None (Some ["nothing"])
                (Some (Comparison "nofield" "=" (VNumber (NInt 1))))) _) _).
    + vm_compute; reflexivity.
    + reflexivity.
  - refine (proj1 (proj2 (C10_validation_vacuous_without_entity
             "include:nothing where:(nofield=1)" Schema.exampleSchema
             (mkQuery None None None (Some ["nothing"])
                (Some (Comparison "nofield" "=" (VNumber (NInt 1))))) _)) _).
    + vm_compute; reflexivity.
    + reflexivity.
  - refine (proj2 (proj2 (C10_validation_vacuous_without_entity
             "entity:items include:tags where:(nofield=1)" bareSchema
             (mkQuery (Some "items") None None (Some ["tags"])
                (Some (Comparison "nofield" "=" (VNumber (NInt 1))))) _))
             "items" (Schema.mkEntityDef "items" (Some ["tags"]) None) _ _ _ _);
      vm_compute; reflexivity.
Defined.

End Validator.

(* ================================================================== *)
(** ** The flattening invariant of the where tree *)
(* ================================================================== *)

Section Flattening.

Import Parse Spec.

Lemma andChildren_flat :
  forall t,
    flattened t = true ->
    forallb (fun d => negb (isAnd d) && flattened d) (andChildren t) = true
    /\ 1 <= List.length (andChildren t).
Proof.
  intros [f o v|cs|cs] H.
  - split; [reflexivity|simpl; lia].
  - cbn [andChildren]. cbn [flattened] in H.
    apply andb_true_iff in H as [L F]. apply Nat.leb_le in L.
    split; [exact F|lia].
  - cbn [andChildren forallb isAnd negb andb]. rewrite H.
    split; [reflexivity|simpl; lia].
Qed.

Lemma orChildren_flat :
  forall t,
    flattened t = true ->
    forallb (fun d => negb (isOr d) && flattened d) (orChildren t) = true
    /\ 1 <= List.length (orChildren t).
Proof.
  intros [f o v|cs|cs] H.
  - split; [reflexivity|simpl; lia].
  - cbn [orChildren forallb isOr negb andb]. rewrite H.
    split; [reflexivity|simpl; lia].
  - cbn [orChildren]. cbn [flattened] in H.
    apply andb_true_iff in H as [L F]. apply Nat.leb_le in L.
    split; [exact F|lia].
Qed.

Lemma flat_map_andChildren :
  forall terms,
    forallb flattened terms = true ->
    forallb (fun d => negb (isAnd d) && flattened d) (flat_map andChildren terms)
    = true
    /\ List.length terms <= List.length (flat_map andChildren terms).
Proof.
  induction terms as [|t terms IH]; intro H.
  - split; [reflexivity|simpl; lia].
  - cbn [forallb] in H. apply andb_true_iff in H as [Ht Hr].
    destruct (IH Hr) as [F L]. destruct (andChildren_flat t Ht) as [Ft Lt].
    cbn [flat_map]. rewrite forallb_app, Ft, F, length_app.
    split; [reflexivity|simpl; lia].
Qed.

(** The node that [parseAnd] builds from two terms or more. *)
Lemma And_flattened :
  forall terms,
    forallb flattened terms = true ->
    2 <= List.length terms ->
    flattened (And (flat_map andChildren terms)) = true.
Proof.
  intros terms H L. destruct (flat_map_andChildren terms H) as [F L'].
  cbn [flattened]. rewrite F, andb_true_r. apply Nat.leb_le. lia.
Qed.

(** The node that [parseOr] builds from its two sides. *)
Lemma Or_flattened :
  forall l r,
    flattened l = true -> flattened r = true ->
    flattened (Or (orChildren l ++ orChildren r)) = true.
Proof.
  intros l r Hl Hr.
  destruct (orChildren_flat l Hl) as [Fl Ll].
  destruct (orChildren_flat r Hr) as [Fr Lr].
  cbn [flattened]. rewrite forallb_app, Fl, Fr, length_app.
  apply andb_true_iff. split; [apply Nat.leb_le; lia|reflexivity].
Qed.

Lemma parseComparison_good :
  forall tokens pos r pos',
    parseComparison tokens pos = Ok (r, pos') -> good r.
Proof.
  intros tokens pos r pos'. unfold parseComparison.
  destruct (nth_error tokens pos) as [t|]; [|intro H; injection H as <- _; exact I].
  destruct t; try (intro H; injection H as <- _; exact I);
    match goal with
    | |- context [let '(_, _) := ?x in _] => destruct x as [op p]
    end;
    (destruct (nth_error tokens p) as [[]|]; try discriminate;
     intro H; injection H as <- _; reflexivity).
Qed.

Variable tokens : list WhereToken.

Lemma parseOr_S :
  forall fuel pos,
    parseOr tokens (S fuel) pos
    = match parseAnd tokens fuel pos with
      | Ok (left_, pos) =>
          match nth_error tokens pos with
          | None => Ok (left_, pos)
          | Some t =>
              if isKeyword t "or" "OR" then
                match left_ with
                | None => Throw "Invalid where: OR with no left side"
                | Some l =>
                    match parseOr tokens fuel (S pos) with
                    | Ok (None, _) =>
                        Throw "Invalid where: OR with no right side"
                    | Ok (Some r, pos) =>
                        Ok (Some (Or (orChildren l ++ orChildren r)), pos)
                    | Throw m => Throw m
                    | OutOfFuel => OutOfFuel
                    end
                end
              else Ok (left_, pos)
          end
      | Throw m => Throw m
      | OutOfFuel => OutOfFuel
      end.
Proof. reflexivity. Qed.

Lemma parseAnd_S :
  forall fuel pos,
    parseAnd tokens (S fuel) pos
    = match parsePrimary tokens fuel pos with
      | Ok (None, pos) => Ok (None, pos)
      | Ok (Some term, pos) =>
          match parseAndLoop tokens fuel [term] pos with
          | Ok (terms, pos) =>
              match terms with
              | [t] => Ok (Some t, pos)
              | _ => Ok (Some (And (flat_map andChildren terms)), pos)
              end
          | Throw m => Throw m
          | OutOfFuel => OutOfFuel
          end
      | Throw m => Throw m
      | OutOfFuel => OutOfFuel
      end.
Proof. reflexivity. Qed.

Lemma parseAndLoop_S :
  forall fuel terms pos,
    parseAndLoop tokens (S fuel) terms pos
    = match nth_error tokens pos with
      | None => Ok (terms, pos)
      | Some t =>
          if isKeyword t "or" "OR" then Ok (terms, pos)
          else if isKeyword t "and" "AND" then
            match parsePrimary tokens fuel (S pos) with
            | Ok (None, _) => Throw "Invalid where: AND with no right side"
            | Ok (Some term, pos) =>
                parseAndLoop tokens fuel (terms ++ [term]) pos
            | Throw m => Throw m
            | OutOfFuel => OutOfFuel
            end
          else
            match parsePrimary tokens fuel pos with
            | Ok (None, pos) => Ok (terms, pos)
            | Ok (Some term, pos) =>
                parseAndLoop tokens fuel (terms ++ [term]) pos
            | Throw m => Throw m
            | OutOfFuel => OutOfFuel
            end
      end.
Proof. reflexivity. Qed.

Lemma parsePrimary_S :
  forall fuel pos,
    parsePrimary tokens (S fuel) pos
    = match nth_error tokens pos with
      | None => Ok (None, pos)
      | Some t =>
          if isParen t "(" then
            match parseOr tokens fuel (S pos) with
            | Ok (innerCond, pos) =>
                match nth_error tokens pos with
                | Some t' =>
                    if isParen t' ")" then
                      match innerCond with
                      | None => Throw "Empty parenthetical expression"
                      | Some c => Ok (Some c, S pos)
                      end
                    else Throw "Missing closing parenthesis"
                | None => Throw "Missing closing parenthesis"
                end
            | Throw m => Throw m
            | OutOfFuel => OutOfFuel
            end
          else parseComparison tokens pos
      end.
Proof. reflexivity. Qed.

(** The four functions of the grammar keep the invariant, by induction on
    the fuel, which bounds the depth of the calls. *)
Lemma grammar_flattened :
  forall fuel,
    (forall pos r pos', parseOr tokens fuel pos = Ok (r, pos') -> good r)
    /\ (forall pos r pos', parseAnd tokens fuel pos = Ok (r, pos') -> good r)
    /\ (forall terms pos terms' pos',
          parseAndLoop tokens fuel terms pos = Ok (terms', pos') ->
          forallb flattened terms = true ->
          forallb flattened terms' = true
          /\ List.length terms <= List.length terms')
    /\ (forall pos r pos', parsePrimary tokens fuel pos = Ok (r, pos') -> good r).
Proof.
  induction fuel as [|fuel [IHor [IHand [IHloop IHprim]]]].
  - repeat split; intros; discriminate.
  - split; [|split; [|split]].
    + (* parseOr *)
      intros pos r pos'. rewrite parseOr_S.
      destruct (parseAnd tokens fuel pos) as [[l p]| |] eqn:EA; try discriminate.
      pose proof (IHand _ _ _ EA) as Gl.
      destruct (nth_error tokens p) as [t|];
        [|intro H; injection H as <- _; exact Gl].
      destruct (isKeyword t "or" "OR");
        [|intro H; injection H as <- _; exact Gl].
      destruct l as [l|]; [|discriminate].
      destruct (parseOr tokens fuel (S p)) as [[[r0|] p0]| |] eqn:EO;
        try discriminate.
      pose proof (IHor _ _ _ EO) as Gr.
      intro H; injection H as <- _. apply Or_flattened; assumption.
    + (* parseAnd *)
      intros pos r pos'. rewrite parseAnd_S.
      destruct (parsePrimary tokens fuel pos) as [[[term|] p]| |] eqn:EP;
        try discriminate; [|intro H; injection H as <- _; exact I].
      pose proof (IHprim _ _ _ EP) as Gt. cbn [good] in Gt.
      destruct (parseAndLoop tokens fuel [term] p) as [[terms p0]| |] eqn:EL;
        try discriminate.
      destruct (IHloop _ _ _ _ EL) as [F L];
        [cbn [forallb]; rewrite Gt; reflexivity|].
      cbn [List.length] in L.
      destruct terms as [|t [|t' terms]].
      * simpl in L; lia.
      * intro H; injection H as <- _. cbn [forallb] in F.
        apply andb_true_iff in F as [F _]. exact F.
      * intro H; injection H as <- _.
        apply (And_flattened (t :: t' :: terms)); [exact F|simpl; lia].
    + (* parseAndLoop *)
      intros terms pos terms' pos'. rewrite parseAndLoop_S.
      destruct (nth_error tokens pos) as [t|];
        [|intros H F; injection H as <- _; split; [exact F|lia]].
      destruct (isKeyword t "or" "OR");
        [intros H F; injection H as <- _; split; [exact F|lia]|].
      destruct (isKeyword t "and" "AND").
      * destruct (parsePrimary tokens fuel (S pos)) as [[[term|] p]| |] eqn:EP;
          try discriminate.
        pose proof (IHprim _ _ _ EP) as Gt. cbn [good] in Gt.
        intros H F. destruct (IHloop _ _ _ _ H) as [F' L'].
        { rewrite forallb_app, F. cbn [forallb]. rewrite Gt. reflexivity. }
        split; [exact F'|]. rewrite length_app in L'. simpl in L'. lia.
      * destruct (parsePrimary tokens fuel pos) as [[[term|] p]| |] eqn:EP;
          try discriminate.
        -- pose proof (IHprim _ _ _ EP) as Gt. cbn [good] in Gt.
           intros H F. destruct (IHloop _ _ _ _ H) as [F' L'].
           { rewrite forallb_app, F. cbn [forallb]. rewrite Gt. reflexivity. }
           split; [exact F'|]. rewrite length_app in L'. simpl in L'. lia.
        -- intros H F; injection H as <- _; split; [exact F|lia].
    + (* parsePrimary *)
      intros pos r pos'. rewrite parsePrimary_S.
      destruct (nth_error tokens pos) as [t|];
        [|intro H; injection H as <- _; exact I].
      destruct (isParen t "(").
      * destruct (parseOr tokens fuel (S pos)) as [[inner p]| |] eqn:EO;
          try discriminate.
        pose proof (IHor _ _ _ EO) as Gi.
        destruct (nth_error tokens p) as [t'|]; [|discriminate].
        destruct (isParen t' ")"); [|discriminate].
        destruct inner as [c|]; [|discriminate].
        intro H; injection H as <- _. exact Gi.
      * apply parseComparison_good.
Qed.

End Flattening.

Section FlatteningOfParse.

Import Parse Spec.

Lemma parseWhere_flattened :
  forall inner c, parseWhere inner = Ok c -> flattened c = true.
Proof.
  intros inner c. unfold parseWhere.
  destruct (tokenizeWhere inner) as [tokens| |]; try discriminate.
  destruct tokens as [|t tokens]; [discriminate|].
  destruct (parseOr (t :: tokens) (grammarFuel (List.length (t :: tokens))) 0)
    as [[r p]| |] eqn:E; try discriminate.
  destruct (p <? List.length (t :: tokens)); [discriminate|].
  destruct r as [c'|]; [|discriminate].
  intro H; injection H as <-.
  exact (proj1 (grammar_flattened (t :: tokens) _) _ _ _ E).
Qed.

(** A clause leaves the where tree alone or sets it to a result of
    [parseWhere]. *)
Lemma parseClause_flattened :
  forall out clause out',
    parseClause out clause = Ok out' ->
    good (where_ out) -> good (where_ out').
Proof.
  intros out clause out'. unfold parseClause.
  destruct (indexOf clause ":"%char) as [colon|]; [|discriminate].
  repeat match goal with
  | |- context [if ?b then _ else _] => destruct b; try discriminate
  | |- context [match parseLimit ?v with _ => _ end] =>
      destruct (parseLimit v); try discriminate
  | |- context [match parseOrderTerms ?v ?a with _ => _ end] =>
      destruct (parseOrderTerms v a); try discriminate
  | |- context [match parseInclude ?v ?a with _ => _ end] =>
      destruct (parseInclude v a); try discriminate
  | |- context [match unwrapWhere ?v with _ => _ end] =>
      destruct (unwrapWhere v); try discriminate
  | |- context [match parseWhere ?v with _ => _ end] =>
      destruct (parseWhere v) eqn:EW; try discriminate
  end;
  intros H G; injection H as <-; cbn [where_ good]; try exact G.
  eapply parseWhere_flattened; exact EW.
Qed.

Lemma parseClauses_flattened :
  forall clauses out out',
    parseClauses clauses out = Ok out' ->
    good (where_ out) -> good (where_ out').
Proof.
  induction clauses as [|clause rest IH]; intros out out'; cbn [parseClauses].
  - intros H G; injection H as <-; exact G.
  - destruct (parseClause out clause) as [o| |] eqn:E; try discriminate.
    intros H G. eapply IH; [exact H|].
    eapply parseClause_flattened; eassumption.
Qed.

(** C6 -- whenever [parsePlainText] succeeds, with or without a schema, the
    where tree of the result, if there is one, is flattened: at every node,
    no [And] has an [And] child, no [Or] has an [Or] child, and a logical
    node has at least two children. *)
Theorem C6_where_tree_is_flattened :
  forall input schema rql c,
    parsePlainText input schema = Ok rql ->
    where_ rql = Some c ->
    flattened c = true.
Proof.
  intros input schema rql c. unfold parsePlainText.
  destruct (isEmpty (trim input)).
  - intros H W. injection H as <-. discriminate.
  - destruct (splitTopLevel (trim input)) as [clauses| |]; try discriminate.
    destruct (parseClauses clauses emptyQuery) as [out| |] eqn:E;
      try discriminate.
    pose proof (parseClauses_flattened _ _ _ E I) as G.
    assert (Fin : Ok out = Ok rql -> where_ rql = Some c -> flattened c = true).
    { intros H W. injection H as <-. rewrite W in G. exact G. }
    destruct schema as [sch|]; [|exact Fin].
    destruct (validateAgainstSchema out sch); try discriminate.
    exact Fin.
Qed.

(** Parentheses nested on both sides are flattened into one [Or] of three
    children and one [And]. *)
Lemma C6_witness :
  flattened
    (Or [Comparison "a" "=" (VNumber (NInt 1));
         Comparison "b" "=" (VNumber (NInt 2));
         And [Comparison "c" "=" (VNumber (NInt 3));
              Comparison "d" "=" (VNumber (NInt 4));
              Comparison "e" "=" (VNumber (NInt 5))]])
  = true.
Proof.
  apply (C6_where_tree_is_flattened
           "entity:users where:((a=1 OR b=2) OR (c=3 (d=4 e=5)))" None
           (mkQuery (Some "users") None None None
              (Some (Or [Comparison "a" "=" (VNumber (NInt 1));
                         Comparison "b" "=" (VNumber (NInt 2));
                         And [Comparison "c" "=" (VNumber (NInt 3));
                              Comparison "d" "=" (VNumber (NInt 4));
                              Comparison "e" "=" (VNumber (NInt 5))]])))).
  - vm_compute; reflexivity.
  - reflexivity.
Defined.

End FlatteningOfParse.

(* ================================================================== *)
(** ** The parser always ends *)
(* ================================================================== *)

Section GrammarTotal.

Import Parse Spec.

Variable tokens : list WhereToken.

Lemma parseComparison_pos :
  forall pos r p,
    parseComparison tokens pos = Ok (r, p) ->
    pos <= p /\ (r <> None -> pos < p).
Proof.
  intros pos r p. unfold parseComparison.
  destruct (nth_error tokens pos) as [t|];
    [|intro H; injection H as <- <-; split; [lia|congruence]].
  destruct t; try (intro H; injection H as <- <-; split; [lia|congruence]);
    match goal with
    | |- context [let '(_, _) := ?x in _] =>
        assert (P : pos < snd x)
          by (destruct (nth_error tokens (S pos)) as [[]|]; simpl; lia);
        destruct x as [op q]
    end; simpl in P;
    (destruct (nth_error tokens q) as [[]|]; try discriminate;
     intro H; injection H as <- <-; split; intros; lia).
Qed.

Lemma parseComparison_total :
  forall pos, parseComparison tokens pos <> OutOfFuel.
Proof.
  intro pos. unfold parseComparison.
  destruct (nth_error tokens pos) as [t|]; [|discriminate].
  destruct t; try discriminate;
    match goal with
    | |- context [let '(_, _) := ?x in _] => destruct x as [op q]
    end;
    destruct (nth_error tokens q) as [[]|]; discriminate.
Qed.

(** The position never moves back, and moves forward when a condition is
    returned. *)
Lemma grammar_pos :
  forall fuel,
    (forall pos r p, parseOr tokens fuel pos = Ok (r, p) ->
                     pos <= p /\ (r <> None -> pos < p))
    /\ (forall pos r p, parseAnd tokens fuel pos = Ok (r, p) ->
                        pos <= p /\ (r <> None -> pos < p))
    /\ (forall terms pos terms' p,
          parseAndLoop tokens fuel terms pos = Ok (terms', p) -> pos <= p)
    /\ (forall pos r p, parsePrimary tokens fuel pos = Ok (r, p) ->
                        pos <= p /\ (r <> None -> pos < p)).
Proof.
  induction fuel as [|fuel [IHor [IHand [IHloop IHprim]]]].
  - repeat split; intros; discriminate.
  - split; [|split; [|split]].
    + intros pos r p. rewrite parseOr_S.
      destruct (parseAnd tokens fuel pos) as [[l q]| |] eqn:EA; try discriminate.
      destruct (IHand _ _ _ EA) as [M S1].
      destruct (nth_error tokens q) as [t|];
        [|intro H; injection H as <- <-; split; assumption].
      destruct (isKeyword t "or" "OR");
        [|intro H; injection H as <- <-; split; assumption].
      destruct l as [l|]; [|discriminate].
      destruct (parseOr tokens fuel (S q)) as [[[r0|] q0]| |] eqn:EO;
        try discriminate.
      destruct (IHor _ _ _ EO) as [M' _].
      intro H; injection H as <- <-. split; intros; lia.
    + intros pos r p. rewrite parseAnd_S.
      destruct (parsePrimary tokens fuel pos) as [[[term|] q]| |] eqn:EP;
        try discriminate.
      * destruct (IHprim _ _ _ EP) as [M S1].
        assert (pos < q) by (apply S1; congruence).
        destruct (parseAndLoop tokens fuel [term] q) as [[terms q0]| |] eqn:EL;
          try discriminate.
        pose proof (IHloop _ _ _ _ EL).
        destruct terms as [|t [|t' terms]];
          intro E; injection E as <- <-; split; intros; lia.
      * destruct (IHprim _ _ _ EP) as [M _].
        intro H; injection H as <- <-. split; [lia|congruence].
    + intros terms pos terms' p. rewrite parseAndLoop_S.
      destruct (nth_error tokens pos) as [t|];
        [|intro H; injection H as <- <-; lia].
      destruct (isKeyword t "or" "OR"); [intro H; injection H as <- <-; lia|].
      destruct (isKeyword t "and" "AND").
      * destruct (parsePrimary tokens fuel (S pos)) as [[[term|] q]| |] eqn:EP;
          try discriminate.
        destruct (IHprim _ _ _ EP) as [M _].
        intro H. apply IHloop in H. lia.
      * destruct (parsePrimary tokens fuel pos) as [[[term|] q]| |] eqn:EP;
          try discriminate.
        -- destruct (IHprim _ _ _ EP) as [M _].
           intro H. apply IHloop in H. lia.
        -- destruct (IHprim _ _ _ EP) as [M _].
           intro H; injection H as <- <-; lia.
    + intros pos r p. rewrite parsePrimary_S.
      destruct (nth_error tokens pos) as [t|];
        [|intro H; injection H as <- <-; split; [lia|congruence]].
      destruct (isParen t "(").
      * destruct (parseOr tokens fuel (S pos)) as [[inner q]| |] eqn:EO;
          try discriminate.
        destruct (IHor _ _ _ EO) as [M _].
        destruct (nth_error tokens q) as [t'|]; [|discriminate].
        destruct (isParen t' ")"); [|discriminate].
        destruct inner as [c|]; [|discriminate].
        intro H; injection H as <- <-. split; intros; lia.
      * apply parseComparison_pos.
Qed.

Lemma nth_error_left :
  forall pos t, nth_error tokens pos = Some t -> pos < List.length tokens.
Proof. intros pos t H. apply nth_error_Some. congruence. Qed.

(** With four units of fuel for each token left, and a few more, no
    function of the grammar runs out of fuel. *)
Lemma grammar_total :
  forall fuel,
    (forall pos, 4 * (List.length tokens - pos) + 4 <= fuel -> parseOr tokens fuel pos <> OutOfFuel)
    /\ (forall pos, 4 * (List.length tokens - pos) + 3 <= fuel ->
                    parseAnd tokens fuel pos <> OutOfFuel)
    /\ (forall terms pos, 4 * (List.length tokens - pos) + 2 <= fuel ->
                          parseAndLoop tokens fuel terms pos <> OutOfFuel)
    /\ (forall pos, 4 * (List.length tokens - pos) + 1 <= fuel ->
                    parsePrimary tokens fuel pos <> OutOfFuel).
Proof.
  induction fuel as [|fuel [IHor [IHand [IHloop IHprim]]]].
  - repeat split; intros; lia.
  - destruct (grammar_pos fuel) as [Por [Pand [Ploop Pprim]]].
    split; [|split; [|split]].
    + intros pos F. rewrite parseOr_S.
      destruct (parseAnd tokens fuel pos) as [[l q]| |] eqn:EA;
        [|discriminate|exfalso; apply (IHand pos); [lia|exact EA]].
      destruct (Pand _ _ _ EA) as [M _].
      destruct (nth_error tokens q) as [t|] eqn:N; [|discriminate].
      apply nth_error_left in N.
      destruct (isKeyword t "or" "OR"); [|discriminate].
      destruct l as [l|]; [|discriminate].
      destruct (parseOr tokens fuel (S q)) as [[[r0|] q0]| |] eqn:EO;
        try discriminate.
      exfalso; apply (IHor (S q)); [lia|exact EO].
    + intros pos F. rewrite parseAnd_S.
      destruct (parsePrimary tokens fuel pos) as [[[term|] q]| |] eqn:EP;
        [| discriminate | discriminate
         | exfalso; apply (IHprim pos); [lia|exact EP]].
      destruct (Pprim _ _ _ EP) as [M _].
      destruct (parseAndLoop tokens fuel [term] q) as [[terms q0]| |] eqn:EL;
        [|discriminate|exfalso; apply (IHloop [term] q);
                         [lia|exact EL]].
      destruct terms as [|t [|t' terms]]; discriminate.
    + intros terms pos F. rewrite parseAndLoop_S.
      destruct (nth_error tokens pos) as [t|] eqn:N; [|discriminate].
      apply nth_error_left in N.
      destruct (isKeyword t "or" "OR"); [discriminate|].
      destruct (isKeyword t "and" "AND").
      * destruct (parsePrimary tokens fuel (S pos)) as [[[term|] q]| |] eqn:EP;
          [| discriminate | discriminate
           | exfalso; apply (IHprim (S pos)); [lia|exact EP]].
        destruct (Pprim _ _ _ EP) as [M _].
        apply IHloop. lia.
      * destruct (parsePrimary tokens fuel pos) as [[[term|] q]| |] eqn:EP;
          [| discriminate | discriminate
           | exfalso; apply (IHprim pos); [lia|exact EP]].
        destruct (Pprim _ _ _ EP) as [_ S1].
        assert (pos < q) by (apply S1; congruence).
        apply IHloop. lia.
    + intros pos F. rewrite parsePrimary_S.
      destruct (nth_error tokens pos) as [t|] eqn:N; [|discriminate].
      apply nth_error_left in N.
      destruct (isParen t "(").
      * destruct (parseOr tokens fuel (S pos)) as [[inner q]| |] eqn:EO;
          [|discriminate|exfalso; apply (IHor (S pos));
                           [lia|exact EO]].
        destruct (nth_error tokens q) as [t'|]; [|discriminate].
        destruct (isParen t' ")"); [|discriminate].
        destruct inner; discriminate.
      * apply parseComparison_total.
Qed.

Lemma parseOr_enough_fuel :
  parseOr tokens (grammarFuel (List.length tokens)) 0 <> OutOfFuel.
Proof.
  apply (proj1 (grammar_total _)). unfold grammarFuel. lia.
Qed.

End GrammarTotal.

Section ScannersTotal.

Import Parse Spec.

Lemma scanWhile_ge : forall p rest i, i <= scanWhile p rest i.
Proof.
  induction rest as [|c r IH]; intro i; simpl; [lia|].
  destruct (p c); [specialize (IH (S i))|]; lia.
Qed.

Lemma substring_none : forall s n, substring n 0 s = EmptyString.
Proof. induction s as [|c s IH]; destruct n; simpl; auto. Qed.

Lemma scanString_ge :
  forall n rest i val,
    String.length rest <= n -> i <= fst (fst (scanString rest i val)).
Proof.
  induction n as [|n IH]; intros rest i val L.
  - destruct rest; [simpl; lia|simpl in L; lia].
  - destruct rest as [|c r]; [simpl; lia|]. simpl in L. cbn [scanString].
    destruct (Ascii.eqb c backslash).
    + destruct r as [|d r']; [simpl; lia|]. simpl in L.
      assert (G : forall v, i + 2 <= fst (fst (scanString r' (i + 2) v)))
        by (intro v; apply IH; lia).
      destruct (Ascii.eqb d dquote); [specialize (G (val ^^ str1 dquote)); lia|].
      destruct (Ascii.eqb d backslash);
        [specialize (G (val ^^ str1 backslash))|specialize (G (val ^^ str1 d))]; lia.
    + destruct (Ascii.eqb c dquote); [simpl; lia|].
      specialize (IH r (S i) (val ^^ str1 c)). lia.
Qed.

Lemma skipQuoted_ge :
  forall n rest i, String.length rest <= n -> i <= fst (skipQuoted rest i).
Proof.
  induction n as [|n IH]; intros rest i L.
  - destruct rest; [simpl; lia|simpl in L; lia].
  - destruct rest as [|c r]; [simpl; lia|]. simpl in L. cbn [skipQuoted].
    destruct (Ascii.eqb c backslash).
    + destruct r as [|d r']; [simpl; lia|]. simpl in L.
      specialize (IH r' (i + 2)). lia.
    + destruct (Ascii.eqb c dquote); [simpl; lia|].
      specialize (IH r (S i)). lia.
Qed.

Lemma skipWs_ge : forall s i, i <= skipWs s i.
Proof. intros. apply scanWhile_ge. Qed.

Lemma matchOp_length :
  forall s i op, matchOp s i = Some op -> 1 <= String.length op.
Proof.
  intros s i op H. unfold matchOp in H. apply find_some in H as [H _].
  unfold OPS in H. simpl in H.
  destruct H as [<-|[<-|[<-|[<-|[<-|[<-|[]]]]]]]; simpl; lia.
Qed.

(** The loop of [tokenizeWhere] ends within one iteration for each
    character left, and one more. *)
Lemma tokenizeLoop_total :
  forall fuel s i tokens,
    String.length s - i < fuel -> tokenizeLoop fuel s i tokens <> OutOfFuel.
Proof.
  induction fuel as [|fuel IH]; intros s i tokens F; [lia|].
  rewrite tokenizeLoop_unfold.
  destruct (String.length s <=? i) eqn:E; [discriminate|]. cbv zeta.
  pose proof (skipWs_ge s i) as G.
  destruct (String.length s <=? skipWs s i) eqn:E'; [discriminate|].
  apply Nat.leb_gt in E, E'.
  destruct (charIs s (skipWs s i) "("%char); [apply IH; lia|].
  destruct (charIs s (skipWs s i) ")"%char); [apply IH; lia|].
  destruct (charIs s (skipWs s i) dquote).
  - pose proof (scanString_ge _ (sliceFrom s (S (skipWs s i))) (S (skipWs s i))
                  EmptyString (Nat.le_refl _)) as Q.
    destruct (scanString _ _ _) as [[j val] found]. simpl in Q.
    destruct found; [apply IH; lia|discriminate].
  - destruct (matchOp s (skipWs s i)) as [op|] eqn:M.
    + apply matchOp_length in M. apply IH. lia.
    + pose proof (scanWhile_ge isWordChar (sliceFrom s (skipWs s i)) (skipWs s i))
        as W.
      destruct (isEmpty (slice s (skipWs s i) _)) eqn:R; [discriminate|].
      apply IH.
      destruct (Nat.eq_dec (scanWhile isWordChar (sliceFrom s (skipWs s i))
                              (skipWs s i)) (skipWs s i)) as [Q|Q]; [|lia].
      rewrite Q in R. unfold slice in R. rewrite Nat.sub_diag, substring_none in R.
      discriminate.
Qed.

Lemma tokenizeWhere_total : forall inner, tokenizeWhere inner <> OutOfFuel.
Proof. intro inner. apply tokenizeLoop_total. lia. Qed.

Lemma whereBlockLoop_unfold :
  forall fuel str i depth,
    whereBlockLoop (S fuel) str i depth
    = if (i <? String.length str) && (0 <? depth) then
        if charIs str i backslash then whereBlockLoop fuel str (i + 2) depth
        else if charIs str i dquote then
          let '(j, foundClosing) := skipQuoted (sliceFrom str (S i)) (S i) in
          if foundClosing then whereBlockLoop fuel str j depth
          else Throw "Unclosed quoted string in where clause"
        else if charIs str i "("%char then whereBlockLoop fuel str (S i) (S depth)
        else if charIs str i ")"%char then whereBlockLoop fuel str (S i) (depth - 1)
        else whereBlockLoop fuel str (S i) depth
      else Ok (i, depth).
Proof. reflexivity. Qed.

Lemma whereBlockLoop_total :
  forall fuel str i depth,
    String.length str - i < fuel -> whereBlockLoop fuel str i depth <> OutOfFuel.
Proof.
  induction fuel as [|fuel IH]; intros str i depth F; [lia|].
  rewrite whereBlockLoop_unfold.
  destruct ((i <? String.length str) && (0 <? depth)) eqn:E; [|discriminate].
  apply andb_true_iff in E as [E _]. apply Nat.ltb_lt in E.
  destruct (charIs str i backslash); [apply IH; lia|].
  destruct (charIs str i dquote).
  - pose proof (skipQuoted_ge _ (sliceFrom str (S i)) (S i) (Nat.le_refl _)) as Q.
    destruct (skipQuoted _ _) as [j found]. simpl in Q.
    destruct found; [apply IH; lia|discriminate].
  - destruct (charIs str i "("%char); [apply IH; lia|].
    destruct (charIs str i ")"%char); apply IH; lia.
Qed.

Lemma whereBlockLoop_ge :
  forall fuel str i depth j d,
    whereBlockLoop fuel str i depth = Ok (j, d) -> i <= j.
Proof.
  induction fuel as [|fuel IH]; intros str i depth j d; [discriminate|].
  rewrite whereBlockLoop_unfold.
  destruct ((i <? String.length str) && (0 <? depth));
    [|intro H; injection H as <- _; lia].
  destruct (charIs str i backslash); [intro H; apply IH in H; lia|].
  destruct (charIs str i dquote).
  - pose proof (skipQuoted_ge _ (sliceFrom str (S i)) (S i) (Nat.le_refl _)) as Q.
    destruct (skipQuoted _ _) as [k found]. simpl in Q.
    destruct found; [intro H; apply IH in H; lia|discriminate].
  - destruct (charIs str i "("%char); [intro H; apply IH in H; lia|].
    destruct (charIs str i ")"%char); intro H; apply IH in H; lia.
Qed.

Lemma nextKeyFrom_ge :
  forall ci rest k j, nextKeyFrom ci rest k = Some j -> k <= j.
Proof.
  induction rest as [|c r IH]; intros k j; [discriminate|]. cbn [nextKeyFrom].
  destruct (isSpace c && keyAt ci r); [intro H; injection H as <-; lia|].
  intro H. apply IH in H. lia.
Qed.

Lemma substring_length_le :
  forall t n, String.length (substring 0 n t) = n -> n <= String.length t.
Proof.
  induction t as [|d t IH]; intros n L.
  - destruct n; simpl in *; lia.
  - destruct n as [|n]; [simpl; lia|]. simpl in L.
    injection L as L. apply IH in L. simpl. lia.
Qed.

(** A prefix test by [slice] succeeds only inside the string. *)
Lemma slice_eq_length :
  forall s i n p,
    String.eqb (slice s i (i + n)) p = true -> String.length p = n -> 1 <= n ->
    i + n <= String.length s.
Proof.
  intros s i n p H L N. apply String.eqb_eq in H. subst p.
  rewrite slice_suffix in L. revert i n L N.
  induction s as [|c s IH]; intros i n L N.
  - rewrite sliceFrom_empty in L. destruct n; simpl in *; lia.
  - destruct i as [|i].
    + rewrite sliceFrom_0 in L. apply substring_length_le in L. lia.
    + change (sliceFrom (String c s) (S i)) with (sliceFrom s i) in L.
      apply IH in L; [simpl; lia|exact N].
Qed.

(** A scan splits the unread suffix into the run it skips and the rest. *)
Lemma scanWhile_split :
  forall p rest i,
    exists a b,
      rest = a ^^ b /\ scanWhile p rest i = i + String.length a
      /\ allChars p a = true /\ stopsAt p b.
Proof.
  induction rest as [|c r IH]; intro i.
  - exists EmptyString, EmptyString. simpl. repeat split; lia.
  - cbn [scanWhile]. destruct (p c) eqn:P.
    + destruct (IH (S i)) as [a [b [E [J [A St]]]]].
      exists (String c a), b. cbn [append String.length allChars].
      rewrite <- E, J, P, A. repeat split; [lia|exact St].
    + exists EmptyString, (String c r). simpl. repeat split; [lia|exact P].
Qed.

(** After the whitespace is skipped the next character, if any, is not
    whitespace, so a regular token has one character at least. *)
Lemma skipNonWs_after_skipWs :
  forall s i,
    skipWs s i < String.length s -> skipWs s i < skipNonWs s (skipWs s i).
Proof.
  intros s i L.
  destruct (scanWhile_split isSpace (sliceFrom s i) i) as [a [b [E [J [_ St]]]]].
  unfold skipWs in *. rewrite J in *.
  apply sliceFrom_advance in E.
  unfold skipNonWs. rewrite E.
  assert (N : isEmpty b = false).
  { rewrite <- E, <- atEnd_suffix. apply Nat.leb_gt. exact L. }
  destruct b as [|d b]; [discriminate|]. simpl in St. cbn [scanWhile].
  rewrite St. cbn [negb].
  pose proof (scanWhile_ge (fun c => negb (isSpace c)) b (S (i + String.length a))).
  lia.
Qed.


Lemma splitLoop_unfold :
  forall fuel str i clauses,
    splitLoop (S fuel) str i clauses
    = if String.length str <=? i then Ok clauses else
      let i := skipWs str i in
      if String.length str <=? i then Ok clauses
      else if charIs str i dquote then
        let start := i in
        let '(j, foundClosing) := skipQuoted (sliceFrom str (S i)) (S i) in
        if foundClosing then splitLoop fuel str j (clauses ++ [slice str start j])
        else Throw "Unclosed quoted string"
      else if String.eqb (slice str i (i + 6)) "order:" then
        let start := i in
        let i := i + 6 in
        let end_ :=
          match nextKey false str i with
          | Some k => k
          | None => String.length str
          end in
        splitLoop fuel str end_ (clauses ++ [slice str start end_])
      else if String.eqb (slice str i (i + 6)) "where:"
              && charIs str (i + 6) "("%char then
        let start := i in
        match whereBlockLoop (S (String.length str)) str (i + 7) 1 with
        | Ok (j, depth) =>
            if depth =? 0 then splitLoop fuel str j (clauses ++ [slice str start j])
            else Throw "Unbalanced parentheses in where clause"
        | Throw m => Throw m
        | OutOfFuel => OutOfFuel
        end
      else
        let i := if String.eqb (slice str i (i + 6)) "where:" then i + 6 else i in
        let start := i in
        let j := skipNonWs str i in
        splitLoop fuel str j (clauses ++ [slice str start j]).
Proof. reflexivity. Qed.

(** The loop of [splitTopLevel] ends within one iteration for each character
    left, and one more. *)
Lemma splitLoop_total :
  forall fuel str i clauses,
    String.length str - i < fuel -> splitLoop fuel str i clauses <> OutOfFuel.
Proof.
  induction fuel as [|fuel IH]; intros str i clauses F; [lia|].
  rewrite splitLoop_unfold.
  destruct (String.length str <=? i) eqn:E; [discriminate|]. cbv zeta.
  pose proof (skipWs_ge str i) as G.
  destruct (String.length str <=? skipWs str i) eqn:E'; [discriminate|].
  apply Nat.leb_gt in E, E'.
  set (j := skipWs str i) in *.
  destruct (charIs str j dquote).
  { pose proof (skipQuoted_ge _ (sliceFrom str (S j)) (S j) (Nat.le_refl _)) as Q.
    destruct (skipQuoted _ _) as [k found]. simpl in Q.
    destruct found; [apply IH; lia|discriminate]. }
  destruct (String.eqb (slice str j (j + 6)) "order:") eqn:O.
  { apply IH. destruct (nextKey false str (j + 6)) as [k|] eqn:K; [|lia].
    unfold nextKey in K. apply nextKeyFrom_ge in K. lia. }
  destruct (String.eqb (slice str j (j + 6)) "where:"
            && charIs str (j + 6) "("%char).
  { pose proof (whereBlockLoop_total (S (String.length str)) str (j + 7) 1) as T.
    destruct (whereBlockLoop _ _ _ _) as [[k depth]| |] eqn:W;
      [|discriminate|exfalso; apply T; [lia|reflexivity]].
    apply whereBlockLoop_ge in W.
    destruct (depth =? 0); [apply IH; lia|discriminate]. }
  apply IH.
  destruct (String.eqb (slice str j (j + 6)) "where:").
  - pose proof (scanWhile_ge (fun c => negb (isSpace c))
                  (sliceFrom str (j + 6)) (j + 6)) as W.
    unfold skipNonWs. lia.
  - pose proof (skipNonWs_after_skipWs str i E'). subst j. lia.
Qed.

Lemma splitTopLevel_total : forall str, splitTopLevel str <> OutOfFuel.
Proof. intro str. apply splitLoop_total. lia. Qed.

End ScannersTotal.

Section ParseTotal.

Import Parse Spec.

Lemma parseWhere_total : forall inner, parseWhere inner <> OutOfFuel.
Proof.
  intro inner. unfold parseWhere.
  pose proof (tokenizeWhere_total inner) as T.
  destruct (tokenizeWhere inner) as [tokens| |]; [|discriminate|congruence].
  destruct tokens as [|t tokens]; [discriminate|].
  pose proof (parseOr_enough_fuel (t :: tokens)) as G.
  destruct (parseOr (t :: tokens) _ 0) as [[r p]| |]; [|discriminate|congruence].
  destruct (p <? List.length (t :: tokens)); [discriminate|].
  destruct r; discriminate.
Qed.

Lemma unwrapLoop_total :
  forall rest i last depth, unwrapLoop rest i last depth <> OutOfFuel.
Proof.
  induction rest as [|c r IH]; intros i last depth; cbn [unwrapLoop];
    [discriminate|].
  cbv zeta.
  match goal with |- context [if (?d <? 0)%Z then _ else _] =>
    destruct (d <? 0)%Z; [discriminate|];
    destruct ((d =? 0)%Z && (i <? last)); [discriminate|apply IH]
  end.
Qed.

Lemma unwrapWhere_total : forall value, unwrapWhere value <> OutOfFuel.
Proof.
  intro value. unfold unwrapWhere.
  destruct (startsWith (trim value) "("); [|discriminate].
  pose proof (unwrapLoop_total (trim value) 0 (String.length (trim value) - 1) 0%Z).
  destruct (unwrapLoop _ _ _ _) as [depth| |]; [|discriminate|congruence].
  destruct (negb (depth =? 0)%Z); [discriminate|].
  destruct (negb (endsWith (trim value) ")")); discriminate.
Qed.

Lemma parseLimit_total : forall value, parseLimit value <> OutOfFuel.
Proof.
  intro value. unfold parseLimit.
  destruct (isEmpty value); [discriminate|].
  destruct (parseInt value) as [n|]; [|discriminate].
  destruct (n <? 0)%Z; [discriminate|].
  destruct (negb (isDigits (trim value))); discriminate.
Qed.

Lemma parseOrderTerm_total : forall part, parseOrderTerm part <> OutOfFuel.
Proof.
  intro part. unfold parseOrderTerm.
  destruct (isEmpty (trim part)); [discriminate|]. cbv zeta.
  destruct (_ || _); [discriminate|].
  destruct (splitWs (trim part)) as [|t0 [|t1 ts]]; try discriminate.
  destruct (String.eqb (toLowerCase t1) "asc"); [discriminate|].
  destruct (String.eqb (toLowerCase t1) "desc"); discriminate.
Qed.

Lemma parseOrderTerms_total :
  forall parts terms, parseOrderTerms parts terms <> OutOfFuel.
Proof.
  induction parts as [|part rest IH]; intro terms; cbn [parseOrderTerms];
    [discriminate|].
  pose proof (parseOrderTerm_total part).
  destruct (parseOrderTerm part); [apply IH|discriminate|congruence].
Qed.

Lemma parseInclude_total :
  forall parts keys, parseInclude parts keys <> OutOfFuel.
Proof.
  induction parts as [|rel rest IH]; intro keys; cbn [parseInclude];
    [discriminate|].
  cbv zeta. destruct (isEmpty (trim rel)); [discriminate|apply IH].
Qed.

Lemma parseClause_total :
  forall out clause, parseClause out clause <> OutOfFuel.
Proof.
  intros out clause. unfold parseClause.
  destruct (indexOf clause ":"%char) as [colon|]; [|discriminate]. cbv zeta.
  repeat match goal with
  | |- (if ?b then _ else _) <> _ => destruct b; try discriminate
  end.
  - pose proof (parseLimit_total (trim (sliceFrom clause (S colon)))).
    destruct (parseLimit _); [discriminate|discriminate|congruence].
  - pose proof (parseOrderTerms_total
                  (split (trim (sliceFrom clause (S colon))) ","%char) []).
    destruct (parseOrderTerms _ _); [discriminate|discriminate|congruence].
  - pose proof (parseInclude_total
                  (split (trim (sliceFrom clause (S colon))) ","%char) []).
    destruct (parseInclude _ _); [discriminate|discriminate|congruence].
  - pose proof (unwrapWhere_total (trim (sliceFrom clause (S colon)))).
    destruct (unwrapWhere _) as [inner| |]; [|discriminate|congruence].
    pose proof (parseWhere_total inner).
    destruct (parseWhere inner); [discriminate|discriminate|congruence].
Qed.

Lemma parseClauses_total :
  forall clauses out, parseClauses clauses out <> OutOfFuel.
Proof.
  induction clauses as [|clause rest IH]; intro out; cbn [parseClauses];
    [discriminate|].
  pose proof (parseClause_total out clause).
  destruct (parseClause out clause); [apply IH|discriminate|congruence].
Qed.

Lemma validateAgainstSchema_total :
  forall rql schema, validateAgainstSchema rql schema <> OutOfFuel.
Proof.
  intros rql schema. unfold validateAgainstSchema.
  destruct (Schema.entities schema) as [|d ds]; [discriminate|]. cbv zeta.
  destruct (entity rql) as [e|]; [|discriminate].
  destruct (negb (isEmpty e) && negb (has (uniq (map Schema.name (d :: ds))) e));
    [discriminate|].
  destruct (find _ (d :: ds)) as [entityDef|]; [|discriminate].
  assert (R : forall keys allowed, checkRelations e allowed keys <> OutOfFuel).
  { intros. unfold checkRelations. destruct (find _ keys); discriminate. }
  assert (C : forall allowed cond, checkFields e allowed cond <> OutOfFuel).
  { intros. unfold checkFields. cbv zeta.
    destruct (uniq (collectFields allowed cond)); discriminate. }
  destruct (include rql) as [[|k ks]|].
  - destruct (where_ rql), (Schema.fields entityDef); try discriminate. apply C.
  - specialize (R (k :: ks)).
    destruct (checkRelations e _ (k :: ks)) eqn:EC;
      [|discriminate|exfalso; eapply R; exact EC].
    destruct (where_ rql), (Schema.fields entityDef); try discriminate. apply C.
  - destruct (where_ rql), (Schema.fields entityDef); try discriminate. apply C.
Qed.

(** [parsePlainText] always ends: it returns a query or throws a
    [ParseError]. *)
Theorem parsePlainText_total :
  forall input schema, parsePlainText input schema <> OutOfFuel.
Proof.
  intros input schema. unfold parsePlainText. cbv zeta.
  destruct (isEmpty (trim input)); [discriminate|].
  pose proof (splitTopLevel_total (trim input)).
  destruct (splitTopLevel (trim input)) as [clauses| |];
    [|discriminate|congruence].
  pose proof (parseClauses_total clauses emptyQuery).
  destruct (parseClauses clauses emptyQuery) as [out| |];
    [|discriminate|congruence].
  destruct schema as [sch|]; [|discriminate].
  pose proof (validateAgainstSchema_total out sch).
  destruct (validateAgainstSchema out sch); [discriminate|discriminate|congruence].
Qed.

End ParseTotal.

(* ================================================================== *)
(** ** Suggestions *)
(* ================================================================== *)

Section Suggestions.

Import Autocomplete Spec.

Lemma prefix_nil : forall s, String.prefix EmptyString s = true.
Proof. destruct s; reflexivity. Qed.

Lemma prefix_append :
  forall p a b, String.prefix p a = true -> String.prefix p (a ^^ b) = true.
Proof.
  induction p as [|c p IH]; intros a b H; [apply prefix_nil|].
  destruct a as [|d a]; [discriminate|].
  simpl in *. destruct (Ascii.ascii_dec c d); [|discriminate].
  apply IH; exact H.
Qed.

Lemma prefix_refl : forall s, String.prefix s s = true.
Proof.
  induction s as [|c s IH]; [reflexivity|].
  simpl. destruct (Ascii.ascii_dec c c); [exact IH|congruence].
Qed.

Lemma has_In : forall xs x, has xs x = true <-> In x xs.
Proof.
  intros xs x. unfold has. rewrite existsb_exists. split.
  - intros [y [Hy E]]. apply String.eqb_eq in E. subst. exact Hy.
  - intro H. exists x. split; [exact H|apply String.eqb_refl].
Qed.

Lemma In_uniqAcc :
  forall xs seen x, In x (uniqAcc seen xs) <-> In x xs /\ ~ In x seen.
Proof.
  induction xs as [|y xs IH]; intros seen x; simpl.
  - tauto.
  - destruct (existsb (String.eqb y) seen) eqn:E.
    + rewrite IH. fold (has seen y) in E. apply has_In in E.
      split; [tauto|]. intros [[->|H] N]; [contradiction|tauto].
    + fold (has seen y) in E.
      assert (N : ~ In y seen) by (rewrite <- has_In, E; discriminate).
      simpl. rewrite IH. simpl.
      destruct (string_dec y x) as [->|D]; [tauto|].
      split; [intros [?|[? ?]]; tauto|]. intros [[?|?] ?]; [tauto|].
      right. split; [assumption|]. intros [?|?]; [congruence|tauto].
Qed.

Lemma In_uniq : forall xs x, In x (uniq xs) <-> In x xs.
Proof. intros. unfold uniq. rewrite In_uniqAcc. simpl. tauto. Qed.

(** Every suggestion is built by [withReplace]. *)
Lemma withReplace_ok :
  forall n l i r, replaceOk n (withReplace n l i r).
Proof. intros n l i [[|]|]; reflexivity. Qed.

Lemma plain_all_ok :
  forall n names, Forall (replaceOk n) (map (plain n) names).
Proof.
  intros. apply Forall_map, Forall_forall. intros; apply withReplace_ok.
Qed.

(** C8 -- every suggestion returned by [getSuggestions] has
    [replaceLength = 0] when its [replacePartial] is [false], and
    [replaceLength] equal to the length of the partial of the context
    otherwise. *)
Theorem C8_replace_length :
  forall context schema,
    Forall (replaceOk (String.length (contextPartial context)))
           (getSuggestions context schema).
Proof.
  intros context schema. destruct context; unfold getSuggestions;
    cbn [contextPartial]; try apply plain_all_ok; try constructor.
  - apply Forall_map, Forall_forall. intros; apply withReplace_ok.
  - destruct afterField as [[|]|]; try apply plain_all_ok.
    apply Forall_app; split; apply plain_all_ok.
  - match goal with |- context [if ?b then _ else _] => destruct b end.
    + apply Forall_map, Forall_forall. intros; apply withReplace_ok.
    + apply plain_all_ok.
Qed.

(** A name kept by the prefix filter obeys the prefix law. *)
Lemma matches_law :
  forall p n name,
    matchesPartial (toLowerCase p) name = true ->
    prefixLaw p (plain n name) = true.
Proof.
  intros p n name H. unfold prefixLaw, plain, withReplace; cbn [label].
  unfold matchesPartial in H. apply orb_true_iff in H as [E|E]; [|exact E].
  destruct (toLowerCase p); [apply prefix_nil|discriminate].
Qed.

Lemma filtered_law :
  forall p n names,
    forallb (prefixLaw p)
            (map (plain n) (filter (matchesPartial (toLowerCase p)) names)) = true.
Proof.
  intros. apply forallb_forall. intros s Hs.
  apply in_map_iff in Hs as [name [<- Hn]].
  apply filter_In in Hn as [_ Hm]. apply matches_law; exact Hm.
Qed.

Lemma uniq_filtered_law :
  forall p n names,
    forallb (prefixLaw p)
            (map (plain n) (uniq (filter (matchesPartial (toLowerCase p)) names)))
    = true.
Proof.
  intros. apply forallb_forall. intros s Hs.
  apply in_map_iff in Hs as [name [<- Hn]].
  apply In_uniq, filter_In in Hn as [_ Hm]. apply matches_law; exact Hm.
Qed.

(** A top-level key whose name passes the filter starts with the partial. *)
Lemma top_key_law :
  forall partial k,
    In k TOP_LEVEL_KEYS ->
    matchesPartial partial (removeFirst "("%char (removeFirst ":"%char k)) = true ->
    startsWith (toLowerCase k) partial = true.
Proof.
  intros partial k Hk Hm. unfold matchesPartial in Hm.
  apply orb_true_iff in Hm as [E|E].
  - destruct partial; [apply prefix_nil|discriminate].
  - unfold TOP_LEVEL_KEYS in Hk. simpl in Hk.
    destruct Hk as [<-|[<-|[<-|[<-|[<-|[]]]]]].
    + apply (prefix_append partial "entity" ":"); exact E.
    + apply (prefix_append partial "limit" ":"); exact E.
    + apply (prefix_append partial "order" ":"); exact E.
    + apply (prefix_append partial "include" ":"); exact E.
    + apply (prefix_append partial "where" ":("); exact E.
Qed.

(** The code tests the override on the keys of [fieldMap], which holds the
    field names that pass the prefix filter; a non-empty partial is among
    them exactly when it is a field name of a relevant entity. *)
Lemma exact_match_on_fieldMap :
  forall p schema entityValue,
    has (fieldMapKeys (toLowerCase p)
           (findRelevantEntities schema entityValue)) p
    = has (relevantFieldNames schema entityValue) p.
Proof.
  intros. apply eq_true_iff_eq. rewrite !has_In.
  unfold fieldMapKeys, relevantFieldNames. rewrite In_uniq, filter_In.
  split; [tauto|]. intro H. split; [exact H|].
  unfold matchesPartial. apply orb_true_iff. right. apply prefix_refl.
Qed.

(** C1, amended -- the prefix filter law holds but for the exact-match
    override, and its fold of case is that of [toLowerCase].  When the
    context is a where-field context whose non-empty partial is exactly the
    name of a field of a relevant entity, [getSuggestions] returns the six
    comparison operators, each with [replacePartial = false]; in every
    other case the label of every returned suggestion, put in lower case by
    [toLowerCase], starts with the partial of the context put in lower case
    by [toLowerCase]. *)
Theorem C1_prefix_law_except_exact_match :
  forall context schema,
    if exactFieldMatch context schema
    then getSuggestions context schema = operatorSuggestions
    else forallb (prefixLaw (contextPartial context))
                 (getSuggestions context schema) = true.
Proof.
  intros context schema.
  destruct context; unfold exactFieldMatch, getSuggestions;
    cbn [contextPartial]; try reflexivity;
    try apply uniq_filtered_law; try apply filtered_law.
  - (* top-level *)
    apply forallb_forall. intros s Hs.
    apply in_map_iff in Hs as [k [<- Hk]].
    apply filter_In in Hk as [Hin Hc].
    apply andb_true_iff in Hc as [_ Hm].
    unfold prefixLaw, plain, withReplace; cbn [label].
    apply top_key_law; assumption.
  - (* entity-value *)
    apply forallb_forall. intros s Hs.
    apply in_map_iff in Hs as [e [<- He]].
    apply filter_In in He as [_ Hm]. apply matches_law; exact Hm.
  - (* order-value *)
    destruct afterField as [[|]|]; try apply uniq_filtered_law.
    rewrite forallb_app. apply andb_true_iff. split.
    + apply uniq_filtered_law.
    + apply filtered_law.
  - (* where-field *)
    rewrite exact_match_on_fieldMap.
    destruct (negb (isEmpty partial) && has (relevantFieldNames schema entityValue) partial).
    + reflexivity.
    + apply uniq_filtered_law.
Qed.

(** C1, as stated -- in the where-field context with the partial [status],
    which is a field of the entity [user], the suggestions are the six
    operators, and none of their labels starts with [status]. *)
Lemma C1_counterexample :
  getSuggestions (WhereField "status" "user") Schema.exampleSchema
  = operatorSuggestions
  /\ forallb (prefixLaw "status")
             (getSuggestions (WhereField "status" "user") Schema.exampleSchema)
     = false
  /\ ~ (forall s,
          In s (getSuggestions (WhereField "status" "user") Schema.exampleSchema) ->
          prefixLaw "status" s = true).
Proof.
  split; [vm_compute; reflexivity|].
  split; [vm_compute; reflexivity|].
  intro H.
  specialize (H (mkSuggestion "!=" "!=" (Some false) 0)).
  assert (E : prefixLaw "status" (mkSuggestion "!=" "!=" (Some false) 0) = false)
    by (vm_compute; reflexivity).
  rewrite H in E; [discriminate|].
  vm_compute. left. reflexivity.
Qed.

(** The fold of [toLowerCase] goes beyond ASCII: the partial made of a small
    e with acute accent (code 233) gets the entity whose name starts with
    the capital letter (code 201), which the fold of the letters [A] to [Z]
    alone would not match. *)
Example fold_is_not_ascii :
  getSuggestions
    (EntityValue (str1 "233"%char))
    (Schema.defineSchema
       [Schema.mkEntityDef (String "201"%char "cole") None None])
  = [mkSuggestion (String "201"%char "cole") (String "201"%char "cole") None 1]
  /\ prefixLaw (str1 "233"%char)
       (mkSuggestion (String "201"%char "cole") (String "201"%char "cole") None 1)
     = true
  /\ asciiPrefixLaw (str1 "233"%char)
       (mkSuggestion (String "201"%char "cole") (String "201"%char "cole") None 1)
     = false.
Proof. repeat split; vm_compute; reflexivity. Qed.

End Suggestions.

(* ================================================================== *)
(** ** The cursor context on incomplete input *)
(* ================================================================== *)

Section NoThrow.

Import Autocomplete.

(** The scenarios of the specification and of the test suite. *)

Example context_entity_partial :
  getContext 64 "entity:U" 8 = Some (EntityValue "U")
  /\ getSuggestionsAtCursor 64 "entity:U" 8
       (Schema.defineSchema [Schema.mkEntityDef "User" None None])
     = Some [mkSuggestion "User" "User" None 1].
Proof. split; vm_compute; reflexivity. Qed.

Example context_after_where_block :
  getContext 64 "entity:User where:(status!=active) l" 36
  = Some (TopLevel "l" ["entity"; "where"])
  /\ option_map (map label)
       (getSuggestionsAtCursor 64 "entity:User where:(status!=active) l" 36
          Schema.exampleSchema)
     = Some ["limit:"].
Proof. split; vm_compute; reflexivity. Qed.

Example context_cursor_clamped :
  getContext 64 "entity:User" 100 = Some (EntityValue "User")
  /\ getContext 64 "entity:User" (-5) = Some (TopLevel EmptyString ["entity"]).
Proof. split; vm_compute; reflexivity. Qed.

Example context_unclosed_quote :
  getContext 64 ("entity:User where:(name = " ^^ str1 dquote ^^ "John") 31
  = Some (WhereValue "John" "name" "=" "User").
Proof. vm_compute; reflexivity. Qed.

Example context_where_operator :
  getContext 64 "entity:User where:(age >= 18" 28
  = Some (WhereValue "18" "age" ">=" "User")
  /\ getContext 64 "entity:User where:(status!=" 27
     = Some (WhereValue EmptyString "status" "!=" "User").
Proof. split; vm_compute; reflexivity. Qed.

Example context_include_list :
  getContext 64 "entity:User include:posts, comm" 31
  = Some (IncludeValue "comm" "User").
Proof. vm_compute; reflexivity. Qed.

Example context_order_direction :
  getContext 64 "entity:User order:name " 23
  = Some (OrderValue EmptyString "User" (Some true)).
Proof. vm_compute; reflexivity. Qed.

Lemma tokenizeLoop_S :
  forall fuel s i tokens,
    tokenizeLoop (S fuel) s i tokens
    = if String.length s <=? i then Some tokens
      else let '(j, tokens') := tokenizeStep s i tokens in
           tokenizeLoop fuel s j tokens'.
Proof. reflexivity. Qed.

(** An iteration of [tokenizeWhereInner] that starts at a [!] which is not
    followed by [=] pushes no token and does not move. *)
Lemma lone_bang_step :
  forall s i tokens rest,
    sliceFrom s i = String "!"%char rest ->
    String.prefix "=" rest = false ->
    tokenizeStep s i tokens = (i, tokens).
Proof.
  intros s i tokens rest H N. unfold tokenizeStep.
  rewrite (skipWs_stay s i _ _ H eq_refl).
  rewrite atEnd_suffix, H. cbn [isEmpty].
  rewrite !(charIs_suffix s i _ _ _ H).
  change (Ascii.eqb "!"%char "("%char) with false.
  change (Ascii.eqb "!"%char ")"%char) with false.
  change (Ascii.eqb "!"%char dquote) with false. cbn [orb].
  assert (K : forall kw c k', kw = String c k' -> Ascii.eqb "!"%char c = false ->
                              keywordAt s i kw = false).
  { intros kw c k' -> E. unfold keywordAt. cbv zeta.
    rewrite slice_suffix, H. cbn [String.length substring toLowerCase String.eqb].
    change (lowerChar "!"%char) with "!"%char. rewrite E.
    rewrite andb_false_r. reflexivity. }
  rewrite (K "or" "o"%char "r" eq_refl eq_refl).
  rewrite (K "and" "a"%char "nd" eq_refl eq_refl).
  assert (O : opFound s i = None).
  { unfold opFound, WHERE_OPS. cbn [find String.length].
    rewrite !slice_suffix, H. cbn [substring].
    destruct rest as [|c r].
    - reflexivity.
    - cbn [substring String.eqb]. simpl in N.
      destruct (Ascii.ascii_dec "="%char c) as [<-|D].
      + destruct r; discriminate N.
      + assert (E : Ascii.eqb c "="%char = false)
          by (apply Ascii.eqb_neq; congruence).
        change (Ascii.eqb "!"%char "!"%char) with true.
        change (Ascii.eqb "!"%char "<"%char) with false.
        change (Ascii.eqb "!"%char ">"%char) with false.
        change (Ascii.eqb "!"%char "="%char) with false.
        rewrite E. reflexivity. }
  rewrite O. cbn [scanWhile].
  change (wordChar "!"%char) with false. cbv iota zeta.
  unfold slice. rewrite Nat.sub_diag, substring_none. reflexivity.
Qed.

(** From such a [!] on, the loop of [tokenizeWhereInner] has no end. *)
Lemma tokenizeLoop_lone_bang :
  forall fuel s i tokens rest,
    sliceFrom s i = String "!"%char rest ->
    String.prefix "=" rest = false ->
    tokenizeLoop fuel s i tokens = None.
Proof.
  induction fuel as [|fuel IH]; intros s i tokens rest H N; [reflexivity|].
  rewrite tokenizeLoop_S, atEnd_suffix, H. cbn [isEmpty].
  rewrite (lone_bang_step s i tokens rest H N). apply (IH _ _ _ rest H N).
Qed.

(** On [status!] the iteration that starts at the [!] pushes no token and
    leaves the index where it is. *)
Lemma tokenizeStep_bang :
  forall tokens, tokenizeStep "status!" 6 tokens = (6, tokens).
Proof. intro tokens. reflexivity. Qed.

Lemma tokenizeLoop_bang :
  forall fuel tokens, tokenizeLoop fuel "status!" 6 tokens = None.
Proof.
  induction fuel as [|fuel IH]; intro tokens; [reflexivity|].
  rewrite tokenizeLoop_S, tokenizeStep_bang.
  change (String.length "status!" <=? 6) with false. cbv iota. apply IH.
Qed.

Lemma tokenizeWhereInner_bang :
  forall fuel, tokenizeWhereInner fuel "status!" = None.
Proof.
  intros [|fuel]; [reflexivity|].
  unfold tokenizeWhereInner. rewrite tokenizeLoop_S.
  change (tokenizeStep "status!" 0 []) with (6, [mkToken Word "status"]).
  change (String.length "status!" <=? 0) with false. cbv iota beta.
  apply tokenizeLoop_bang.
Qed.

Lemma parseWhereInner_bang :
  forall fuel, parseWhereInner fuel "status!" = None.
Proof.
  intro fuel. unfold parseWhereInner.
  change (trimEnd "status!") with "status!". cbv iota beta delta [isEmpty].
  rewrite tokenizeWhereInner_bang. reflexivity.
Qed.

(** The segment at the cursor, when the scan ends within the fuel. *)
Lemma segment_bang :
  forall fuel,
    getSegmentAtCursor fuel "entity:User where:(status!" 26 = None
    \/ getSegmentAtCursor fuel "entity:User where:(status!" 26
       = Some (mkSegment "where:(status!" 12).
Proof.
  intro fuel.
  do 12 (destruct fuel as [|fuel];
         [first [left; vm_compute; reflexivity | right; vm_compute; reflexivity]|]).
  right; vm_compute; reflexivity.
Qed.

(** C4 -- the specification asks that [getContext] return a context on
    every input; on [entity:User where:(status!] with the cursor at the end,
    the loop of [tokenizeWhereInner] reaches the [!] and never leaves it, so
    [getContext] returns nothing however many iterations it is given: the
    call does not end.  The tokenizer of the parser raises
    [Unexpected character in where clause] at the same character. *)
Theorem C4_getContext_does_not_return :
  (forall fuel, getContext fuel "entity:User where:(status!" 26 = None)
  /\ (forall fuel schema,
        getSuggestionsAtCursor fuel "entity:User where:(status!" 26 schema = None)
  /\ (forall tokens, tokenizeStep "status!" 6 tokens = (6, tokens))
  /\ Parse.tokenizeWhere "status!"
     = Parse.Throw "Unexpected character in where clause".
Proof.
  assert (G : forall fuel, getContext fuel "entity:User where:(status!" 26 = None).
  { intro fuel. unfold getContext.
    change (Z.to_nat (Z.max 0 (Z.min 26
              (Z.of_nat (String.length "entity:User where:(status!")))))
      with 26.
    destruct (segment_bang fuel) as [E|E]; rewrite E; [reflexivity|].
    destruct (getTopLevelKeysUsed fuel "entity:User where:(status!")
      as [usedKeys|]; [|reflexivity].
    cbv -[parseWhereInner].
    rewrite parseWhereInner_bang. reflexivity. }
  split; [exact G|].
  split; [intros fuel schema; unfold getSuggestionsAtCursor; rewrite G; reflexivity|].
  split; [exact tokenizeStep_bang|].
  vm_compute; reflexivity.
Qed.

End NoThrow.

(* ================================================================== *)
(** ** Further properties of the parser *)
(* ================================================================== *)

Section StringFacts.

Import JS Props.

Lemma rev_rev : forall s, JS.rev (JS.rev s) = s.
Proof.
  intro s. unfold JS.rev.
  rewrite list_ascii_of_string_of_list_ascii, rev_involutive.
  apply string_of_list_ascii_of_string.
Qed.

Lemma rev_cons :
  forall c s, JS.rev (String c s) = JS.rev s ^^ str1 c.
Proof.
  intros c s. unfold JS.rev. cbn [list_ascii_of_string List.rev].
  generalize (List.rev (list_ascii_of_string s)) as l.
  induction l as [|d l IH]; [reflexivity|]. simpl. rewrite IH. reflexivity.
Qed.

Lemma rev_snoc :
  forall s c, JS.rev (s ^^ str1 c) = String c (JS.rev s).
Proof.
  intros s c. rewrite <- (rev_rev (String c (JS.rev s))), rev_cons, rev_rev.
  reflexivity.
Qed.

Lemma trimStart_blank :
  forall s, allChars isSpace s = true -> trimStart s = EmptyString.
Proof.
  induction s as [|c s IH]; [reflexivity|]. simpl. intro H.
  apply andb_true_iff in H as [Hc Hs]. rewrite Hc. apply IH; exact Hs.
Qed.

Lemma trim_blank :
  forall s, allChars isSpace s = true -> trim s = EmptyString.
Proof.
  intros s H. unfold trim. rewrite (trimStart_blank s H). reflexivity.
Qed.

Lemma trimStart_head :
  forall c s, isSpace c = false -> trimStart (String c s) = String c s.
Proof. intros c s H. simpl. rewrite H. reflexivity. Qed.

(** A text that ends with a character that is no whitespace is left alone
    by [trimEnd]. *)
Lemma trimEnd_last :
  forall s c, isSpace c = false -> trimEnd (s ^^ str1 c) = s ^^ str1 c.
Proof.
  intros s c H. unfold trimEnd. rewrite rev_snoc, (trimStart_head _ _ H).
  rewrite <- rev_snoc. apply rev_rev.
Qed.

Lemma snoc_view :
  forall s, s = EmptyString \/ exists t c, s = t ^^ str1 c.
Proof.
  induction s as [|c s IH]; [left; reflexivity|right].
  destruct IH as [->|[t [d ->]]].
  - exists EmptyString, c. reflexivity.
  - exists (String c t), d. reflexivity.
Qed.

Lemma allChars_snoc :
  forall p s c, allChars p (s ^^ str1 c) = allChars p s && p c.
Proof.
  intros. rewrite allChars_append. simpl. rewrite andb_true_r. reflexivity.
Qed.

(** A text without whitespace is its own trim. *)
Lemma trim_solid :
  forall s, allChars notSpace s = true -> trim s = s.
Proof.
  intros s H. unfold trim.
  assert (T : trimStart s = s).
  { destruct s as [|c s]; [reflexivity|]. simpl in H.
    apply andb_true_iff in H as [Hc _]. apply negb_true_iff in Hc.
    apply trimStart_head; exact Hc. }
  rewrite T. destruct (snoc_view s) as [->|[t [c ->]]]; [reflexivity|].
  rewrite allChars_snoc in H. apply andb_true_iff in H as [_ Hc].
  apply negb_true_iff in Hc. apply trimEnd_last; exact Hc.
Qed.

Lemma digit_notSpace : forall c, isDigit c = true -> notSpace c = true.
Proof. intros [[] [] [] [] [] [] [] []]; vm_compute; congruence. Qed.

End StringFacts.

Section ParserFacts.

Import JS Parse Spec Props.

(** X1 -- with a schema, [parsePlainText] returns a query exactly when the
    parse without schema returns that query and the validator accepts it;
    and an error of the parse without schema is the error of the parse with
    any schema: the schema only rejects, after the syntax. *)
Theorem X1_schema_only_rejects :
  forall input schema,
    (forall rql,
       parsePlainText input (Some schema) = Ok rql
       <-> parsePlainText input None = Ok rql
           /\ validateAgainstSchema rql schema = Ok tt)
    /\ (forall m,
          parsePlainText input None = Throw m ->
          parsePlainText input (Some schema) = Throw m).
Proof.
  intros input schema. unfold parsePlainText.
  destruct (isEmpty (trim input)).
  - split; [|discriminate]. intro rql. split.
    + intro H. injection H as <-. split; [reflexivity|].
      apply validate_empty_query.
    + intros [H _]. exact H.
  - destruct (splitTopLevel (trim input)) as [clauses|m0|];
      [|split; [intro rql; split; [discriminate|intros [H _]; discriminate]
               |intros m H; exact H]
       |split; [intro rql; split; [discriminate|intros [H _]; discriminate]
               |discriminate]].
    destruct (parseClauses clauses emptyQuery) as [out|m0|];
      [|split; [intro rql; split; [discriminate|intros [H _]; discriminate]
               |intros m H; exact H]
       |split; [intro rql; split; [discriminate|intros [H _]; discriminate]
               |discriminate]].
    split; [|discriminate]. intro rql. split.
    + destruct (validateAgainstSchema out schema) as [[]| |] eqn:V;
        try discriminate.
      intro H. injection H as <-. split; [reflexivity|exact V].
    + intros [H V]. injection H as <-. rewrite V. reflexivity.
Qed.

Lemma X1_witness :
  parsePlainText "entity:users include:posts" None
  = Ok (mkQuery (Some "users") None None (Some ["posts"]) None)
  /\ parsePlainText "entity:users where:(" (Some Schema.exampleSchema)
     = Throw "Unbalanced parentheses in where clause".
Proof.
  split.
  - refine (proj1 (proj1 (proj1 (X1_schema_only_rejects
               "entity:users include:posts" Schema.exampleSchema) _) _)).
    vm_compute; reflexivity.
  - refine (proj2 (X1_schema_only_rejects
               "entity:users where:(" Schema.exampleSchema) _ _).
    vm_compute; reflexivity.
Defined.

(** X2 -- an input made of whitespace only (the empty input included) gives
    the empty query, with or without a schema, and no error. *)
Theorem X2_blank_input_is_empty_query :
  forall input schema,
    allChars isSpace input = true ->
    parsePlainText input schema = Ok emptyQuery.
Proof.
  intros input schema H. unfold parsePlainText.
  rewrite (trim_blank input H). reflexivity.
Qed.

Lemma X2_witness :
  parsePlainText "   " (Some Schema.exampleSchema) = Ok emptyQuery.
Proof. apply X2_blank_input_is_empty_query. reflexivity. Defined.

Lemma scanWhile_all :
  forall p s i, allChars p s = true -> scanWhile p s i = i + String.length s.
Proof.
  intros p s i H. rewrite <- (append_nil_r s) at 1.
  apply scanWhile_run; [exact H|exact I].
Qed.

Lemma parseInt_digits :
  forall value,
    isDigits value = true ->
    parseInt value = Some (Z.of_N (digitsValue value 0%N)).
Proof.
  intros value H. unfold isDigits in H. apply andb_true_iff in H as [N D].
  rewrite allDigits_allChars in D.
  destruct value as [|c r]; [discriminate N|]. clear N.
  pose proof D as D'. cbn [allChars] in D'. apply andb_true_iff in D' as [Dc _].
  unfold parseInt.
  rewrite (trimStart_head c r);
    [|pose proof (digit_notSpace c Dc) as S; apply negb_true_iff in S; exact S].
  assert (M : Ascii.eqb c "-"%char = false)
    by (revert Dc; clear; destruct c as [[] [] [] [] [] [] [] []];
        vm_compute; congruence).
  assert (P : Ascii.eqb c "+"%char = false)
    by (revert Dc; clear; destruct c as [[] [] [] [] [] [] [] []];
        vm_compute; congruence).
  rewrite M, P. cbv zeta iota beta.
  rewrite (scanWhile_all isDigit (String c r) 0 D). cbn [Nat.add String.length].
  cbn [Nat.eqb]. unfold slice. rewrite Nat.sub_0_r.
  change (S (String.length r)) with (String.length (String c r)).
  rewrite substring_full. reflexivity.
Qed.

Lemma parseLimit_digits :
  forall value,
    isDigits value = true -> parseLimit value = Ok (digitsValue value 0%N).
Proof.
  intros value H. unfold parseLimit.
  assert (E : isEmpty value = false)
    by (unfold isDigits in H; destruct value; [discriminate H|reflexivity]).
  rewrite E, (parseInt_digits value H).
  assert (T : trim value = value).
  { apply trim_solid. unfold isDigits in H. apply andb_true_iff in H as [_ D].
    rewrite allDigits_allChars in D. revert D. apply allChars_impl.
    exact digit_notSpace. }
  rewrite T, H. cbn [negb].
  destruct (Z.of_N (digitsValue value 0) <? 0)%Z eqn:L;
    [apply Z.ltb_lt in L; lia|].
  rewrite N2Z.id. reflexivity.
Qed.

(** X3 -- [limit] accepts exactly the non-empty strings of decimal digits:
    such a value is accepted and, when the integer that it denotes is at
    most [2^53] (so that the double of [parseInt] is that integer), the
    limit is that integer; and a value that is accepted is, once trimmed, a
    non-empty string of digits. *)
Theorem X3_limit_accepts_digit_strings :
  (forall value,
     isDigits value = true ->
     (exists n, parseLimit value = Ok n)
     /\ (exactInteger (digitsValue value 0%N) ->
         parseLimit value = Ok (digitsValue value 0%N)))
  /\ (forall value n, parseLimit value = Ok n -> isDigits (trim value) = true).
Proof.
  split.
  - intros value H. rewrite (parseLimit_digits value H).
    split; [eexists; reflexivity|reflexivity].
  - intros value n. unfold parseLimit.
    destruct (isEmpty value); [discriminate|].
    destruct (parseInt value) as [z|]; [|discriminate].
    destruct (z <? 0)%Z; [discriminate|].
    destruct (isDigits (trim value)); [reflexivity|discriminate].
Qed.

Lemma X3_witness :
  parseLimit "0042" = Ok 42%N /\ isDigits (trim "7") = true.
Proof.
  split.
  - refine (proj2 (proj1 X3_limit_accepts_digit_strings "0042" eq_refl) _).
    unfold exactInteger. vm_compute. discriminate.
  - exact (proj2 X3_limit_accepts_digit_strings "7" 7%N eq_refl).
Defined.

End ParserFacts.

(** *** The include list and the order list *)

Section TrimFacts.

Import JS Spec Props.

Lemma append_assoc : forall a b c, (a ^^ b) ^^ c = a ^^ (b ^^ c).
Proof. induction a as [|x a IH]; intros; simpl; [reflexivity|]. rewrite IH. reflexivity. Qed.

Lemma rev_append : forall a b, JS.rev (a ^^ b) = JS.rev b ^^ JS.rev a.
Proof.
  induction a as [|c a IH]; intro b.
  - simpl. change (JS.rev EmptyString) with EmptyString.
    rewrite append_nil_r. reflexivity.
  - cbn [append]. rewrite !rev_cons, IH, append_assoc. reflexivity.
Qed.

Lemma allChars_rev : forall p s, allChars p (JS.rev s) = allChars p s.
Proof.
  induction s as [|c s IH]; [reflexivity|].
  rewrite rev_cons, allChars_snoc, IH. simpl. apply andb_comm.
Qed.

(** [trimStart] removes a run of whitespace and stops at a character that
    is none. *)
Lemma trimStart_split :
  forall s,
    exists w, s = w ^^ trimStart s /\ allChars isSpace w = true
              /\ stopsAt isSpace (trimStart s).
Proof.
  induction s as [|c s [w [E [A St]]]].
  - exists EmptyString. repeat split.
  - simpl. destruct (isSpace c) eqn:C.
    + exists (String c w). cbn [append allChars]. rewrite <- E, C, A.
      repeat split. exact St.
    + exists EmptyString. repeat split. exact C.
Qed.

(** [trimEnd] removes a run of whitespace at the end. *)
Lemma trimEnd_split :
  forall s,
    exists w, s = trimEnd s ^^ w /\ allChars isSpace w = true
              /\ stopsAt isSpace (JS.rev (trimEnd s)).
Proof.
  intro s. destruct (trimStart_split (JS.rev s)) as [w [E [A St]]].
  exists (JS.rev w). unfold trimEnd. rewrite rev_rev, allChars_rev.
  repeat split; [|exact A|exact St].
  rewrite <- rev_append, <- E, rev_rev. reflexivity.
Qed.

(** The trim of a text is empty or starts with a character that is no
    whitespace. *)
Lemma trim_head : forall s, stopsAt isSpace (trim s).
Proof.
  intro s. unfold trim.
  destruct (trimStart_split s) as [_ [_ [_ St]]].
  destruct (trimEnd_split (trimStart s)) as [w [E _]].
  destruct (trimEnd (trimStart s)) as [|c t]; [exact I|].
  rewrite E in St. exact St.
Qed.

End TrimFacts.

Section ClauseValues.

Import JS Parse Spec Props.

Lemma uniqAcc_ext :
  forall xs seen seen',
    (forall x, has seen x = has seen' x) ->
    uniqAcc seen xs = uniqAcc seen' xs.
Proof.
  induction xs as [|y xs IH]; intros seen seen' E; [reflexivity|].
  cbn [uniqAcc]. fold (has seen y). fold (has seen' y). rewrite (E y).
  destruct (has seen' y); [apply IH; exact E|].
  f_equal. apply IH. intro x. unfold has. cbn [existsb]. fold (has seen x).
  fold (has seen' x). rewrite (E x). reflexivity.
Qed.

Lemma NoDup_uniqAcc :
  forall xs seen, NoDup (uniqAcc seen xs).
Proof.
  induction xs as [|y xs IH]; intro seen; cbn [uniqAcc]; [constructor|].
  destruct (existsb (String.eqb y) seen); [apply IH|].
  constructor; [|apply IH].
  intro H. apply In_uniqAcc in H as [_ N]. apply N. left. reflexivity.
Qed.

Lemma parseInclude_spec :
  forall parts acc,
    parseInclude parts acc
    = if forallb nonBlank parts
      then Ok (acc ++ uniqAcc acc (filter ownKey (map trim parts)))
      else Throw "Empty relation name in include list".
Proof.
  induction parts as [|p parts IH]; intro acc.
  - simpl. rewrite app_nil_r. reflexivity.
  - cbn [parseInclude forallb map filter]. unfold nonBlank at 1.
    destruct (isEmpty (trim p)); [reflexivity|]. cbn [negb andb].
    unfold ownKey at 1.
    destruct (String.eqb (trim p) "__proto__"); cbn [negb orb]; [apply IH|].
    cbn [uniqAcc]. fold (has acc (trim p)). rewrite IH.
    destruct (forallb nonBlank parts); [|destruct (has acc (trim p)); reflexivity].
    destruct (has acc (trim p)) eqn:H; [reflexivity|].
    rewrite <- app_assoc. cbn [app]. do 3 f_equal.
    apply uniqAcc_ext. intro x. unfold has. rewrite existsb_app. cbn [existsb].
    rewrite orb_false_r. apply orb_comm.
Qed.

Lemma In_insertIndex :
  forall x l k, In k (insertIndex x l) <-> k = x \/ In k l.
Proof.
  induction l as [|y l IH]; intro k; cbn [insertIndex].
  - simpl. intuition.
  - destruct (digitsValue x 0 <=? digitsValue y 0)%N; simpl; [intuition|].
    rewrite IH. intuition.
Qed.

Lemma In_sortIndex :
  forall l k, In k (fold_right insertIndex [] l) <-> In k l.
Proof.
  induction l as [|x l IH]; intro k; [reflexivity|].
  cbn [fold_right]. rewrite In_insertIndex, IH. simpl. intuition.
Qed.

Lemma NoDup_insertIndex :
  forall x l, NoDup l -> ~ In x l -> NoDup (insertIndex x l).
Proof.
  induction l as [|y l IH]; intros ND N; cbn [insertIndex].
  - constructor; [intros []|constructor].
  - destruct (digitsValue x 0 <=? digitsValue y 0)%N;
      [constructor; assumption|].
    inversion ND as [|? ? Ny NDl]; subst. constructor.
    + rewrite In_insertIndex. intros [->|H]; [apply N; left; reflexivity|].
      contradiction.
    + apply IH; [exact NDl|]. intro H. apply N. right. exact H.
Qed.

Lemma NoDup_sortIndex :
  forall l, NoDup l -> NoDup (fold_right insertIndex [] l).
Proof.
  induction l as [|x l IH]; intro ND; [constructor|].
  inversion ND as [|? ? Nx NDl]; subst. cbn [fold_right].
  apply NoDup_insertIndex; [apply IH; exact NDl|].
  rewrite In_sortIndex. exact Nx.
Qed.

(** [Object.keys] lists the own keys, each once. *)
Lemma In_objectKeys :
  forall l k, In k (objectKeys l) <-> In k l.
Proof.
  intros l k. unfold objectKeys.
  rewrite in_app_iff, In_sortIndex, !filter_In.
  destruct (isArrayIndex k); cbn [negb]; intuition discriminate.
Qed.

Lemma NoDup_objectKeys :
  forall l, NoDup l -> NoDup (objectKeys l).
Proof.
  intros l ND. unfold objectKeys. apply NoDup_app.
  - apply NoDup_sortIndex, NoDup_filter, ND.
  - apply NoDup_filter, ND.
  - intros k H1 H2. apply (proj1 (In_sortIndex _ _)) in H1.
    apply (proj1 (filter_In _ _ _)) in H1 as [_ A].
    apply (proj1 (filter_In _ _ _)) in H2 as [_ B].
    rewrite A in B. discriminate.
Qed.

(** Without array indices among the keys, [Object.keys] is the order of
    creation. *)
Lemma objectKeys_plain :
  forall l,
    forallb (fun k => negb (isArrayIndex k)) l = true -> objectKeys l = l.
Proof.
  intros l H. unfold objectKeys.
  assert (F : filter isArrayIndex l = []).
  { induction l as [|x l IH]; [reflexivity|].
    cbn [forallb] in H. apply andb_true_iff in H as [Hx Hl].
    apply negb_true_iff in Hx. cbn [filter]. rewrite Hx. apply IH. exact Hl. }
  rewrite F. cbn [fold_right app].
  induction l as [|x l IH]; [reflexivity|].
  cbn [forallb] in H. apply andb_true_iff in H as [Hx Hl].
  cbn [filter] in *. rewrite Hx.
  apply negb_true_iff in Hx. rewrite Hx in F.
  f_equal. apply IH; assumption.
Qed.

(** X4 -- the include clause fails exactly when some part between commas is
    blank.  Otherwise the keys that it creates are the trimmed parts other
    than [__proto__] (the assignment to that name creates no key), each
    once, in the order of their first appearance; [Object.keys] of the
    include object lists exactly these names, each once, and lists them in
    that order when none of them is an array index. *)
Theorem X4_include_keys :
  forall parts,
    parseInclude parts []
    = (if forallb nonBlank parts
       then Ok (uniq (filter ownKey (map trim parts)))
       else Throw "Empty relation name in include list")
    /\ NoDup (objectKeys (uniq (filter ownKey (map trim parts))))
    /\ (forall k,
          In k (objectKeys (uniq (filter ownKey (map trim parts))))
          <-> In k (map trim parts) /\ k <> "__proto__")
    /\ (forallb (fun k => negb (isArrayIndex k))
                (uniq (filter ownKey (map trim parts))) = true ->
        objectKeys (uniq (filter ownKey (map trim parts)))
        = uniq (filter ownKey (map trim parts))).
Proof.
  intro parts. split; [apply parseInclude_spec|].
  split; [apply NoDup_objectKeys, NoDup_uniqAcc|].
  split; [|apply objectKeys_plain].
  intro k. rewrite In_objectKeys, In_uniq, filter_In. unfold ownKey.
  split.
  - intros [I N]. split; [exact I|]. intros ->. discriminate N.
  - intros [I N]. split; [exact I|].
    destruct (String.eqb k "__proto__") eqn:E; [|reflexivity].
    apply String.eqb_eq in E. contradiction.
Qed.

Lemma X4_witness :
  parseInclude (split "posts, __proto__ ,comments,posts" ","%char) []
  = Ok ["posts"; "comments"]
  /\ parseInclude (split "posts,,comments" ","%char) []
     = Throw "Empty relation name in include list"
  /\ objectKeys ["posts"; "comments"] = ["posts"; "comments"].
Proof.
  split; [|split].
  - exact (proj1 (X4_include_keys
                    (split "posts, __proto__ ,comments,posts" ","%char))).
  - exact (proj1 (X4_include_keys (split "posts,,comments" ","%char))).
  - exact (proj2 (proj2 (proj2 (X4_include_keys
             (split "posts,comments" ","%char)))) eq_refl).
Defined.

(** The creation order and the order of [Object.keys] differ when a name is
    an array index. *)
Example include_array_index_first :
  parsePlainText "include:b,10,__proto__,9" None
  = Ok (mkQuery None None None (Some ["9"; "10"; "b"]) None).
Proof. vm_compute; reflexivity. Qed.

(** The pieces of [split(/\s+/)] hold no whitespace. *)
Lemma splitWsFrom_solid :
  forall s cur inWs,
    allChars notSpace cur = true ->
    Forall (fun t => allChars notSpace t = true) (splitWsFrom s cur inWs).
Proof.
  induction s as [|c s IH]; intros cur inWs H; cbn [splitWsFrom].
  - constructor; [exact H|constructor].
  - destruct (isSpace c) eqn:C.
    + destruct inWs; [apply IH; exact H|].
      constructor; [exact H|]. apply IH. reflexivity.
    + apply IH. rewrite allChars_snoc, H. unfold notSpace. rewrite C.
      reflexivity.
Qed.

(** The first piece of a text that starts with a character that is no
    whitespace is not empty. *)
Lemma splitWsFrom_head :
  forall s cur inWs,
    cur <> EmptyString -> hd EmptyString (splitWsFrom s cur inWs) <> EmptyString.
Proof.
  induction s as [|c s IH]; intros cur inWs H; cbn [splitWsFrom].
  - exact H.
  - destruct (isSpace c).
    + destruct inWs; [apply IH; exact H|exact H].
    + apply IH. destruct cur; discriminate.
Qed.

Lemma parseOrderTerm_ok :
  forall part t, parseOrderTerm part = Ok t -> fieldOk t.
Proof.
  intros part t. unfold parseOrderTerm.
  destruct (isEmpty (trim part)) eqn:E; [discriminate|]. cbv zeta.
  fold (isDirection (hd EmptyString (splitWs (trim part)))).
  destruct (isDirection _) eqn:D; [discriminate|].
  assert (F : fieldOk (mkOrderTerm (hd EmptyString (splitWs (trim part))) Asc)
              /\ fieldOk (mkOrderTerm (hd EmptyString (splitWs (trim part))) Desc)).
  { pose proof (trim_head part) as St.
    destruct (trim part) as [|c r] eqn:T; [discriminate E|]. simpl in St.
    unfold fieldOk. cbn [term_field]. rewrite D.
    unfold splitWs. cbn [splitWsFrom]. rewrite St.
    pose proof (splitWsFrom_solid r (EmptyString ^^ str1 c) false) as S.
    pose proof (splitWsFrom_head r (EmptyString ^^ str1 c) false) as N.
    assert (Hc : allChars notSpace (EmptyString ^^ str1 c) = true)
      by (simpl; unfold notSpace; rewrite St; reflexivity).
    specialize (S Hc). specialize (N ltac:(discriminate)).
    destruct (splitWsFrom r (EmptyString ^^ str1 c) false) as [|t0 ts];
      [exfalso; apply N; reflexivity|].
    apply Forall_inv in S. simpl in *.
    unfold splitWs in D. cbn [splitWsFrom] in D. rewrite St in D.
    repeat split; assumption. }
  destruct F as [Fa Fd].
  destruct (splitWs (trim part)) as [|t0 [|t1 ts]];
    try (intro H; injection H as <-; exact Fa).
  destruct (String.eqb (toLowerCase t1) "asc");
    [intro H; injection H as <-; exact Fa|].
  destruct (String.eqb (toLowerCase t1) "desc");
    [intro H; injection H as <-; exact Fd|discriminate].
Qed.

Lemma parseOrderTerms_ok :
  forall parts acc terms,
    parseOrderTerms parts acc = Ok terms ->
    Forall fieldOk acc ->
    List.length terms = List.length acc + List.length parts
    /\ Forall fieldOk terms.
Proof.
  induction parts as [|p parts IH]; intros acc terms; cbn [parseOrderTerms].
  - intros H F. injection H as <-. split; [simpl; lia|exact F].
  - destruct (parseOrderTerm p) as [t| |] eqn:E; try discriminate.
    intros H F. apply IH in H.
    + destruct H as [L G]. split; [|exact G].
      rewrite L, length_app. simpl. lia.
    + apply Forall_app. split; [exact F|].
      constructor; [|constructor]. eapply parseOrderTerm_ok; exact E.
Qed.

(** X5 -- an order clause that parses has one term for each part between
    commas, and the field of every term is a non-empty word without
    whitespace that is not [asc] or [desc] in any case. *)
Theorem X5_order_terms :
  forall parts terms,
    parseOrderTerms parts [] = Ok terms ->
    List.length terms = List.length parts /\ Forall fieldOk terms.
Proof.
  intros parts terms H.
  destruct (parseOrderTerms_ok parts [] terms H (Forall_nil _)) as [L F].
  split; [exact L|exact F].
Qed.

Lemma X5_witness :
  List.length [mkOrderTerm "price" Desc; mkOrderTerm "name" Asc] = 2
  /\ Forall fieldOk [mkOrderTerm "price" Desc; mkOrderTerm "name" Asc].
Proof.
  apply (X5_order_terms (split "price  DESC, name" ","%char)).
  vm_compute; reflexivity.
Defined.

End ClauseValues.

(** *** The keys of the clauses *)

Section ClauseKeys.

Import JS Parse Spec Props.

Ltac clause_branches :=
  repeat match goal with
  | |- context [if ?b then _ else _] =>
      let E := fresh "E" in destruct b eqn:E; try discriminate
  | |- context [match parseLimit ?v with _ => _ end] =>
      destruct (parseLimit v); try discriminate
  | |- context [match parseOrderTerms ?v ?a with _ => _ end] =>
      destruct (parseOrderTerms v a); try discriminate
  | |- context [match parseInclude ?v ?a with _ => _ end] =>
      destruct (parseInclude v a); try discriminate
  | |- context [match unwrapWhere ?v with _ => _ end] =>
      destruct (unwrapWhere v); try discriminate
  | |- context [match parseWhere ?v with _ => _ end] =>
      destruct (parseWhere v); try discriminate
  end.

(** A clause that is accepted has one of the five keys, which the query did
    not carry before and carries afterwards. *)
Lemma parseClause_key :
  forall out clause out',
    parseClause out clause = Ok out' ->
    exists k,
      clauseKey clause = Some k
      /\ In k KEYS
      /\ ~ In k (setKeys out)
      /\ (forall k', In k' (setKeys out') <-> k' = k \/ In k' (setKeys out)).
Proof.
  intros [e l o i w] clause out'. unfold parseClause, clauseKey.
  destruct (indexOf clause ":"%char) as [colon|]; [|discriminate]. cbv zeta.
  set (key := toLowerCase (trim (slice clause 0 colon))).
  cbn [entity limit order include where_].
  destruct (String.eqb key "entity") eqn:K1;
    [apply String.eqb_eq in K1|destruct (String.eqb key "limit") eqn:K2;
    [apply String.eqb_eq in K2|destruct (String.eqb key "order") eqn:K3;
    [apply String.eqb_eq in K3|destruct (String.eqb key "include") eqn:K4;
    [apply String.eqb_eq in K4|destruct (String.eqb key "where") eqn:K5;
    [apply String.eqb_eq in K5|discriminate]]]]];
    clause_branches;
    intro H; injection H as <-; exists key; split; try reflexivity;
    match goal with K : key = _ |- _ => rewrite K end;
    destruct e, l, o, i, w; try discriminate;
    unfold setKeys, KEYS; cbn;
    (split; [tauto|]); (split; [intuition discriminate|]);
    intro k'; intuition (subst; auto).
Qed.

(** X6 -- when the clauses of a query are all accepted, their keys are
    pairwise distinct, each is one of the five keys, and the result carries
    exactly the keys of the clauses: a key that comes twice is an error. *)
Theorem X6_clause_keys_distinct :
  forall clauses rql,
    parseClauses clauses emptyQuery = Ok rql ->
    NoDup (map clauseKey clauses)
    /\ (forall k, In k (setKeys rql) <-> In (Some k) (map clauseKey clauses))
    /\ Forall (fun c => exists k, clauseKey c = Some k /\ In k KEYS) clauses
    /\ List.length clauses = List.length (setKeys rql).
Proof.
  intros clauses rql H.
  assert (G : forall cs out out',
             parseClauses cs out = Ok out' ->
             NoDup (map clauseKey cs)
             /\ (forall k, In k (setKeys out')
                           <-> In k (setKeys out) \/ In (Some k) (map clauseKey cs))
             /\ (forall k, In k (setKeys out) -> ~ In (Some k) (map clauseKey cs))
             /\ Forall (fun c => exists k, clauseKey c = Some k /\ In k KEYS) cs).
  { induction cs as [|c cs IH]; intros out out'; cbn [parseClauses map].
    - intro E. injection E as <-.
      repeat split; try constructor; simpl; tauto.
    - destruct (parseClause out c) as [o| |] eqn:E; try discriminate.
      intro R. destruct (parseClause_key _ _ _ E) as [k [Ck [Kin [Nk Sk]]]].
      destruct (IH _ _ R) as [ND [St [Dj Fa]]]. rewrite Ck.
      split; [|split; [|split]].
      + constructor; [|exact ND]. apply (Dj k). apply Sk. left. reflexivity.
      + intro k'. rewrite St, Sk. simpl. split.
        * intros [[->|?]|?]; auto.
        * intros [?|[E'|?]]; auto. injection E' as <-. auto.
      + intros k' I' [E'|I''].
        * injection E' as <-. contradiction.
        * apply (Dj k'); [apply Sk; right; exact I'|exact I''].
      + constructor; [exists k; split; [exact Ck|exact Kin]|exact Fa]. }
  destruct (G _ _ _ H) as [ND [St [_ Fa]]].
  split; [exact ND|]. split; [|split; [exact Fa|]].
  - intro k. rewrite St. simpl. tauto.
  - assert (L : forall cs out out',
               parseClauses cs out = Ok out' ->
               List.length (setKeys out') = List.length (setKeys out) + List.length cs).
    { clear. induction cs as [|c cs IH]; intros out out'; cbn [parseClauses].
      - intro E. injection E as <-. simpl. lia.
      - destruct (parseClause out c) as [o| |] eqn:E; try discriminate.
        intro R. rewrite (IH _ _ R). simpl.
        enough (List.length (setKeys o) = S (List.length (setKeys out))) by lia.
        clear R IH. revert E. destruct out as [e l o' i w].
        unfold parseClause.
        destruct (indexOf c ":"%char) as [colon|]; [|discriminate]. cbv zeta.
        cbn [entity limit order include where_].
        clause_branches; intro H; injection H as <-;
          destruct e, l, o', i, w; try discriminate; reflexivity. }
    rewrite (L _ _ _ H). reflexivity.
Qed.

Lemma X6_witness :
  NoDup (map clauseKey ["entity:users"; "LIMIT:5"; "where:(a=1)"])
  /\ (forall k,
        In k (setKeys (mkQuery (Some "users") (Some 5%N) None None
                         (Some (Comparison "a" "=" (VNumber (NInt 1))))))
        <-> In (Some k) (map clauseKey ["entity:users"; "LIMIT:5"; "where:(a=1)"]))
  /\ Forall (fun c => exists k, clauseKey c = Some k /\ In k KEYS)
            ["entity:users"; "LIMIT:5"; "where:(a=1)"]
  /\ List.length ["entity:users"; "LIMIT:5"; "where:(a=1)"]
     = List.length (setKeys (mkQuery (Some "users") (Some 5%N) None None
                               (Some (Comparison "a" "=" (VNumber (NInt 1)))))).
Proof.
  apply X6_clause_keys_distinct. vm_compute; reflexivity.
Defined.

Lemma orElseOpt_none : forall (A : Type) (a : option A), orElseOpt a None = a.
Proof. intros A [a|]; reflexivity. Qed.

(** A clause is accepted after [out] exactly when it is accepted alone and
    brings a clause that [out] does not carry; the result is the merge. *)
Lemma parseClause_merge :
  forall out clause out',
    parseClause out clause = Ok out'
    <-> exists one,
          parseClause emptyQuery clause = Ok one
          /\ disjoint out one = true /\ out' = merge out one.
Proof.
  intros [e l o i w] clause out'. unfold parseClause.
  destruct (indexOf clause ":"%char) as [colon|];
    [|split; [discriminate|intros [one [H _]]; discriminate]].
  cbv zeta. cbn [entity limit order include where_ emptyQuery isSome].
  unfold merge, disjoint.
  split.
  - clause_branches; intro H; injection H as <-;
      eexists; (split; [reflexivity|]);
      cbn [entity limit order include where_ isSome];
      destruct e, l, o, i, w; try discriminate; split; reflexivity.
  - intros [one [H [D M]]]. subst out'. revert H D.
    clause_branches; intro H; injection H as <-;
      cbn [entity limit order include where_ isSome];
      destruct e, l, o, i, w; try discriminate; reflexivity.
Qed.

Lemma orElseOpt_swap :
  forall (A : Type) (a b c : option A),
    negb (isSome a && isSome b) = true ->
    negb (isSome (orElseOpt a b) && isSome c) = true ->
    negb (isSome a && isSome c) = true
    /\ negb (isSome (orElseOpt a c) && isSome b) = true
    /\ orElseOpt (orElseOpt a c) b = orElseOpt (orElseOpt a b) c.
Proof.
  intros A [a|] [b|] [c|]; cbn; intros; try discriminate; auto.
Qed.

Lemma merge_swap :
  forall a b c,
    disjoint a b = true ->
    disjoint (merge a b) c = true ->
    disjoint a c = true
    /\ disjoint (merge a c) b = true
    /\ merge (merge a c) b = merge (merge a b) c.
Proof.
  intros [e1 l1 o1 i1 w1] [e2 l2 o2 i2 w2] [e3 l3 o3 i3 w3].
  unfold disjoint, merge. cbn [entity limit order include where_].
  rewrite !andb_true_iff.
  intros [[[[H1 H2] H3] H4] H5] [[[[G1 G2] G3] G4] G5].
  destruct (orElseOpt_swap _ _ _ _ H1 G1) as [A1 [B1 C1]].
  destruct (orElseOpt_swap _ _ _ _ H2 G2) as [A2 [B2 C2]].
  destruct (orElseOpt_swap _ _ _ _ H3 G3) as [A3 [B3 C3]].
  destruct (orElseOpt_swap _ _ _ _ H4 G4) as [A4 [B4 C4]].
  destruct (orElseOpt_swap _ _ _ _ H5 G5) as [A5 [B5 C5]].
  rewrite A1, A2, A3, A4, A5, B1, B2, B3, B4, B5, C1, C2, C3, C4, C5.
  repeat split.
Qed.

(** Two clauses that are accepted one after the other are accepted in the
    other order, with the same result. *)
Lemma parseClause_swap :
  forall out c1 c2 o1 o2,
    parseClause out c1 = Ok o1 ->
    parseClause o1 c2 = Ok o2 ->
    exists o1', parseClause out c2 = Ok o1' /\ parseClause o1' c1 = Ok o2.
Proof.
  intros out c1 c2 o1 o2 H1 H2.
  apply parseClause_merge in H1. destruct H1 as [one1 [P1 [D1 ->]]].
  apply parseClause_merge in H2. destruct H2 as [one2 [P2 [D2 ->]]].
  destruct (merge_swap _ _ _ D1 D2) as [Da [Db M]].
  exists (merge out one2). split.
  - apply parseClause_merge. exists one2. auto.
  - apply parseClause_merge. exists one1. auto.
Qed.

(** X7 -- the order of the clauses of a query does not matter: when a list
    of clauses is accepted, every rearrangement of it is accepted, with the
    same query as result. *)
Theorem X7_clause_order_is_irrelevant :
  forall clauses clauses' out rql,
    Permutation clauses clauses' ->
    parseClauses clauses out = Ok rql ->
    parseClauses clauses' out = Ok rql.
Proof.
  intros clauses clauses' out rql P. revert out rql.
  induction P as [|c l l' P IH|c2 c1 l|l l' l'' P1 IH1 P2 IH2];
    intros out rql.
  - auto.
  - cbn [parseClauses].
    destruct (parseClause out c); try discriminate. apply IH.
  - cbn [parseClauses].
    destruct (parseClause out c1) as [o1| |] eqn:E1; try discriminate.
    destruct (parseClause o1 c2) as [o2| |] eqn:E2; try discriminate.
    intro R. destruct (parseClause_swap _ _ _ _ _ E1 E2) as [o1' [F1 F2]].
    rewrite F1, F2. exact R.
  - intro R. apply IH2, IH1, R.
Qed.

Lemma X7_witness :
  parseClauses ["where:(a=1)"; "entity:users"; "limit:5"] emptyQuery
  = Ok (mkQuery (Some "users") (Some 5%N) None None
          (Some (Comparison "a" "=" (VNumber (NInt 1))))).
Proof.
  refine (X7_clause_order_is_irrelevant
            ["entity:users"; "limit:5"; "where:(a=1)"]
            ["where:(a=1)"; "entity:users"; "limit:5"] emptyQuery _ _ _).
  - apply Permutation_sym.
    apply (Permutation_cons_app ["entity:users"; "limit:5"] [] "where:(a=1)").
    apply Permutation_refl.
  - vm_compute; reflexivity.
Defined.

End ClauseKeys.

(** *** What the validator accepts *)

Section ValidatorFacts.

Import JS Parse Spec Props.

(** Induction on a where tree, with the property for the children of a
    node. *)
Lemma RQLCondition_nested_ind :
  forall P : RQLCondition -> Prop,
    (forall f o v, P (Comparison f o v)) ->
    (forall cs, Forall P cs -> P (And cs)) ->
    (forall cs, Forall P cs -> P (Or cs)) ->
    forall c, P c.
Proof.
  intros P Hc Ha Ho. fix IH 1. intros [f o v|cs|cs].
  - apply Hc.
  - apply Ha. induction cs as [|c cs IHcs]; constructor; [apply IH|exact IHcs].
  - apply Ho. induction cs as [|c cs IHcs]; constructor; [apply IH|exact IHcs].
Qed.

(** The names that [collectFields] reports are the fields of the tree that
    the set of allowed fields does not hold. *)
Lemma collectFields_spec :
  forall allowed cond f,
    In f (collectFields allowed cond)
    <-> In f (fieldsOf cond) /\ has allowed f = false.
Proof.
  intros allowed cond. induction cond as [fld o v|cs IH|cs IH]
    using RQLCondition_nested_ind; intro f.
  - cbn [collectFields fieldsOf]. destruct (has allowed fld) eqn:E; simpl.
    + split; [tauto|]. intros [[<-|[]] N]. congruence.
    + split.
      * intros [<-|[]]. auto.
      * intros [[<-|[]] _]. auto.
  - cbn [collectFields fieldsOf]. rewrite !in_flat_map. split.
    + intros [c [Ic If]]. rewrite Forall_forall in IH.
      apply (proj1 (IH c Ic f)) in If as [F N]. split; [exists c; auto|exact N].
    + intros [[c [Ic If]] N]. exists c. split; [exact Ic|].
      rewrite Forall_forall in IH. apply (IH c Ic). auto.
  - cbn [collectFields fieldsOf]. rewrite !in_flat_map. split.
    + intros [c [Ic If]]. rewrite Forall_forall in IH.
      apply (proj1 (IH c Ic f)) in If as [F N]. split; [exists c; auto|exact N].
    + intros [[c [Ic If]] N]. exists c. split; [exact Ic|].
      rewrite Forall_forall in IH. apply (IH c Ic). auto.
Qed.

Lemma uniq_nil : forall xs, uniq xs = [] <-> xs = [].
Proof.
  intros [|x xs]; [split; reflexivity|]. split; discriminate.
Qed.

Lemma has_uniq : forall xs x, has (uniq xs) x = has xs x.
Proof.
  intros xs x. destruct (has xs x) eqn:E.
  - apply has_In. apply In_uniq. apply has_In. exact E.
  - destruct (has (uniq xs) x) eqn:E'; [|reflexivity].
    apply (proj1 (has_In _ _)) in E'. apply (proj1 (In_uniq _ _)) in E'.
    apply (proj2 (has_In _ _)) in E'. congruence.
Qed.

Lemma checkFields_ok :
  forall e names cond,
    checkFields e (uniq names) cond = Ok tt <-> incl (fieldsOf cond) names.
Proof.
  intros e names cond. unfold checkFields. cbv zeta.
  destruct (uniq (collectFields (uniq names) cond)) as [|u us] eqn:U.
  - split; [|reflexivity]. intros _ f If.
    apply (proj1 (uniq_nil _)) in U.
    destruct (has (uniq names) f) eqn:H.
    + rewrite has_uniq in H. apply has_In. exact H.
    + exfalso. assert (I' : In f (collectFields (uniq names) cond))
        by (apply collectFields_spec; auto).
      rewrite U in I'. exact I'.
  - split; [discriminate|]. intro Inc. exfalso.
    assert (I' : In u (uniq (collectFields (uniq names) cond)))
      by (rewrite U; left; reflexivity).
    apply (proj1 (In_uniq _ _)) in I'.
    apply (proj1 (collectFields_spec _ _ _)) in I' as [If N].
    apply Inc in If. apply (proj2 (has_In _ _)) in If.
    rewrite has_uniq in N. congruence.
Qed.

Lemma checkRelations_ok :
  forall e names keys,
    checkRelations e (uniq names) keys = Ok tt <-> incl keys names.
Proof.
  intros e names keys. unfold checkRelations.
  destruct (find (fun rel => negb (has (uniq names) rel)) keys) as [rel|] eqn:F.
  - split; [discriminate|]. intro Inc. exfalso.
    apply find_some in F as [Ik N]. apply negb_true_iff in N.
    rewrite has_uniq in N. apply Inc in Ik. apply (proj2 (has_In _ _)) in Ik.
    congruence.
  - split; [|reflexivity]. intros _ k Ik.
    pose proof (find_none _ _ F k Ik) as N. apply negb_false_iff in N.
    rewrite has_uniq in N. apply has_In. exact N.
Qed.

(** X8 -- what the validator accepts.  With a schema that lists no entity,
    or a query without entity, every query passes.  Otherwise the query
    passes exactly when its entity is the name of an entity of the schema
    (or the empty name, and then nothing more is checked), every key of its
    include is a relation of the first entity of that name and, when that
    entity has a fields map, every field compared in the where tree is a key
    of the map. *)
Theorem X8_validator_accepts_iff :
  forall rql schema,
    validateAgainstSchema rql schema = Ok tt <-> accepts rql schema.
Proof.
  intros [e l o i w] [ents]. unfold validateAgainstSchema, accepts.
  cbn [Schema.entities entity include where_].
  destruct ents as [|d0 ds]; [split; auto|]. set (ents := d0 :: ds).
  cbv zeta. unfold includeKeys. cbn [include].
  destruct e as [e|]; [|split; auto].
  destruct (find (fun d => String.eqb (Schema.name d) e) ents) as [d|] eqn:F.
  - assert (K : has (uniq (map Schema.name ents)) e = true).
    { apply find_some in F as [Id E]. apply String.eqb_eq in E.
      rewrite has_uniq. apply has_In. rewrite <- E. apply in_map. exact Id. }
    rewrite K, andb_false_r.
    assert (R : match i with
                | Some (k :: ks) =>
                    checkRelations e
                      (uniq match Schema.relations d with
                            | Some rs => rs
                            | None => []
                            end) (k :: ks)
                | _ => Ok tt
                end = Ok tt
                <-> incl match i with Some ks => ks | None => [] end
                         (relationsOf d)).
    { destruct i as [[|k ks]|].
      - split; [intros _ x []|reflexivity].
      - apply checkRelations_ok.
      - split; [intros _ x []|reflexivity]. }
    destruct (match i with
              | Some (k :: ks) => _
              | _ => Ok tt
              end) as [[]|m|].
    + destruct w as [cond|]; [destruct (Schema.fields d) as [fs|]|].
      * rewrite checkFields_ok. split.
        -- intro H. right. split; [apply R; reflexivity|exact H].
        -- intros [H|[_ H]]; [discriminate|exact H].
      * split; [intros _; right; split; [apply R; reflexivity|exact I]|reflexivity].
      * split; [intros _; right; split; [apply R; reflexivity|exact I]|reflexivity].
    + split; [discriminate|]. intros [H|[H _]]; [discriminate|].
      apply R in H. discriminate.
    + split; [discriminate|]. intros [H|[H _]]; [discriminate|].
      apply R in H. discriminate.
  - destruct e as [|c e].
    + cbn [isEmpty negb andb]. split; [intros _; right; reflexivity|reflexivity].
    + cbn [isEmpty negb andb].
      assert (K : has (uniq (map Schema.name ents)) (String c e) = false).
      { rewrite has_uniq. destruct (has (map Schema.name ents) (String c e)) eqn:H;
          [|reflexivity].
        apply (proj1 (has_In _ _)) in H.
        apply (proj1 (in_map_iff _ _ _)) in H as [d [E Id]].
        pose proof (find_none _ _ F d Id) as N. cbv beta in N.
        rewrite E, String.eqb_refl in N. discriminate. }
      rewrite K. cbn [negb]. split; [discriminate|].
      intros [H|H]; discriminate.
Qed.

End ValidatorFacts.

(** *** The operators of the where tree *)

Section GrammarInvariant.

Import JS Parse Spec Props.

Variable tokens : list WhereToken.
Variable P : RQLCondition -> Prop.

Hypothesis comparison_P :
  forall pos c pos', parseComparison tokens pos = Ok (Some c, pos') -> P c.
Hypothesis or_P :
  forall l r, P l -> P r -> P (Or (orChildren l ++ orChildren r)).
Hypothesis and_P :
  forall terms, Forall P terms -> P (And (flat_map andChildren terms)).

(** A property of the comparisons that the two kinds of node keep holds of
    every tree that the grammar returns. *)
Lemma grammar_invariant :
  forall fuel,
    (forall pos c pos', parseOr tokens fuel pos = Ok (Some c, pos') -> P c)
    /\ (forall pos c pos', parseAnd tokens fuel pos = Ok (Some c, pos') -> P c)
    /\ (forall terms pos terms' pos',
          parseAndLoop tokens fuel terms pos = Ok (terms', pos') ->
          Forall P terms -> Forall P terms')
    /\ (forall pos c pos',
          parsePrimary tokens fuel pos = Ok (Some c, pos') -> P c).
Proof.
  induction fuel as [|fuel [IHor [IHand [IHloop IHprim]]]].
  - repeat split; intros; discriminate.
  - split; [|split; [|split]].
    + intros pos c pos'. rewrite parseOr_S.
      destruct (parseAnd tokens fuel pos) as [[l p]| |] eqn:EA; try discriminate.
      destruct (nth_error tokens p) as [t|];
        [|intro H; injection H as -> _; eapply IHand; exact EA].
      destruct (isKeyword t "or" "OR");
        [|intro H; injection H as -> _; eapply IHand; exact EA].
      destruct l as [l|]; [|discriminate].
      destruct (parseOr tokens fuel (S p)) as [[[r0|] p0]| |] eqn:EO;
        try discriminate.
      intro H; injection H as <- _.
      apply or_P; [eapply IHand; exact EA|eapply IHor; exact EO].
    + intros pos c pos'. rewrite parseAnd_S.
      destruct (parsePrimary tokens fuel pos) as [[[term|] p]| |] eqn:EP;
        try discriminate.
      destruct (parseAndLoop tokens fuel [term] p) as [[terms p0]| |] eqn:EL;
        try discriminate.
      assert (F : Forall P terms).
      { eapply IHloop; [exact EL|]. constructor; [|constructor].
        eapply IHprim; exact EP. }
      destruct terms as [|t [|t' terms]].
      * intro H; injection H as <- _. apply (and_P []). constructor.
      * intro H; injection H as <- _. inversion F; assumption.
      * intro H; injection H as <- _. apply (and_P (t :: t' :: terms)). exact F.
    + intros terms pos terms' pos'. rewrite parseAndLoop_S.
      destruct (nth_error tokens pos) as [t|];
        [|intros H F; injection H as <- _; exact F].
      destruct (isKeyword t "or" "OR");
        [intros H F; injection H as <- _; exact F|].
      destruct (isKeyword t "and" "AND").
      * destruct (parsePrimary tokens fuel (S pos)) as [[[term|] p]| |] eqn:EP;
          try discriminate.
        intros H F. eapply IHloop; [exact H|].
        apply Forall_app. split; [exact F|].
        constructor; [eapply IHprim; exact EP|constructor].
      * destruct (parsePrimary tokens fuel pos) as [[[term|] p]| |] eqn:EP;
          try discriminate.
        -- intros H F. eapply IHloop; [exact H|].
           apply Forall_app. split; [exact F|].
           constructor; [eapply IHprim; exact EP|constructor].
        -- intros H F; injection H as <- _; exact F.
    + intros pos c pos'. rewrite parsePrimary_S.
      destruct (nth_error tokens pos) as [t|]; [|discriminate].
      destruct (isParen t "(").
      * destruct (parseOr tokens fuel (S pos)) as [[inner p]| |] eqn:EO;
          try discriminate.
        destruct (nth_error tokens p) as [t'|]; [|discriminate].
        destruct (isParen t' ")"); [|discriminate].
        destruct inner as [c0|]; [|discriminate].
        intro H; injection H as <- _. eapply IHor; exact EO.
      * apply comparison_P.
Qed.

End GrammarInvariant.

Section Operators.

Import JS Parse Spec Props.

Lemma opsOf_andChildren :
  forall t, flat_map opsOf (andChildren t) = opsOf t.
Proof. intros [f o v|cs|cs]; cbn; try reflexivity; apply app_nil_r. Qed.

Lemma opsOf_orChildren :
  forall t, flat_map opsOf (orChildren t) = opsOf t.
Proof. intros [f o v|cs|cs]; cbn; try reflexivity; apply app_nil_r. Qed.

Lemma opsValid_and :
  forall terms,
    Forall opsValid terms -> opsValid (And (flat_map andChildren terms)).
Proof.
  intros terms F. unfold opsValid. cbn [opsOf].
  induction F as [|t terms Ht F IH]; [constructor|].
  cbn [flat_map]. rewrite flat_map_app, opsOf_andChildren.
  apply Forall_app. split; assumption.
Qed.

Lemma opsValid_or :
  forall l r,
    opsValid l -> opsValid r -> opsValid (Or (orChildren l ++ orChildren r)).
Proof.
  intros l r Hl Hr. unfold opsValid. cbn [opsOf].
  rewrite flat_map_app, !opsOf_orChildren. apply Forall_app. split; assumption.
Qed.

(** An operator token holds an operator found by [matchOp]. *)
Lemma matchOp_In : forall s i op, matchOp s i = Some op -> In op OPS.
Proof.
  intros s i op H. unfold matchOp in H. apply find_some in H as [H _]. exact H.
Qed.

Lemma classifyWord_opToken : forall raw, opToken (classifyWord raw).
Proof.
  intro raw. unfold classifyWord. cbv zeta.
  repeat match goal with
  | |- context [if ?b then _ else _] => destruct b
  end; exact I.
Qed.

Lemma tokenizeLoop_opTokens :
  forall fuel s i tokens out,
    tokenizeLoop fuel s i tokens = Ok out ->
    Forall opToken tokens -> Forall opToken out.
Proof.
  induction fuel as [|fuel IH]; intros s i tokens out; [discriminate|].
  rewrite tokenizeLoop_unfold.
  destruct (String.length s <=? i); [intros H F; injection H as <-; exact F|].
  cbv zeta.
  destruct (String.length s <=? skipWs s i);
    [intros H F; injection H as <-; exact F|].
  assert (G : forall t, opToken t -> Forall opToken tokens ->
                        Forall opToken (tokens ++ [t])).
  { intros t Ht F. apply Forall_app. split; [exact F|].
    constructor; [exact Ht|constructor]. }
  destruct (charIs s (skipWs s i) "("%char);
    [intros H F; eapply IH; [exact H|apply G; [exact I|exact F]]|].
  destruct (charIs s (skipWs s i) ")"%char);
    [intros H F; eapply IH; [exact H|apply G; [exact I|exact F]]|].
  destruct (charIs s (skipWs s i) dquote).
  - destruct (scanString _ _ _) as [[j val] [|]]; [|discriminate].
    intros H F; eapply IH; [exact H|apply G; [exact I|exact F]].
  - destruct (matchOp s (skipWs s i)) as [op|] eqn:M.
    + intros H F; eapply IH; [exact H|apply G; [|exact F]].
      eapply matchOp_In; exact M.
    + destruct (isEmpty _); [discriminate|].
      intros H F; eapply IH; [exact H|apply G; [|exact F]].
      apply classifyWord_opToken.
Qed.

Lemma parseComparison_opsValid :
  forall tokens pos c pos',
    Forall opToken tokens ->
    parseComparison tokens pos = Ok (Some c, pos') -> opsValid c.
Proof.
  intros tokens pos c pos' F. unfold parseComparison.
  destruct (nth_error tokens pos) as [t|]; [|discriminate].
  assert (E : forall v, nth_error tokens (S pos) = Some (TOp v) -> In v OPS).
  { intros v N. apply nth_error_In in N. rewrite Forall_forall in F.
    exact (F _ N). }
  assert (Eq : In "=" OPS) by (simpl; tauto).
  destruct t; try discriminate;
    (destruct (nth_error tokens (S pos)) as [[]|] eqn:N;
     match goal with
     | |- context [nth_error tokens ?p] =>
         destruct (nth_error tokens p) as [[]|]; try discriminate
     end;
     intro H; injection H as <- _; unfold opsValid; cbn [opsOf];
     (apply Forall_cons; [|apply Forall_nil]);
     first [exact Eq|apply E; reflexivity]).
Qed.

Lemma parseWhere_opsValid :
  forall inner c, parseWhere inner = Ok c -> opsValid c.
Proof.
  intros inner c. unfold parseWhere.
  destruct (tokenizeWhere inner) as [tokens| |] eqn:T; try discriminate.
  assert (F : Forall opToken tokens)
    by (eapply tokenizeLoop_opTokens; [exact T|constructor]).
  destruct tokens as [|t tokens]; [discriminate|].
  destruct (parseOr (t :: tokens) (grammarFuel (List.length (t :: tokens))) 0)
    as [[r p]| |] eqn:E; try discriminate.
  destruct (p <? List.length (t :: tokens)); [discriminate|].
  destruct r as [c'|]; [|discriminate].
  intro H; injection H as <-.
  refine (proj1 (grammar_invariant (t :: tokens) opsValid _ opsValid_or
                   opsValid_and _) _ _ _ E).
  intros pos c0 pos'. apply parseComparison_opsValid. exact F.
Qed.

Lemma parseClauses_opsValid :
  forall clauses out out' c,
    parseClauses clauses out = Ok out' ->
    (forall c0, where_ out = Some c0 -> opsValid c0) ->
    where_ out' = Some c -> opsValid c.
Proof.
  induction clauses as [|clause rest IH]; intros out out' c; cbn [parseClauses].
  - intros H G; injection H as <-; apply G.
  - destruct (parseClause out clause) as [o| |] eqn:E; try discriminate.
    intros H G. eapply IH; [exact H|]. clear H IH.
    revert E. unfold parseClause.
    destruct (indexOf clause ":"%char) as [colon|]; [|discriminate].
    repeat match goal with
    | |- context [if ?b then _ else _] => destruct b; try discriminate
    | |- context [match parseLimit ?v with _ => _ end] =>
        destruct (parseLimit v); try discriminate
    | |- context [match parseOrderTerms ?v ?a with _ => _ end] =>
        destruct (parseOrderTerms v a); try discriminate
    | |- context [match parseInclude ?v ?a with _ => _ end] =>
        destruct (parseInclude v a); try discriminate
    | |- context [match unwrapWhere ?v with _ => _ end] =>
        destruct (unwrapWhere v); try discriminate
    | |- context [match parseWhere ?v with _ => _ end] =>
        destruct (parseWhere v) eqn:EW; try discriminate
    end;
    intro H; injection H as <-; cbn [where_]; try exact G.
    intros c0 H0; injection H0 as <-. eapply parseWhere_opsValid; exact EW.
Qed.

(** X9 -- every comparison of the where tree of a parsed query has one of
    the six operators of OPS, whatever the input and the schema. *)
Theorem X9_operators_are_from_OPS :
  forall input schema rql c,
    parsePlainText input schema = Ok rql ->
    where_ rql = Some c ->
    opsValid c.
Proof.
  intros input schema rql c H W.
  assert (H' : parsePlainText input None = Ok rql).
  { revert H. unfold parsePlainText. cbv zeta.
    destruct (isEmpty (trim input)); [destruct schema; auto|].
    destruct (splitTopLevel (trim input)) as [cl| |]; try discriminate.
    destruct (parseClauses cl emptyQuery) as [q| |]; try discriminate.
    destruct schema as [sch|]; [|auto].
    destruct (validateAgainstSchema q sch); try discriminate.
    auto. }
  clear H. revert H'. unfold parsePlainText. cbv zeta.
  destruct (isEmpty (trim input)).
  - intro H; injection H as <-. discriminate W.
  - destruct (splitTopLevel (trim input)) as [clauses| |]; try discriminate.
    destruct (parseClauses clauses emptyQuery) as [out| |] eqn:E;
      try discriminate.
    intro H; injection H as <-.
    eapply parseClauses_opsValid; [exact E| |exact W].
    intros c0 H0. discriminate H0.
Qed.

Lemma X9_witness :
  opsValid (Or [Comparison "a" "=" (VNumber (NInt 1));
                Comparison "b" "!=" (VNumber (NInt 2))]).
Proof.
  refine (X9_operators_are_from_OPS "where:(a 1 or b!=2)" None
            (mkQuery None None None None
               (Some (Or [Comparison "a" "=" (VNumber (NInt 1));
                          Comparison "b" "!=" (VNumber (NInt 2))])))
            _ _ _).
  - vm_compute; reflexivity.
  - reflexivity.
Defined.

End Operators.

(** *** The splitter *)

Section SplitFacts.

Import JS Parse Spec Props.

(** The test [str.slice(i, i + n) === p], for [p] of length [n], on the
    unread suffix. *)
Lemma prefix_eqb :
  forall p t, String.eqb (substring 0 (String.length p) t) p = String.prefix p t.
Proof.
  induction p as [|c p IH]; intro t.
  - destruct t; reflexivity.
  - destruct t as [|d t]; [reflexivity|].
    cbn [String.length substring String.eqb String.prefix].
    rewrite IH. destruct (ascii_dec c d) as [->|N].
    + rewrite Ascii.eqb_refl. reflexivity.
    + destruct (Ascii.eqb d c) eqn:E; [|reflexivity].
      apply Ascii.eqb_eq in E. congruence.
Qed.

Lemma slice6_prefix :
  forall str i p,
    String.length p = 6 ->
    String.eqb (slice str i (i + 6)) p = String.prefix p (sliceFrom str i).
Proof.
  intros str i p L. rewrite slice_suffix, <- L. apply prefix_eqb.
Qed.

Lemma splitLoop_end :
  forall fuel str i clauses,
    sliceFrom str i = EmptyString -> splitLoop (S fuel) str i clauses = Ok clauses.
Proof.
  intros fuel str i clauses H. rewrite splitLoop_unfold, atEnd_suffix, H.
  reflexivity.
Qed.

Lemma skipWs_run :
  forall str i ws rest,
    sliceFrom str i = ws ^^ rest ->
    allChars isSpace ws = true -> stopsAt isSpace rest ->
    skipWs str i = i + String.length ws.
Proof.
  intros str i ws rest H A St. unfold skipWs. rewrite H.
  apply scanWhile_run; assumption.
Qed.

(** An iteration of the splitter at a word that starts no quoted string, no
    order clause and no where clause: the word is the next clause. *)
Lemma splitLoop_word :
  forall fuel str i clauses ws c w rest,
    sliceFrom str i = ws ^^ String c w ^^ rest ->
    allChars isSpace ws = true ->
    allChars notSpace (String c w) = true ->
    stopsAt notSpace rest ->
    Ascii.eqb c dquote = false ->
    String.prefix "order:" (String c w ^^ rest) = false ->
    String.prefix "where:" (String c w ^^ rest) = false ->
    splitLoop (S fuel) str i clauses
    = splitLoop fuel str (i + String.length ws + String.length (String c w))
        (clauses ++ [String c w]).
Proof.
  intros fuel str i clauses ws c w rest H Aw A St Q O W.
  assert (Nc : isSpace c = false).
  { cbn [allChars] in A. apply andb_true_iff in A as [Hc _].
    apply negb_true_iff in Hc. exact Hc. }
  rewrite splitLoop_unfold, atEnd_suffix, H.
  assert (E : isEmpty (ws ^^ String c w ^^ rest) = false)
    by (destruct ws; reflexivity).
  rewrite E. cbv zeta.
  rewrite (skipWs_run str i ws (String c w ^^ rest) H Aw Nc).
  set (j := i + String.length ws).
  assert (Hj : sliceFrom str j = String c w ^^ rest)
    by (apply sliceFrom_advance; exact H).
  rewrite atEnd_suffix, Hj. cbn [append isEmpty].
  rewrite (charIs_suffix str j c (w ^^ rest) dquote Hj), Q.
  rewrite !slice6_prefix by reflexivity. rewrite Hj, O, W. cbn [andb].
  assert (K : skipNonWs str j = j + String.length (String c w)).
  { unfold skipNonWs. rewrite Hj. apply (scanWhile_run notSpace); assumption. }
  rewrite K, slice_suffix, Hj, substring_append. reflexivity.
Qed.

(** An iteration of the splitter at [where:] that no parenthesis follows:
    the index moves past the key before the clause starts, so the clause
    is the word that follows the key. *)
Lemma splitLoop_where_word :
  forall fuel str i clauses ws w rest,
    sliceFrom str i = ws ^^ "where:" ^^ w ^^ rest ->
    allChars isSpace ws = true ->
    allChars notSpace w = true ->
    stopsAt notSpace rest ->
    String.prefix "(" (w ^^ rest) = false ->
    splitLoop (S fuel) str i clauses
    = splitLoop fuel str (i + String.length ws + 6 + String.length w)
        (clauses ++ [w]).
Proof.
  intros fuel str i clauses ws w rest H Aw A St Pn.
  rewrite splitLoop_unfold, atEnd_suffix, H.
  assert (E : isEmpty (ws ^^ "where:" ^^ w ^^ rest) = false)
    by (destruct ws; reflexivity).
  rewrite E. cbv zeta.
  rewrite (skipWs_run str i ws ("where:" ^^ w ^^ rest) H Aw eq_refl).
  set (j := i + String.length ws).
  assert (Hj : sliceFrom str j = "where:" ^^ w ^^ rest)
    by (apply sliceFrom_advance; exact H).
  rewrite atEnd_suffix, Hj. cbn [append isEmpty].
  rewrite (charIs_suffix str j "w" ("here:" ^^ w ^^ rest) dquote Hj).
  change (Ascii.eqb "w" dquote) with false. cbv iota.
  rewrite !slice6_prefix by reflexivity. rewrite Hj.
  change (String.prefix "order:" ("where:" ^^ w ^^ rest)) with false.
  assert (Pw : String.prefix "where:" ("where:" ^^ w ^^ rest) = true).
  { cbn. destruct (w ^^ rest); reflexivity. }
  rewrite Pw. cbv iota.
  assert (H6 : sliceFrom str (j + 6) = w ^^ rest)
    by (apply (sliceFrom_advance str j "where:"); exact Hj).
  assert (C : charIs str (j + 6) "("%char = false).
  { unfold charIs. rewrite charAt_suffix, H6.
    destruct (w ^^ rest) as [|d r]; [reflexivity|].
    cbn in Pn. destruct (Ascii.eqb d "("%char) eqn:D; [|reflexivity].
    apply Ascii.eqb_eq in D. subst d. cbn in Pn. destruct r; discriminate. }
  rewrite C. cbn [andb].
  assert (K : skipNonWs str (j + 6) = j + 6 + String.length w).
  { unfold skipNonWs. rewrite H6. apply (scanWhile_run notSpace); assumption. }
  rewrite K, slice_suffix, H6, substring_append. reflexivity.
Qed.

Lemma length_solid_pos :
  forall s, s <> EmptyString -> 1 <= String.length s.
Proof. intros [|c s] N; [congruence|simpl; lia]. Qed.

(** X10 -- a where clause whose value does not start with a parenthesis
    loses its key in the splitter: the clause of [where:w], for a word [w]
    without whitespace, is [w] alone.  So the query is rejected as a clause
    without colon when [w] has none, and is read as the clause [w] when it
    has one. *)
Theorem X10_where_key_needs_parenthesis :
  forall w,
    w <> EmptyString ->
    allChars notSpace w = true ->
    String.prefix "(" w = false ->
    splitTopLevel ("where:" ^^ w) = Ok [w]
    /\ (forall schema,
          indexOf w ":"%char = None ->
          parsePlainText ("where:" ^^ w) schema
          = Throw ("Invalid clause " ^^ quoted w
                   ^^ ": expected key:value format (e.g., entity:users). "
                   ^^ "Valid keys: entity, limit, order, include, where")).
Proof.
  intros w N A Pn.
  assert (S1 : splitTopLevel ("where:" ^^ w) = Ok [w]).
  { unfold splitTopLevel.
    replace (S (String.length ("where:" ^^ w)))
      with (S (S (String.length ("where:" ^^ w) - 1)))
      by (rewrite length_append; simpl; lia).
    rewrite (splitLoop_where_word _ ("where:" ^^ w) 0 [] EmptyString w EmptyString).
    - apply splitLoop_end.
      replace (0 + String.length EmptyString + 6 + String.length w)
        with (0 + String.length ("where:" ^^ w))
        by (rewrite length_append; simpl; lia).
      apply sliceFrom_advance. rewrite sliceFrom_0, append_nil_r. reflexivity.
    - rewrite sliceFrom_0, append_nil_r. reflexivity.
    - reflexivity.
    - exact A.
    - exact I.
    - rewrite append_nil_r. exact Pn. }
  split; [exact S1|].
  intros schema C. unfold parsePlainText. cbv zeta.
  assert (T : trim ("where:" ^^ w) = "where:" ^^ w).
  { apply trim_solid. rewrite allChars_append, A. reflexivity. }
  rewrite T, S1. cbn [append isEmpty parseClauses].
  unfold parseClause. rewrite C. reflexivity.
Qed.

Lemma X10_witness :
  splitTopLevel ("where:" ^^ "a=1") = Ok ["a=1"]
  /\ parsePlainText ("where:" ^^ "a=1") None
     = Throw ("Invalid clause " ^^ quoted "a=1"
              ^^ ": expected key:value format (e.g., entity:users). "
              ^^ "Valid keys: entity, limit, order, include, where").
Proof.
  destruct (X10_where_key_needs_parenthesis "a=1") as [S1 P1].
  - discriminate.
  - reflexivity.
  - reflexivity.
  - split; [exact S1|]. apply P1. reflexivity.
Defined.

Lemma trim_ends :
  forall s,
    stopsAt isSpace s -> stopsAt isSpace (JS.rev s) -> trim s = s.
Proof.
  intros s H R. unfold trim, trimEnd.
  assert (T : trimStart s = s)
    by (destruct s as [|c s]; [reflexivity|apply trimStart_head; exact H]).
  rewrite T.
  assert (T' : trimStart (JS.rev s) = JS.rev s)
    by (destruct (JS.rev s) as [|c r]; [reflexivity|apply trimStart_head; exact R]).
  rewrite T'. apply rev_rev.
Qed.

Lemma rev_solid_head :
  forall a d,
    d <> EmptyString -> allChars notSpace d = true ->
    stopsAt isSpace (JS.rev (a ^^ d)).
Proof.
  intros a d N A. rewrite rev_append.
  destruct (snoc_view d) as [->|[t [c ->]]]; [congruence|].
  rewrite rev_snoc. cbn [append stopsAt].
  rewrite allChars_snoc in A. apply andb_true_iff in A as [_ Hc].
  apply negb_true_iff in Hc. exact Hc.
Qed.

Lemma sliceFrom_after :
  forall a b, sliceFrom (a ^^ b) (String.length a) = b.
Proof.
  intros a b. change (String.length a) with (0 + String.length a).
  apply sliceFrom_advance. apply sliceFrom_0.
Qed.

(** X11 -- an entity clause followed by a limit clause: for every name
    without whitespace and every string of digits that denotes an integer
    of at most [2^53] the query parses, the entity is the name as written
    (no change of case, no check of its characters) and the limit is the
    integer that the digits denote. *)
Theorem X11_entity_and_limit :
  forall v d,
    v <> EmptyString ->
    allChars notSpace v = true ->
    isDigits d = true ->
    exactInteger (digitsValue d 0%N) ->
    parsePlainText ("entity:" ^^ v ^^ " limit:" ^^ d) None
    = Ok (mkQuery (Some v) (Some (digitsValue d 0%N)) None None None).
Proof.
  intros v d N A D _.
  assert (Ad : allChars notSpace d = true).
  { unfold isDigits in D. apply andb_true_iff in D as [_ D].
    rewrite allDigits_allChars in D. revert D. apply allChars_impl.
    exact digit_notSpace. }
  assert (Nd : d <> EmptyString) by (intros ->; discriminate D).
  set (str := "entity:" ^^ v ^^ " limit:" ^^ d).
  assert (T : trim str = str).
  { apply trim_ends; [reflexivity|].
    unfold str. rewrite <- append_assoc, <- append_assoc.
    apply rev_solid_head; assumption. }
  assert (L : String.length str = 7 + String.length v + 7 + String.length d).
  { unfold str. rewrite !length_append. simpl. lia. }
  assert (S1 : splitTopLevel str = Ok ["entity:" ^^ v; "limit:" ^^ d]).
  { unfold splitTopLevel.
    replace (S (String.length str)) with (S (S (S (String.length str - 2))))
      by lia.
    rewrite (splitLoop_word _ str 0 [] EmptyString "e" ("ntity:" ^^ v)
               (" limit:" ^^ d));
      [|rewrite sliceFrom_0; unfold str; cbn [append]; repeat f_equal;
        rewrite append_assoc; reflexivity
       |reflexivity
       |change (String "e" ("ntity:" ^^ v)) with ("entity:" ^^ v);
        rewrite allChars_append, A; reflexivity
       |reflexivity|reflexivity|reflexivity|reflexivity].
    change (String "e" ("ntity:" ^^ v)) with ("entity:" ^^ v).
    change (0 + String.length EmptyString + String.length ("entity:" ^^ v))
      with (String.length ("entity:" ^^ v)).
    assert (H1 : sliceFrom str (String.length ("entity:" ^^ v))
                 = " " ^^ String "l" ("imit:" ^^ d) ^^ EmptyString).
    { rewrite append_nil_r. unfold str.
      rewrite <- (append_assoc "entity:" v). apply sliceFrom_after. }
    rewrite (splitLoop_word _ str _ _ " " "l" ("imit:" ^^ d) EmptyString H1);
      [|reflexivity
       |change (String "l" ("imit:" ^^ d)) with ("limit:" ^^ d);
        rewrite allChars_append, Ad; reflexivity
       |exact I|reflexivity|reflexivity|reflexivity].
    apply splitLoop_end.
    change (String "l" ("imit:" ^^ d)) with ("limit:" ^^ d).
    replace (String.length ("entity:" ^^ v) + String.length " "
             + String.length ("limit:" ^^ d))
      with (String.length str) by (rewrite L, !length_append; simpl; lia).
    rewrite <- (append_nil_r str) at 1. apply sliceFrom_after. }
  unfold parsePlainText. cbv zeta. rewrite T.
  assert (E : isEmpty str = false) by reflexivity.
  rewrite E, S1. cbn [parseClauses].
  assert (C1 : parseClause emptyQuery ("entity:" ^^ v)
               = Ok (mkQuery (Some v) None None None None)).
  { unfold parseClause.
    change (indexOf ("entity:" ^^ v) ":"%char) with (Some 6). cbv zeta.
    change (slice ("entity:" ^^ v) 0 6) with "entity".
    change (toLowerCase (trim "entity")) with "entity".
    change (String.eqb "entity" "entity") with true. cbv iota.
    change 7 with (String.length "entity:").
    rewrite sliceFrom_after, (trim_solid v A).
    destruct v; [congruence|reflexivity]. }
  rewrite C1.
  assert (C2 : parseClause (mkQuery (Some v) None None None None) ("limit:" ^^ d)
               = Ok (mkQuery (Some v) (Some (digitsValue d 0%N)) None None None)).
  { unfold parseClause.
    change (indexOf ("limit:" ^^ d) ":"%char) with (Some 5). cbv zeta.
    change (slice ("limit:" ^^ d) 0 5) with "limit".
    change (toLowerCase (trim "limit")) with "limit".
    change (String.eqb "limit" "entity") with false.
    change (String.eqb "limit" "limit") with true. cbv iota.
    change 6 with (String.length "limit:").
    rewrite sliceFrom_after, (trim_solid d Ad).
    cbn [limit isSome]. rewrite (parseLimit_digits d D).
    destruct d; [congruence|reflexivity]. }
  rewrite C2. reflexivity.
Qed.

Lemma X11_witness :
  parsePlainText ("entity:" ^^ "Order-Items" ^^ " limit:" ^^ "007") None
  = Ok (mkQuery (Some "Order-Items") (Some 7%N) None None None).
Proof.
  apply (X11_entity_and_limit "Order-Items" "007");
    [discriminate|reflexivity|reflexivity|].
  unfold exactInteger. vm_compute. discriminate.
Defined.

End SplitFacts.

(** *** Quoted strings *)

Section QuotedStrings.

Import JS Parse Spec Props.

(** The tokenizer reads the escaped text of [v] back as [v]. *)
Lemma scanString_escape :
  forall v rest i val,
    scanString (escape v ^^ String dquote rest) i val
    = (i + String.length (escape v) + 1, val ^^ v, true).
Proof.
  induction v as [|c v IH]; intros rest i val.
  - cbn [escape append scanString String.length].
    change (Ascii.eqb dquote backslash) with false.
    rewrite Ascii.eqb_refl. cbv iota. rewrite append_nil_r.
    apply f_equal2; [apply f_equal2; [lia|reflexivity]|reflexivity].
  - cbn [escape].
    destruct (Ascii.eqb c dquote) eqn:Q; [|destruct (Ascii.eqb c backslash) eqn:B].
    + cbn [orb append scanString String.length].
      rewrite Ascii.eqb_refl, Q, IH, append_snoc.
      apply f_equal2; [apply f_equal2; [lia|]|reflexivity].
      apply Ascii.eqb_eq in Q. subst c. reflexivity.
    + cbn [orb append scanString String.length].
      rewrite Ascii.eqb_refl, Q, B, IH, append_snoc.
      apply f_equal2; [apply f_equal2; [lia|]|reflexivity].
      apply Ascii.eqb_eq in B. subst c. reflexivity.
    + cbn [orb append scanString String.length].
      rewrite B, Q, IH, append_snoc.
      apply f_equal2; [apply f_equal2; [lia|reflexivity]|reflexivity].
Qed.

(** The splitter skips the escaped text of [v] up to the same index. *)
Lemma skipQuoted_escape :
  forall v rest i,
    skipQuoted (escape v ^^ String dquote rest) i
    = (i + String.length (escape v) + 1, true).
Proof.
  induction v as [|c v IH]; intros rest i.
  - cbn [escape append skipQuoted String.length].
    change (Ascii.eqb dquote backslash) with false.
    rewrite Ascii.eqb_refl. cbv iota. f_equal. lia.
  - cbn [escape].
    destruct (Ascii.eqb c dquote) eqn:Q; [|destruct (Ascii.eqb c backslash) eqn:B].
    + cbn [orb append skipQuoted String.length].
      rewrite Ascii.eqb_refl, IH. f_equal. lia.
    + cbn [orb append skipQuoted String.length].
      rewrite Ascii.eqb_refl, IH. f_equal. lia.
    + cbn [orb append skipQuoted String.length].
      rewrite B, Q, IH. f_equal. lia.
Qed.

(** The two scanners of quoted strings, the one of the splitter and the one
    of the tokenizer, stop at the same index with the same verdict. *)
Lemma skipQuoted_scanString :
  forall rest i val,
    skipQuoted rest i
    = (fst (fst (scanString rest i val)), snd (scanString rest i val)).
Proof.
  fix IH 1. intros [|c rest] i val; [reflexivity|].
  cbn [skipQuoted scanString].
  destruct (Ascii.eqb c backslash).
  - destruct rest as [|d rest]; [reflexivity|].
    destruct (Ascii.eqb d dquote); [apply IH|].
    destruct (Ascii.eqb d backslash); apply IH.
  - destruct (Ascii.eqb c dquote); [reflexivity|apply IH].
Qed.

(** An iteration of the tokenizer at a quote. *)
Lemma tokenize_string :
  forall fuel s i tokens rest j val,
    sliceFrom s i = String dquote rest ->
    scanString rest (S i) EmptyString = (j, val, true) ->
    tokenizeLoop (S fuel) s i tokens
    = tokenizeLoop fuel s j (tokens ++ [TString val]).
Proof.
  intros fuel s i tokens rest j val H Sc.
  rewrite tokenizeLoop_unfold.
  rewrite atEnd_suffix, H. cbn [isEmpty]. cbv zeta.
  rewrite (skipWs_stay s i _ _ H eq_refl).
  rewrite atEnd_suffix, H. cbn [isEmpty].
  rewrite !(charIs_suffix s i _ _ _ H).
  change (Ascii.eqb dquote "("%char) with false.
  change (Ascii.eqb dquote ")"%char) with false.
  rewrite Ascii.eqb_refl. cbv iota.
  assert (N : sliceFrom s (S i) = rest).
  { replace (S i) with (i + String.length (str1 dquote)) by (simpl; lia).
    apply sliceFrom_advance. exact H. }
  rewrite N, Sc. reflexivity.
Qed.

Lemma tokenize_id_escaped :
  forall v,
    tokenizeWhere ("id=" ^^ quoted (escape v))
    = Ok [TIdent "id" "id"; TOp "="; TString v].
Proof.
  intro v. unfold tokenizeWhere.
  assert (L : String.length ("id=" ^^ quoted (escape v))
              = 4 + (String.length (escape v) + 1))
    by (unfold quoted; cbn [append String.length str1];
        rewrite length_append; simpl; lia).
  rewrite L. cbn [Nat.add]. rewrite tokenize_id_eq.
  assert (H : sliceFrom ("id=" ^^ quoted (escape v)) 3
              = String dquote (escape v ^^ String dquote EmptyString))
    by (unfold quoted; cbn [append str1];
        change 3 with (0 + String.length "id=");
        apply sliceFrom_advance; rewrite sliceFrom_0; reflexivity).
  rewrite (tokenize_string _ _ _ _ _ _ _ H (scanString_escape v _ _ _)).
  apply tokenize_end.
  assert (H' : sliceFrom ("id=" ^^ quoted (escape v)) 3
               = quoted (escape v) ^^ EmptyString)
    by (rewrite append_nil_r; exact H).
  apply sliceFrom_advance in H'.
  assert (E : 3 + String.length (quoted (escape v))
              = 4 + String.length (escape v) + 1).
  { unfold quoted. cbn [append String.length str1]. rewrite length_append.
    simpl. lia. }
  rewrite E in H'. exact H'.
Qed.

Lemma parseWhere_id_escaped :
  forall v,
    parseWhere ("id=" ^^ quoted (escape v))
    = Ok (Comparison "id" "=" (VString v)).
Proof.
  intro v. unfold parseWhere. rewrite tokenize_id_escaped.
  cbn [List.length]. rewrite parse_id_value. reflexivity.
Qed.

(** X12 -- quoting round trip: for every text [v], the comparison of [id]
    with the quoted string that holds [v] with a backslash before each
    double quote and each backslash parses to the comparison with the
    string value [v]. *)
Theorem X12_escaped_string_round_trip :
  forall v,
    parseWhere ("id=" ^^ quoted (escape v))
    = Ok (Comparison "id" "=" (VString v)).
Proof. exact parseWhere_id_escaped. Qed.

(** X13 -- the splitter and the tokenizer agree on quoted strings: from the
    same text, the scanner of [splitTopLevel] and the scanner of
    [tokenizeWhere] stop at the same index and find a closing quote, or
    miss it, together. *)
Theorem X13_quote_scanners_agree :
  forall rest i val j v found,
    scanString rest i val = (j, v, found) ->
    skipQuoted rest i = (j, found).
Proof.
  intros rest i val j v found H.
  rewrite (skipQuoted_scanString rest i val), H. reflexivity.
Qed.

Lemma X13_witness :
  skipQuoted (escape "a" ^^ String dquote " or") 1 = (3, true).
Proof.
  apply (X13_quote_scanners_agree _ 1 EmptyString 3 "a" true). reflexivity.
Defined.

End QuotedStrings.

(* ================================================================== *)
(** ** The typing of the values of a where expression *)
(* ================================================================== *)

Section ValueTyping.

Import JS Parse Spec Props.

Lemma tokenizeLoopAt_unfold :
  forall fuel s i tokens,
    tokenizeLoopAt (S fuel) s i tokens
    = if String.length s <=? i then Ok tokens else
      let i := skipWs s i in
      if String.length s <=? i then Ok tokens
      else if charIs s i "("%char then
        tokenizeLoopAt fuel s (S i) (tokens ++ [(i, TParen "(")])
      else if charIs s i ")"%char then
        tokenizeLoopAt fuel s (S i) (tokens ++ [(i, TParen ")")])
      else if charIs s i dquote then
        let '(j, val, foundClosing) :=
          scanString (sliceFrom s (S i)) (S i) EmptyString in
        if foundClosing then
          tokenizeLoopAt fuel s j (tokens ++ [(i, TString val)])
        else Throw "Unclosed quoted string in where clause"
      else
        match matchOp s i with
        | Some op =>
            tokenizeLoopAt fuel s (i + String.length op)
                           (tokens ++ [(i, TOp op)])
        | None =>
            let j := scanWhile isWordChar (sliceFrom s i) i in
            let raw := slice s i j in
            if isEmpty raw then Throw "Unexpected character in where clause"
            else tokenizeLoopAt fuel s j (tokens ++ [(i, classifyWord raw)])
        end.
Proof. reflexivity. Qed.

(** The loop with indices pushes the tokens of [tokenizeLoop], and each
    token that stands for a value is typed by the place it starts at. *)
Lemma tokenizeLoopAt_tokens :
  forall fuel s i lexemes out,
    tokenizeLoop fuel s i (map snd lexemes) = Ok out ->
    exists lexemes',
      tokenizeLoopAt fuel s i lexemes = Ok lexemes'
      /\ map snd lexemes' = out
      /\ (Forall (lexemeOk s) lexemes -> Forall (lexemeOk s) lexemes').
Proof.
  induction fuel as [|fuel IH]; intros s i lex out; [discriminate|].
  rewrite tokenizeLoop_unfold, tokenizeLoopAt_unfold.
  destruct (String.length s <=? i);
    [intro H; injection H as <-; exists lex; auto|].
  cbv zeta. set (k := skipWs s i).
  destruct (String.length s <=? k);
    [intro H; injection H as <-; exists lex; auto|].
  assert (Push : forall t j,
             lexemeOk s (k, t) ->
             tokenizeLoop fuel s j (map snd lex ++ [t]) = Ok out ->
             exists lexemes',
               tokenizeLoopAt fuel s j (lex ++ [(k, t)]) = Ok lexemes'
               /\ map snd lexemes' = out
               /\ (Forall (lexemeOk s) lex -> Forall (lexemeOk s) lexemes')).
  { intros t j Ht H.
    replace (map snd lex ++ [t]) with (map snd (lex ++ [(k, t)])) in H
      by (rewrite map_app; reflexivity).
    destruct (IH _ _ _ _ H) as [lex' [E [M F]]].
    exists lex'. split; [exact E|split; [exact M|]].
    intro G. apply F. apply Forall_app. split; [exact G|].
    constructor; [exact Ht|constructor]. }
  destruct (charIs s k "("%char);
    [apply Push; intro N; exfalso; apply N; reflexivity|].
  destruct (charIs s k ")"%char);
    [apply Push; intro N; exfalso; apply N; reflexivity|].
  destruct (charIs s k dquote) eqn:Q.
  - destruct (scanString (sliceFrom s (S k)) (S k) EmptyString)
      as [[j val] found] eqn:Sc.
    destruct found; [|discriminate].
    apply Push. intros _. unfold typedAt. cbn [fst snd]. rewrite Q.
    exists j, val. split; [exact Sc|reflexivity].
  - destruct (matchOp s k) as [op|].
    + apply Push. intro N. exfalso. apply N. reflexivity.
    + destruct (isEmpty (slice s k (scanWhile isWordChar (sliceFrom s k) k)));
        [discriminate|].
      apply Push. intros _. unfold typedAt. cbn [fst snd]. rewrite Q.
      reflexivity.
Qed.

(** A comparison is read from the token of its field, the token of its
    operator when there is one, and the token of its value. *)
Lemma parseComparison_leaf :
  forall tokens pos c pos',
    parseComparison tokens pos = Ok (Some c, pos') ->
    Forall (leafAt tokens) (leavesOf c).
Proof.
  intros tokens pos c pos'. unfold parseComparison.
  destruct (nth_error tokens pos) as [tf|] eqn:N0; [|discriminate].
  destruct tf; try discriminate;
    (destruct (nth_error tokens (S pos)) as [[]|] eqn:N1;
     try rewrite N1; try discriminate;
     try (destruct (nth_error tokens (S (S pos))) as [[]|] eqn:N2;
          try discriminate);
     intro H; injection H as <- _; cbn [leavesOf];
     (constructor; [|constructor]); unfold leafAt; cbn [fst snd];
     eexists pos, _; (split; [exact N0|]); (split; [reflexivity|]);
     first
       [ exists (S (S pos)); eexists; split; [exact N2|];
         split; [reflexivity|]; left; split; [exact N1|reflexivity]
       | exists (S pos); eexists; split; [exact N1|];
         split; [reflexivity|]; right; split; reflexivity ]).
Qed.

Lemma leavesOf_andChildren :
  forall t, flat_map leavesOf (andChildren t) = leavesOf t.
Proof. intros [f o v|cs|cs]; cbn; try reflexivity; apply app_nil_r. Qed.

Lemma leavesOf_orChildren :
  forall t, flat_map leavesOf (orChildren t) = leavesOf t.
Proof. intros [f o v|cs|cs]; cbn; try reflexivity; apply app_nil_r. Qed.

Lemma leaves_and :
  forall (Q : string * string * Value -> Prop) terms,
    Forall (fun t => Forall Q (leavesOf t)) terms ->
    Forall Q (leavesOf (And (flat_map andChildren terms))).
Proof.
  intros Q terms F. cbn [leavesOf].
  induction F as [|t terms Ht F IH]; [constructor|].
  cbn [flat_map]. rewrite flat_map_app, leavesOf_andChildren.
  apply Forall_app. split; assumption.
Qed.

Lemma leaves_or :
  forall (Q : string * string * Value -> Prop) l r,
    Forall Q (leavesOf l) -> Forall Q (leavesOf r) ->
    Forall Q (leavesOf (Or (orChildren l ++ orChildren r))).
Proof.
  intros Q l r Hl Hr. cbn [leavesOf].
  rewrite flat_map_app, !leavesOf_orChildren. apply Forall_app.
  split; assumption.
Qed.

(** Every comparison of the tree of [parseWhere] is read from the tokens
    of [tokenizeWhere]. *)
Lemma parseWhere_leaves :
  forall inner c,
    parseWhere inner = Ok c ->
    exists tokens,
      tokenizeWhere inner = Ok tokens
      /\ Forall (leafAt tokens) (leavesOf c).
Proof.
  intros inner c. unfold parseWhere.
  destruct (tokenizeWhere inner) as [tokens| |] eqn:T; try discriminate.
  destruct tokens as [|t tokens]; [discriminate|].
  destruct (parseOr (t :: tokens) (grammarFuel (List.length (t :: tokens))) 0)
    as [[r p]| |] eqn:E; try discriminate.
  destruct (p <? List.length (t :: tokens)); [discriminate|].
  destruct r as [c'|]; [|discriminate].
  intro H; injection H as <-. exists (t :: tokens). split; [reflexivity|].
  refine (proj1 (grammar_invariant (t :: tokens)
                   (fun c => Forall (leafAt (t :: tokens)) (leavesOf c))
                   _ _ _ _) _ _ _ E).
  - intros pos c0 pos'. apply parseComparison_leaf.
  - intros l r. apply leaves_or.
  - intros terms. apply leaves_and.
Qed.

Lemma leafAt_comparisonAt :
  forall s lexemes leaf,
    Forall (lexemeOk s) lexemes ->
    leafAt (map snd lexemes) leaf ->
    comparisonAt s lexemes leaf.
Proof.
  intros s lex leaf F [p [tf [Nf [Tf [q [tv [Nv [Tv D]]]]]]]].
  exists p, tf. split; [exact Nf|]. split; [exact Tf|].
  rewrite nth_error_map in Nv.
  destruct (nth_error lex q) as [[kv tv']|] eqn:Nq; [|discriminate].
  cbn [option_map snd] in Nv. injection Nv as ->.
  exists q, kv, tv. split; [exact Nq|]. split; [exact Tv|].
  split; [|exact D].
  apply nth_error_In in Nq. rewrite Forall_forall in F.
  apply (F _ Nq). cbn [snd]. rewrite Tv. discriminate.
Qed.

(** In every where expression that parses, every comparison is read from
    the tokens as laid out in the text, and the type of its value is fixed
    by the place where the token of the value starts. *)
Lemma values_typed_by_their_place :
  forall inner c,
    parseWhere inner = Ok c ->
    exists lexemes,
      tokenizeWhereAt inner = Ok lexemes
      /\ tokenizeWhere inner = Ok (map snd lexemes)
      /\ Forall (comparisonAt inner lexemes) (leavesOf c).
Proof.
  intros inner c H.
  destruct (parseWhere_leaves inner c H) as [tokens [T L]].
  destruct (tokenizeLoopAt_tokens (S (String.length inner)) inner 0 [] tokens T)
    as [lex [E [M F]]].
  exists lex. split; [exact E|]. subst tokens. split; [exact T|].
  revert L. apply Forall_impl. intro leaf.
  apply leafAt_comparisonAt. apply F. constructor.
Qed.

(** *** A field, an operator and a value *)

(** An iteration that starts at an operator reads it, when no [=] follows
    that would make it a longer one. *)
Lemma tokenize_op :
  forall fuel s i tokens op rest,
    In op OPS ->
    sliceFrom s i = op ^^ rest ->
    String.prefix "=" rest = false ->
    tokenizeLoop (S fuel) s i tokens
    = tokenizeLoop fuel s (i + String.length op) (tokens ++ [TOp op]).
Proof.
  intros fuel s i tokens op rest Hin H N.
  pose proof (prefix_eqb "=" rest) as PE. cbn [String.length] in PE.
  rewrite N in PE.
  assert (M : matchOp s i = Some op).
  { unfold matchOp, OPS. cbn [find String.length].
    rewrite !slice_suffix, H. unfold OPS in Hin. simpl in Hin.
    repeat (destruct Hin as [<-|Hin];
            [cbn [append substring String.eqb]; rewrite ?substring_none, ?PE;
             reflexivity|]).
    contradiction. }
  assert (Hd : exists c r, op ^^ rest = String c r /\ isSpace c = false
                           /\ Ascii.eqb c "("%char = false
                           /\ Ascii.eqb c ")"%char = false
                           /\ Ascii.eqb c dquote = false).
  { unfold OPS in Hin. simpl in Hin.
    repeat (destruct Hin as [<-|Hin];
            [eexists; eexists; repeat split; reflexivity|]).
    contradiction. }
  destruct Hd as [c [r [E [Sp [Po [Pc Q]]]]]]. rewrite E in H.
  rewrite tokenizeLoop_unfold, atEnd_suffix, H. cbn [isEmpty]. cbv zeta.
  rewrite (skipWs_stay s i c r H Sp).
  rewrite atEnd_suffix, H. cbn [isEmpty].
  rewrite !(charIs_suffix s i c r _ H), Po, Pc, Q, M. reflexivity.
Qed.

Lemma nonEmpty_length :
  forall s, s <> EmptyString -> 1 <= String.length s.
Proof. intros [|c s] N; [congruence|]. simpl. lia. Qed.

Lemma parseOp_length : forall op, In op OPS -> 1 <= String.length op.
Proof.
  intros op Hin. unfold OPS in Hin. simpl in Hin.
  repeat (destruct Hin as [<-|Hin]; [simpl; lia|]). contradiction.
Qed.

Lemma op_stops_word :
  forall op rest, In op OPS -> stopsAt isWordChar (op ^^ rest).
Proof.
  intros op rest Hin. unfold OPS in Hin. simpl in Hin.
  repeat (destruct Hin as [<-|Hin]; [reflexivity|]). contradiction.
Qed.

(** The first two tokens of a field word followed by an operator. *)
Lemma tokenize_field_op :
  forall fuel f op rest,
    f <> EmptyString ->
    allChars isWordChar f = true ->
    In op OPS ->
    String.prefix "=" rest = false ->
    tokenizeLoop (S (S fuel)) (f ^^ op ^^ rest) 0 []
    = tokenizeLoop fuel (f ^^ op ^^ rest)
        (String.length f + String.length op) [classifyWord f; TOp op].
Proof.
  intros fuel f op rest Nf A Hin N.
  destruct f as [|c w]; [congruence|].
  assert (H0 : sliceFrom (String c w ^^ op ^^ rest) 0
               = String c w ^^ op ^^ rest) by apply sliceFrom_0.
  rewrite (tokenize_word _ _ 0 [] c w (op ^^ rest) H0 A
             (op_stops_word op rest Hin)).
  apply sliceFrom_advance in H0.
  rewrite (tokenize_op _ _ _ _ op rest Hin H0 N). reflexivity.
Qed.

Lemma sliceFrom_value :
  forall f op rest,
    sliceFrom (f ^^ op ^^ rest) (String.length f + String.length op) = rest.
Proof.
  intros f op rest. rewrite <- length_append, <- append_assoc.
  apply sliceFrom_after.
Qed.

(** The parse of a field, an operator and one value token. *)
Lemma parse_field_op_value :
  forall f op value,
    parseOr [TIdent f f; TOp op; value] (grammarFuel 3) 0
    = match value with
      | TIdent _ raw => Ok (Some (Comparison f op (VString raw)), 3)
      | TString v => Ok (Some (Comparison f op (VString v)), 3)
      | TNumber n => Ok (Some (Comparison f op (VNumber n)), 3)
      | TBoolean b => Ok (Some (Comparison f op (VBoolean b)), 3)
      | _ => Throw "Invalid value in where comparison"
      end.
Proof. intros f op []; reflexivity. Qed.

Lemma word_not_eq :
  forall raw,
    allChars isWordChar raw = true -> String.prefix "=" raw = false.
Proof.
  intros [|c w] A; [reflexivity|].
  cbn [allChars] in A. apply andb_true_iff in A as [Wc _].
  destruct (wordChar_inv c Wc) as [_ [_ [_ [_ [E _]]]]].
  cbn [String.prefix]. destruct (ascii_dec "=" c) as [<-|_]; [discriminate E|].
  reflexivity.
Qed.

(** A quoted value after any field and any operator is a string. *)
Lemma quoted_value_after_operator :
  forall f op v,
    f <> EmptyString ->
    allChars isWordChar f = true ->
    classifyWord f = TIdent f f ->
    In op OPS ->
    parseWhere (f ^^ op ^^ quoted (escape v))
    = Ok (Comparison f op (VString v)).
Proof.
  intros f op v Nf A Cf Hin. unfold parseWhere.
  assert (T : tokenizeWhere (f ^^ op ^^ quoted (escape v))
              = Ok [TIdent f f; TOp op; TString v]).
  { unfold tokenizeWhere.
    set (s := f ^^ op ^^ quoted (escape v)).
    assert (L : String.length s
                = String.length f + String.length op
                  + (String.length (escape v) + 2)).
    { unfold s, quoted. rewrite !length_append. simpl. lia. }
    replace (S (String.length s))
      with (S (S (S (S (String.length s - 3)))))
      by (pose proof (nonEmpty_length f Nf); lia).
    unfold s.
    rewrite (tokenize_field_op _ f op (quoted (escape v)) Nf A Hin eq_refl).
    rewrite Cf. fold s.
    assert (H2 : sliceFrom s (String.length f + String.length op)
                 = String dquote (escape v ^^ String dquote EmptyString))
      by (unfold s; rewrite sliceFrom_value; reflexivity).
    rewrite (tokenize_string _ s _ _ _ _ _ H2 (scanString_escape v _ _ _)).
    cbn [append]. apply tokenize_end.
    replace (S (String.length f + String.length op)
             + String.length (escape v) + 1)
      with (String.length s) by lia.
    rewrite <- (append_nil_r s) at 1. apply sliceFrom_after. }
  rewrite T. cbn [List.length]. rewrite parse_field_op_value. reflexivity.
Qed.

(** An unquoted word after any field and any operator is typed as
    [classifyWord] types it. *)
Lemma word_value_after_operator :
  forall f op raw,
    f <> EmptyString ->
    allChars isWordChar f = true ->
    classifyWord f = TIdent f f ->
    In op OPS ->
    raw <> EmptyString ->
    allChars isWordChar raw = true ->
    tokenizeWhere (f ^^ op ^^ raw)
    = Ok [TIdent f f; TOp op; classifyWord raw].
Proof.
  intros f op raw Nf A Cf Hin Nr Ar. unfold tokenizeWhere.
  set (s := f ^^ op ^^ raw).
  assert (L : String.length s
              = String.length f + String.length op + String.length raw).
  { unfold s. rewrite !length_append. lia. }
  replace (S (String.length s))
    with (S (S (S (S (String.length s - 3)))))
    by (pose proof (nonEmpty_length f Nf); pose proof (nonEmpty_length raw Nr);
        pose proof (parseOp_length op Hin); lia).
  unfold s.
  rewrite (tokenize_field_op _ f op raw Nf A Hin (word_not_eq raw Ar)).
  rewrite Cf. fold s.
  destruct raw as [|c w]; [congruence|].
  assert (H2 : sliceFrom s (String.length f + String.length op)
               = String c w ^^ EmptyString)
    by (unfold s; rewrite sliceFrom_value, append_nil_r; reflexivity).
  rewrite (tokenize_word _ s _ _ c w EmptyString H2 Ar I).
  apply tokenize_end. apply sliceFrom_advance in H2. exact H2.
Qed.

Lemma numeric_value_after_operator :
  forall f op raw,
    f <> EmptyString ->
    allChars isWordChar f = true ->
    classifyWord f = TIdent f f ->
    In op OPS ->
    isNumeric raw = true ->
    parseWhere (f ^^ op ^^ raw)
    = Ok (Comparison f op (VNumber (numberOf raw))).
Proof.
  intros f op raw Nf A Cf Hin H. unfold parseWhere.
  rewrite (word_value_after_operator f op raw Nf A Cf Hin).
  - rewrite (classifyWord_numeric raw H). cbn [List.length].
    rewrite parse_field_op_value. reflexivity.
  - intros ->. discriminate H.
  - apply isNumeric_chars in H. revert H. apply allChars_impl.
    exact numChar_wordChar.
Qed.

Lemma boolean_value_after_operator :
  forall f op raw (b : bool),
    f <> EmptyString ->
    allChars isWordChar f = true ->
    classifyWord f = TIdent f f ->
    In op OPS ->
    toLowerCase raw = (if b then "true" else "false") ->
    parseWhere (f ^^ op ^^ raw) = Ok (Comparison f op (VBoolean b)).
Proof.
  intros f op raw b Nf A Cf Hin H. unfold parseWhere.
  rewrite (word_value_after_operator f op raw Nf A Cf Hin).
  - rewrite (classifyWord_boolean raw b H). cbn [List.length].
    rewrite parse_field_op_value. reflexivity.
  - intros ->. destruct b; discriminate H.
  - rewrite <- toLowerCase_wordChars, H. destruct b; reflexivity.
Qed.

(** C9 -- in a where expression a quoted value is a string, whatever its
    contents, and an unquoted word that matches the numeric or the boolean
    pattern is a number or a boolean.  (1) [entity:items where:(id="18")]
    yields the string [18].  (2) In every where expression that parses,
    every comparison of the tree, wherever it stands, is read from the
    token of its field, the token of its operator when there is one, and
    the token of its value, and the value is typed by the place in the
    text where its token starts: at a double quote it is the string
    between the quotes, escapes removed, whatever that text looks like;
    elsewhere it is what [classifyWord] makes of the unquoted word that
    starts there, and [classifyWord] makes a number of a word that matches
    the numeric pattern and a boolean of a spelling of [true] or [false].
    (3) For every field word, every operator and every text
    [v], the field and the operator followed by [v] in quotes (a backslash
    before each double quote and each backslash) yield the string [v], even
    if [v] looks numeric or boolean; (4) followed by an unquoted [raw] that
    matches the numeric pattern they yield the number that [raw] denotes;
    (5) followed by a spelling [raw] of [true] or [false], in any case,
    they yield that boolean. *)
Theorem C9_quoted_values_are_strings :
  parsePlainText ("entity:items where:(id=" ^^ quoted "18" ^^ ")") None
  = Ok (mkQuery (Some "items") None None None
          (Some (Comparison "id" "=" (VString "18"))))
  /\ (forall inner c,
        parseWhere inner = Ok c ->
        exists lexemes,
          tokenizeWhereAt inner = Ok lexemes
          /\ tokenizeWhere inner = Ok (map snd lexemes)
          /\ Forall (comparisonAt inner lexemes) (leavesOf c))
  /\ (forall raw,
        isNumeric raw = true -> classifyWord raw = TNumber (numberOf raw))
  /\ (forall raw (b : bool),
        toLowerCase raw = (if b then "true" else "false") ->
        classifyWord raw = TBoolean b)
  /\ (forall f op v,
        f <> EmptyString ->
        allChars isWordChar f = true ->
        classifyWord f = TIdent f f ->
        In op OPS ->
        parseWhere (f ^^ op ^^ quoted (escape v))
        = Ok (Comparison f op (VString v)))
  /\ (forall f op raw,
        f <> EmptyString ->
        allChars isWordChar f = true ->
        classifyWord f = TIdent f f ->
        In op OPS ->
        isNumeric raw = true ->
        parseWhere (f ^^ op ^^ raw)
        = Ok (Comparison f op (VNumber (numberOf raw))))
  /\ (forall f op raw (b : bool),
        f <> EmptyString ->
        allChars isWordChar f = true ->
        classifyWord f = TIdent f f ->
        In op OPS ->
        toLowerCase raw = (if b then "true" else "false") ->
        parseWhere (f ^^ op ^^ raw) = Ok (Comparison f op (VBoolean b))).
Proof.
  split; [vm_compute; reflexivity|].
  split; [exact values_typed_by_their_place|].
  split; [exact classifyWord_numeric|].
  split; [exact classifyWord_boolean|].
  split; [exact quoted_value_after_operator|].
  split; [exact numeric_value_after_operator|
          exact boolean_value_after_operator].
Qed.

Lemma C9_witness :
  (exists lexemes,
     tokenizeWhereAt ("age>=" ^^ quoted "18" ^^ " and ok=TRUE") = Ok lexemes
     /\ tokenizeWhere ("age>=" ^^ quoted "18" ^^ " and ok=TRUE")
        = Ok (map snd lexemes)
     /\ Forall (comparisonAt ("age>=" ^^ quoted "18" ^^ " and ok=TRUE") lexemes)
               (leavesOf (And [Comparison "age" ">=" (VString "18");
                               Comparison "ok" "=" (VBoolean true)])))
  /\ classifyWord "-2.50" = TNumber (NDec (-250) 2)
  /\ classifyWord "TRUE" = TBoolean true
  /\ parseWhere ("age" ^^ ">=" ^^ quoted (escape "18"))
     = Ok (Comparison "age" ">=" (VString "18"))
  /\ parseWhere ("id" ^^ "=" ^^ quoted (escape "true"))
     = Ok (Comparison "id" "=" (VString "true"))
  /\ parseWhere ("id" ^^ "<" ^^ "-2.50")
     = Ok (Comparison "id" "<" (VNumber (NDec (-250) 2)))
  /\ parseWhere ("price" ^^ ">=" ^^ "18")
     = Ok (Comparison "price" ">=" (VNumber (NInt 18)))
  /\ parseWhere ("ok" ^^ "!=" ^^ "False")
     = Ok (Comparison "ok" "!=" (VBoolean false)).
Proof.
  destruct C9_quoted_values_are_strings
    as [_ [Place [Num [Boolean [Quoted [NumAfter BoolAfter]]]]]].
  split; [apply Place; vm_compute; reflexivity|].
  split; [apply (Num "-2.50"); reflexivity|].
  split; [apply (Boolean "TRUE" true); reflexivity|].
  split.
  { apply (Quoted "age" ">=" "18");
      [discriminate|reflexivity|reflexivity|simpl; tauto]. }
  split.
  { apply (Quoted "id" "=" "true");
      [discriminate|reflexivity|reflexivity|simpl; tauto]. }
  split.
  { apply (NumAfter "id" "<" "-2.50");
      [discriminate|reflexivity|reflexivity|simpl; tauto|reflexivity]. }
  split.
  { apply (NumAfter "price" ">=" "18");
      [discriminate|reflexivity|reflexivity|simpl; tauto|reflexivity]. }
  apply (BoolAfter "ok" "!=" "False" false);
    [discriminate|reflexivity|reflexivity|simpl; tauto|reflexivity].
Defined.

End ValueTyping.

(** *** The parentheses of a where value *)

Section WhereValue.

Import JS Parse Spec Props.

(** The loop of [unwrapWhere] over a text without parentheses keeps the
    depth. *)
Lemma unwrapLoop_flat :
  forall a rest i last depth,
    allChars notParen a = true ->
    (0 < depth)%Z ->
    unwrapLoop (a ^^ rest) i last depth
    = unwrapLoop rest (i + String.length a) last depth.
Proof.
  induction a as [|c a IH]; intros rest i last depth A D.
  - cbn [append String.length]. f_equal. lia.
  - cbn [allChars] in A. apply andb_true_iff in A as [Hc A].
    unfold notParen in Hc. apply negb_true_iff in Hc.
    apply orb_false_iff in Hc as [Ho Hcl].
    cbn [append unwrapLoop String.length]. rewrite Ho, Hcl. cbv zeta.
    destruct (depth <? 0)%Z eqn:L; [apply Z.ltb_lt in L; lia|].
    destruct (depth =? 0)%Z eqn:Z0; [apply Z.eqb_eq in Z0; lia|].
    cbn [andb]. rewrite IH by assumption. f_equal. lia.
Qed.

Lemma endsWith_snoc :
  forall s c, endsWith (s ^^ str1 c) (str1 c) = true.
Proof.
  intros s c. unfold endsWith. rewrite rev_snoc.
  change (JS.rev (str1 c)) with (str1 c). cbn [str1 String.prefix].
  destruct (ascii_dec c c) as [_|N]; [|congruence].
  destruct (JS.rev s); reflexivity.
Qed.

Lemma trim_group :
  forall a, trim ("(" ^^ a ^^ ")") = "(" ^^ a ^^ ")".
Proof.
  intro a. apply trim_ends; [reflexivity|].
  rewrite <- append_assoc. apply rev_solid_head; [discriminate|reflexivity].
Qed.

Lemma slice_inside :
  forall a,
    slice ("(" ^^ a ^^ ")") 1 (String.length ("(" ^^ a ^^ ")") - 1) = a.
Proof.
  intro a.
  replace (String.length ("(" ^^ a ^^ ")") - 1) with (1 + String.length a)
    by (cbn [append String.length]; rewrite length_append; simpl; lia).
  rewrite slice_suffix.
  change 1 with (String.length "(") at 1.
  rewrite sliceFrom_after. apply substring_append.
Qed.

(** A text without parentheses between one pair of parentheses. *)
Lemma unwrapWhere_group :
  forall a,
    allChars notParen a = true ->
    unwrapWhere ("(" ^^ a ^^ ")") = Ok (trim a).
Proof.
  intros a A. unfold unwrapWhere. cbv zeta. rewrite trim_group.
  assert (P : startsWith ("(" ^^ a ^^ ")") "(" = true)
    by (unfold startsWith; cbn; destruct (a ^^ ")"); reflexivity).
  rewrite P.
  assert (U : unwrapLoop ("(" ^^ a ^^ ")") 0
                (String.length ("(" ^^ a ^^ ")") - 1) 0%Z = Ok 0%Z).
  { cbn [append unwrapLoop]. change (Ascii.eqb "(" "(") with true. cbv iota zeta.
    change (0 + 1 <? 0)%Z with false. change (0 + 1 =? 0)%Z with false.
    cbn [andb]. rewrite unwrapLoop_flat by (exact A || reflexivity).
    cbn [unwrapLoop]. change (Ascii.eqb ")" "(") with false.
    change (Ascii.eqb ")" ")") with true. cbv iota zeta.
    change (0 + 1 - 1 <? 0)%Z with false. change (0 + 1 - 1 =? 0)%Z with true.
    cbn [andb].
    assert (E : (1 + String.length a <? String.length (String "(" (a ^^ ")")) - 1)
                = false).
    { apply Nat.ltb_ge. cbn [String.length]. rewrite length_append. simpl. lia. }
    rewrite E. reflexivity. }
  rewrite U. change (negb (0 =? 0)%Z) with false. cbv iota.
  assert (Ew : endsWith ("(" ^^ a ^^ ")") ")" = true)
    by (rewrite <- append_assoc; apply (endsWith_snoc ("(" ^^ a) ")"%char)).
  rewrite Ew. cbn [negb]. rewrite slice_inside. reflexivity.
Qed.

(** When the first parenthesis closes before the last character, the value
    is rejected, whatever follows. *)
Lemma unwrapWhere_early_close :
  forall a b,
    allChars notParen a = true ->
    unwrapWhere ("(" ^^ a ^^ ")" ^^ b ^^ ")")
    = Throw "Unbalanced or invalid where expression".
Proof.
  intros a b A. unfold unwrapWhere. cbv zeta.
  assert (T : trim ("(" ^^ a ^^ ")" ^^ b ^^ ")") = "(" ^^ a ^^ ")" ^^ b ^^ ")").
  { apply trim_ends; [reflexivity|].
    rewrite <- !append_assoc. apply rev_solid_head; [discriminate|reflexivity]. }
  rewrite T.
  assert (P : startsWith ("(" ^^ a ^^ ")" ^^ b ^^ ")") "(" = true)
    by (unfold startsWith; cbn; destruct (a ^^ String ")" (b ^^ ")")); reflexivity).
  rewrite P.
  cbn [append unwrapLoop]. change (Ascii.eqb "(" "(") with true. cbv iota zeta.
  change (0 + 1 <? 0)%Z with false. change (0 + 1 =? 0)%Z with false.
  cbn [andb]. rewrite unwrapLoop_flat by (exact A || reflexivity).
  cbn [unwrapLoop]. change (Ascii.eqb ")" "(") with false.
  change (Ascii.eqb ")" ")") with true. cbv iota zeta.
  change (0 + 1 - 1 <? 0)%Z with false. change (0 + 1 - 1 =? 0)%Z with true.
  cbn [andb].
  assert (E : (1 + String.length a
               <? String.length (String "(" (a ^^ String ")" (b ^^ ")"))) - 1)
              = true).
  { apply Nat.ltb_lt. cbn [String.length]. rewrite length_append.
    cbn [String.length]. rewrite length_append. simpl. lia. }
  rewrite E. reflexivity.
Qed.

(** X14 -- the parentheses of a where value.  Around a text without
    parentheses, one pair is removed and the inside is trimmed.  The
    parenthesis that closes the first one has to be the last character:
    when it comes earlier the value is rejected, whatever stands between it
    and the end, quoted strings included, since the scan of [unwrapWhere]
    counts every parenthesis. *)
Theorem X14_unwrapWhere_outer_parentheses :
  forall a,
    allChars notParen a = true ->
    unwrapWhere ("(" ^^ a ^^ ")") = Ok (trim a)
    /\ (forall b,
          unwrapWhere ("(" ^^ a ^^ ")" ^^ b ^^ ")")
          = Throw "Unbalanced or invalid where expression").
Proof.
  intros a A. split.
  - apply unwrapWhere_group. exact A.
  - intro b. apply unwrapWhere_early_close. exact A.
Qed.

Lemma X14_witness :
  unwrapWhere ("(" ^^ " a=1 " ^^ ")") = Ok (trim " a=1 ")
  /\ (forall b,
        unwrapWhere ("(" ^^ " a=1 " ^^ ")" ^^ b ^^ ")")
        = Throw "Unbalanced or invalid where expression").
Proof.
  apply (X14_unwrapWhere_outer_parentheses " a=1 "). reflexivity.
Defined.

End WhereValue.

(** *** A string value through the whole parser *)

Section WhereRoundTrip.

Import JS Parse Spec Props.

Lemma inside_suffix :
  forall s i c r,
    sliceFrom s i = String c r -> (i <? String.length s) = true.
Proof.
  intros s i c r H. rewrite Nat.ltb_antisym, atEnd_suffix, H. reflexivity.
Qed.

(** The iterations of the loop over a where block: at a character that is
    no backslash, quote or parenthesis, at a quoted string, and at a closing
    parenthesis. *)
Lemma whereBlockLoop_plain :
  forall fuel str i depth c r,
    sliceFrom str i = String c r ->
    plainChar c = true -> notParen c = true ->
    whereBlockLoop (S fuel) str i (S depth)
    = whereBlockLoop fuel str (S i) (S depth).
Proof.
  intros fuel str i depth c r H Pc Np.
  rewrite whereBlockLoop_unfold, (inside_suffix _ _ _ _ H).
  cbn [Nat.ltb Nat.leb andb].
  rewrite !(charIs_suffix _ _ _ _ _ H).
  unfold plainChar in Pc. apply andb_true_iff in Pc as [Nq Nb].
  apply negb_true_iff in Nq, Nb.
  unfold notParen in Np. apply negb_true_iff in Np.
  apply orb_false_iff in Np as [No Nc].
  rewrite Nb, Nq, No, Nc. reflexivity.
Qed.

Lemma whereBlockLoop_quoted :
  forall fuel str i depth r j,
    sliceFrom str i = String dquote r ->
    skipQuoted r (S i) = (j, true) ->
    whereBlockLoop (S fuel) str i (S depth) = whereBlockLoop fuel str j (S depth).
Proof.
  intros fuel str i depth r j H Q.
  rewrite whereBlockLoop_unfold, (inside_suffix _ _ _ _ H).
  cbn [Nat.ltb Nat.leb andb].
  rewrite !(charIs_suffix _ _ _ _ _ H).
  change (Ascii.eqb dquote backslash) with false.
  rewrite Ascii.eqb_refl. cbv iota.
  assert (N : sliceFrom str (S i) = r).
  { replace (S i) with (i + String.length (str1 dquote)) by (simpl; lia).
    apply sliceFrom_advance. exact H. }
  rewrite N, Q. reflexivity.
Qed.

Lemma whereBlockLoop_close :
  forall fuel str i depth r,
    sliceFrom str i = String ")" r ->
    whereBlockLoop (S fuel) str i (S depth) = whereBlockLoop fuel str (S i) depth.
Proof.
  intros fuel str i depth r H.
  rewrite whereBlockLoop_unfold, (inside_suffix _ _ _ _ H).
  cbn [Nat.ltb Nat.leb andb].
  rewrite !(charIs_suffix _ _ _ _ _ H).
  change (Ascii.eqb ")" backslash) with false.
  change (Ascii.eqb ")" dquote) with false.
  change (Ascii.eqb ")" "(") with false.
  rewrite Ascii.eqb_refl. cbv iota.
  replace (S depth - 1) with depth by lia. reflexivity.
Qed.

Lemma whereBlockLoop_done :
  forall fuel str i, whereBlockLoop (S fuel) str i 0 = Ok (i, 0).
Proof.
  intros fuel str i. rewrite whereBlockLoop_unfold.
  cbn [Nat.ltb Nat.leb]. rewrite andb_false_r. reflexivity.
Qed.

Lemma escape_notParen :
  forall v, allChars notParen v = true -> allChars notParen (escape v) = true.
Proof.
  induction v as [|c v IH]; intro A; [reflexivity|].
  cbn [allChars] in A. apply andb_true_iff in A as [Hc A].
  cbn [escape].
  destruct (Ascii.eqb c dquote || Ascii.eqb c backslash);
    cbn [allChars]; rewrite Hc, (IH A); reflexivity.
Qed.

Variable v : string.

Let body : string := escape v.
Let inner : string := "id=" ^^ quoted (escape v).
Let str : string := "where:(" ^^ inner ^^ ")".

Lemma where_text :
  str = "where:(id=" ^^ String dquote (body ^^ String dquote ")").
Proof.
  unfold str, inner, quoted, body. cbn [append str1].
  rewrite append_assoc. reflexivity.
Qed.

Lemma where_length : String.length str = 13 + String.length body.
Proof.
  rewrite where_text. cbn [append String.length]. rewrite length_append.
  simpl. lia.
Qed.

Lemma where_block :
  whereBlockLoop (S (String.length str)) str 7 1 = Ok (String.length str, 0).
Proof.
  rewrite where_length.
  replace (S (13 + String.length body))
    with (S (S (S (S (S (S (8 + String.length body))))))) by lia.
  rewrite where_text.
  set (q := String dquote (body ^^ String dquote ")")).
  set (s := "where:(id=" ^^ q).
  rewrite (whereBlockLoop_plain _ s 7 0 "i" ("d=" ^^ q)
             (sliceFrom_after "where:(" ("id=" ^^ q)) eq_refl eq_refl).
  rewrite (whereBlockLoop_plain _ s 8 0 "d" ("=" ^^ q)
             (sliceFrom_after "where:(i" ("d=" ^^ q)) eq_refl eq_refl).
  rewrite (whereBlockLoop_plain _ s 9 0 "=" q
             (sliceFrom_after "where:(id" ("=" ^^ q)) eq_refl eq_refl).
  rewrite (whereBlockLoop_quoted _ s 10 0 (body ^^ String dquote ")")
             (11 + String.length body + 1)
             (sliceFrom_after "where:(id=" q)
             (skipQuoted_escape v ")" 11)).
  assert (H : sliceFrom s (11 + String.length body + 1) = ")").
  { replace (11 + String.length body + 1)
      with (String.length (("where:(id=" ^^ str1 dquote) ^^ body ^^ str1 dquote))
      by (rewrite !length_append; simpl; lia).
    replace s with ((("where:(id=" ^^ str1 dquote) ^^ body ^^ str1 dquote) ^^ ")").
    - apply sliceFrom_after.
    - unfold s, q. cbn [append str1]. rewrite append_assoc. reflexivity. }
  rewrite (whereBlockLoop_close _ s _ 0 EmptyString H).
  rewrite whereBlockLoop_done. f_equal. f_equal. lia.
Qed.

Lemma where_split : splitTopLevel str = Ok [str].
Proof.
  unfold splitTopLevel.
  replace (S (String.length str)) with (S (S (String.length str - 1)))
    by (rewrite where_length; lia).
  rewrite splitLoop_unfold.
  assert (H0 : sliceFrom str 0 = String "w" ("here:(" ^^ inner ^^ ")"))
    by (rewrite sliceFrom_0; reflexivity).
  rewrite atEnd_suffix, H0. cbn [isEmpty]. cbv zeta.
  rewrite (skipWs_stay str 0 _ _ H0 eq_refl).
  rewrite atEnd_suffix, H0. cbn [isEmpty].
  rewrite (charIs_suffix str 0 _ _ dquote H0).
  change (Ascii.eqb "w" dquote) with false. cbv iota.
  rewrite !slice6_prefix by reflexivity. rewrite H0.
  change (String.prefix "order:" (String "w" ("here:(" ^^ inner ^^ ")")))
    with false.
  change (String.prefix "where:" (String "w" ("here:(" ^^ inner ^^ ")")))
    with true.
  cbv iota.
  assert (C : charIs str (0 + 6) "(" = true) by reflexivity.
  rewrite C. cbn [andb].
  change (0 + 7) with 7. rewrite where_block.
  cbn [Nat.eqb]. cbv iota.
  assert (Sl : slice str 0 (String.length str) = str).
  { change (String.length str) with (0 + String.length str).
    rewrite slice_suffix, sliceFrom_0. apply substring_full. }
  rewrite Sl. apply splitLoop_end.
  rewrite <- (append_nil_r str) at 1. apply sliceFrom_after.
Qed.

Lemma inner_notParen :
  allChars notParen v = true -> allChars notParen inner = true.
Proof.
  intro A. unfold inner, quoted. cbn [append str1 allChars].
  rewrite !allChars_append, (escape_notParen v A). reflexivity.
Qed.

Lemma inner_trim : trim inner = inner.
Proof.
  apply trim_ends; [reflexivity|].
  unfold inner, quoted. rewrite <- !append_assoc.
  apply rev_solid_head; [discriminate|reflexivity].
Qed.

Lemma where_clause :
  allChars notParen v = true ->
  parseClause emptyQuery str
  = Ok (mkQuery None None None None (Some (Comparison "id" "=" (VString v)))).
Proof.
  intro A. unfold parseClause.
  change (indexOf str ":"%char) with (Some 5). cbv zeta.
  change (slice str 0 5) with "where".
  change (toLowerCase (trim "where")) with "where".
  change (String.eqb "where" "entity") with false.
  change (String.eqb "where" "limit") with false.
  change (String.eqb "where" "order") with false.
  change (String.eqb "where" "include") with false.
  change (String.eqb "where" "where") with true. cbv iota.
  cbn [where_ emptyQuery isSome].
  assert (V : sliceFrom str 6 = "(" ^^ inner ^^ ")")
    by (exact (sliceFrom_after "where:" ("(" ^^ inner ^^ ")"))).
  rewrite V, trim_group. cbn [append isEmpty].
  change (String "(" (inner ^^ ")")) with ("(" ^^ inner ^^ ")").
  rewrite (unwrapWhere_group inner (inner_notParen A)), inner_trim.
  unfold inner. rewrite parseWhere_id_escaped. reflexivity.
Qed.

(** X15 -- a string value through the whole parser: for every text [v]
    without parentheses, the query whose where clause compares [id] with the
    quoted string that holds [v], a backslash before each double quote and
    each backslash, parses to the comparison of [id] with the string [v];
    whitespace and key names inside the quotes are kept as they are. *)
Theorem X15_where_string_value_round_trip :
  allChars notParen v = true ->
  parsePlainText ("where:(" ^^ "id=" ^^ quoted (escape v) ^^ ")") None
  = Ok (mkQuery None None None None (Some (Comparison "id" "=" (VString v)))).
Proof.
  intro A. change ("where:(" ^^ "id=" ^^ quoted (escape v) ^^ ")") with str.
  unfold parsePlainText. cbv zeta.
  assert (T : trim str = str).
  { apply trim_ends; [reflexivity|].
    unfold str. rewrite <- append_assoc.
    apply rev_solid_head; [discriminate|reflexivity]. }
  rewrite T. change (isEmpty str) with false. cbv iota.
  rewrite where_split. cbn [parseClauses]. rewrite (where_clause A).
  reflexivity.
Qed.

End WhereRoundTrip.

Section WhereRoundTripWitness.

Import JS Parse Spec Props.

Lemma X15_witness :
  parsePlainText
    ("where:(" ^^ "id=" ^^ quoted (escape " limit:5 or ") ^^ ")") None
  = Ok (mkQuery None None None None
          (Some (Comparison "id" "=" (VString " limit:5 or ")))).
Proof.
  apply (X15_where_string_value_round_trip " limit:5 or "). reflexivity.
Defined.

End WhereRoundTripWitness.

(* ================================================================== *)
(** ** Further properties of the autocomplete *)
(* ================================================================== *)

(** *** The suggestions *)

Section SuggestionFacts.

Import JS Autocomplete Spec Props.

Lemma label_plain : forall n x, label (plain n x) = x.
Proof. reflexivity. Qed.

Lemma labels_plain : forall n xs, map label (map (plain n) xs) = xs.
Proof.
  intros n xs. rewrite map_map. induction xs as [|x xs IH]; [reflexivity|].
  cbn [map]. rewrite IH. reflexivity.
Qed.

Lemma NoDup_uniq : forall xs, NoDup (uniq xs).
Proof. intro xs. apply NoDup_uniqAcc. Qed.

Lemma NoDup_TOP_LEVEL_KEYS : NoDup TOP_LEVEL_KEYS.
Proof.
  unfold TOP_LEVEL_KEYS.
  repeat (constructor; [simpl; intuition discriminate|]). constructor.
Qed.

Lemma NoDup_WHERE_OPS : NoDup WHERE_OPS.
Proof.
  unfold WHERE_OPS.
  repeat (constructor; [simpl; intuition discriminate|]). constructor.
Qed.

(** X16 -- no label comes twice among the suggestions of a context, in
    every context but the entity value (the names of the schema are listed
    as they are) and the order value after a field (the two directions are
    appended to the field names): the other lists come out of a set, of the
    fixed list of keys or of the list of operators. *)
Theorem X16_labels_are_distinct :
  forall context schema,
    dedupes context = true ->
    NoDup (map label (getSuggestions context schema)).
Proof.
  intros context schema D. unfold getSuggestions. cbv zeta.
  destruct context as [p used|p|p|p e a|p e|p e|p f o e|p].
  - rewrite labels_plain. apply NoDup_filter. exact NoDup_TOP_LEVEL_KEYS.
  - discriminate D.
  - constructor.
  - destruct a as [[|]|]; [discriminate D| |];
      rewrite labels_plain; apply NoDup_uniq.
  - rewrite labels_plain. apply NoDup_uniq.
  - match goal with |- context [if ?b then _ else _] => destruct b end.
    + rewrite map_map. cbn [map WHERE_OPS withReplace label].
      exact NoDup_WHERE_OPS.
    + rewrite labels_plain. apply NoDup_uniq.
  - rewrite labels_plain. apply NoDup_uniq.
  - constructor.
Qed.

Lemma X16_witness :
  NoDup (map label
           (getSuggestions (WhereValue "a" "status" "=" "user")
                           Schema.exampleSchema)).
Proof.
  apply X16_labels_are_distinct. reflexivity.
Defined.

Lemma lowerChar_idem : forall c, lowerChar (lowerChar c) = lowerChar c.
Proof. intros [[] [] [] [] [] [] [] []]; vm_compute; reflexivity. Qed.

Lemma toLowerCase_idem : forall s, toLowerCase (toLowerCase s) = toLowerCase s.
Proof.
  induction s as [|c s IH]; [reflexivity|].
  cbn [toLowerCase]. rewrite lowerChar_idem, IH. reflexivity.
Qed.

Lemma toLowerCase_length :
  forall s, String.length (toLowerCase s) = String.length s.
Proof. induction s as [|c s IH]; [reflexivity|]. simpl. rewrite IH. reflexivity. Qed.

(** X17 -- the suggestions outside the where-field context do not depend
    on the case of the partial: the context with its partial in lower case
    gets the same labels, insert texts and [replacePartial] marks, in the
    same order.  The lengths to replace are those of the two partials; where
    lowering the case keeps the length of the partial (as it does on
    Latin-1 text, and as it does not on U+0130) the suggestions are the
    same altogether. *)
Theorem X17_partial_case_is_ignored :
  forall context schema,
    isWhereField context = false ->
    map withoutLength (getSuggestions (lowerPartial context) schema)
    = map withoutLength (getSuggestions context schema)
    /\ (String.length (toLowerCase (contextPartial context))
        = String.length (contextPartial context) ->
        getSuggestions (lowerPartial context) schema
        = getSuggestions context schema).
Proof.
  intros context schema W.
  assert (E : forall a b (xs : list string),
            map withoutLength (map (plain a) xs)
            = map withoutLength (map (plain b) xs)).
  { intros a b xs. rewrite !map_map. reflexivity. }
  split.
  - unfold getSuggestions. cbv zeta.
    destruct context as [p used|p|p|p e a|p e|p e|p f o e|p];
      try discriminate W;
      cbn [lowerPartial contextPartial];
      rewrite ?toLowerCase_idem;
      try (destruct a as [[|]|]);
      rewrite ?map_app,
        ?(E (String.length (toLowerCase p)) (String.length p));
      try reflexivity.
    rewrite !map_map. reflexivity.
  - intro L. unfold getSuggestions. cbv zeta.
    destruct context as [p used|p|p|p e a|p e|p e|p f o e|p];
      try discriminate W;
      cbn [lowerPartial contextPartial] in *;
      rewrite ?toLowerCase_idem, ?L; reflexivity.
Qed.

Lemma X17_witness :
  map withoutLength
      (getSuggestions (lowerPartial (IncludeValue "PO" "user"))
                      Schema.exampleSchema)
  = map withoutLength
        (getSuggestions (IncludeValue "PO" "user") Schema.exampleSchema)
  /\ getSuggestions (lowerPartial (IncludeValue "PO" "user"))
                    Schema.exampleSchema
     = getSuggestions (IncludeValue "PO" "user") Schema.exampleSchema.
Proof.
  destruct (X17_partial_case_is_ignored (IncludeValue "PO" "user")
              Schema.exampleSchema eq_refl) as [A B].
  split; [exact A|apply B; reflexivity].
Defined.

(** X18 -- the shape of a suggestion: in every context and for every
    schema, a suggestion inserts its own label, and [replacePartial] is
    either absent or [false]; it is [false] only in the where-field context,
    on a comparison operator. *)
Theorem X18_suggestion_shape :
  forall context schema,
    Forall (fun s =>
              insertText s = label s
              /\ (replacePartial s = None
                  \/ (replacePartial s = Some false
                      /\ In (label s) WHERE_OPS
                      /\ isWhereField context = true)))
           (getSuggestions context schema).
Proof.
  intros context schema.
  assert (Pl : forall n xs,
             Forall (fun s =>
                       insertText s = label s
                       /\ (replacePartial s = None
                           \/ (replacePartial s = Some false
                               /\ In (label s) WHERE_OPS
                               /\ isWhereField context = true)))
                    (map (plain n) xs)).
  { intros n xs. apply Forall_forall. intros s Hs.
    apply in_map_iff in Hs as [x [<- _]]. split; [reflexivity|left; reflexivity]. }
  unfold getSuggestions. cbv zeta.
  destruct context as [p used|p|p|p e a|p e|p e|p f o e|p];
    try apply Pl; try constructor.
  - rewrite <- (map_map Schema.name (plain (String.length p))). apply Pl.
  - destruct a as [[|]|]; try apply Pl. rewrite <- map_app. apply Pl.
  - match goal with |- context [if ?b then _ else _] => destruct b end;
      [|apply Pl].
    apply Forall_forall. intros s Hs.
    apply in_map_iff in Hs as [op [<- Io]].
    split; [reflexivity|right]. repeat split. exact Io.
Qed.

End SuggestionFacts.

(** *** The keys that a query uses *)

Section KeysUsed.

Import JS Autocomplete Spec Props.

Lemma keysLoop_S :
  forall fuel query i keys,
    keysLoop (S fuel) query i keys
    = let len := String.length query in
      if len <=? i then Some keys else
      let i := skipWs query i in
      if len <=? i then Some keys
      else if charIs query i dquote then
        keysLoop fuel query (skipQuotedString query i) keys
      else if String.eqb (slice query i (i + 6)) "where:" then
        match skipWhereBlock fuel query i with
        | None => None
        | Some j => keysLoop fuel query j (setAdd keys "where")
        end
      else if String.eqb (toLowerCase (slice query i (i + 6))) "order:" then
        keysLoop fuel query (findNextKeyStart query (i + 6)) (setAdd keys "order")
      else
        let start := i in
        let i := skipNonWs query i in
        let segment := slice query start i in
        let keys :=
          match indexOf segment ":"%char with
          | Some colonIndex =>
              let key := toLowerCase (trim (slice segment 0 colonIndex)) in
              if String.eqb key "entity" || String.eqb key "limit"
                 || String.eqb key "include"
              then setAdd keys key else keys
          | None => keys
          end in
        keysLoop fuel query i keys.
Proof. reflexivity. Qed.

(** Adding to an insertion-ordered set keeps it free of duplicates. *)
Lemma setAdd_inv :
  forall keys k,
    In k Parse.KEYS ->
    NoDup keys /\ incl keys Parse.KEYS ->
    NoDup (setAdd keys k) /\ incl (setAdd keys k) Parse.KEYS.
Proof.
  intros keys k Ik [ND Inc]. unfold setAdd.
  destruct (has keys k) eqn:H; [split; assumption|]. split.
  - apply NoDup_app; [exact ND|constructor; [intros []|constructor]|].
    intros x Ix [<-|[]]. apply (proj2 (has_In _ _)) in Ix. congruence.
  - apply incl_app; [exact Inc|]. intros x [<-|[]]. exact Ik.
Qed.

Lemma keysLoop_inv :
  forall fuel query i keys out,
    keysLoop fuel query i keys = Some out ->
    NoDup keys /\ incl keys Parse.KEYS ->
    NoDup out /\ incl out Parse.KEYS.
Proof.
  induction fuel as [|fuel IH]; intros query i keys out; [discriminate|].
  rewrite keysLoop_S. cbv zeta.
  destruct (String.length query <=? i);
    [intros H G; injection H as <-; exact G|].
  destruct (String.length query <=? skipWs query i);
    [intros H G; injection H as <-; exact G|].
  destruct (charIs query (skipWs query i) dquote); [apply IH|].
  destruct (String.eqb (slice query (skipWs query i) (skipWs query i + 6)) "where:").
  { destruct (skipWhereBlock fuel query (skipWs query i)) as [j|]; [|discriminate].
    intros H G. eapply IH; [exact H|].
    apply setAdd_inv; [simpl; tauto|exact G]. }
  destruct (String.eqb (toLowerCase (slice query (skipWs query i) (skipWs query i + 6)))
                       "order:").
  { intros H G. eapply IH; [exact H|].
    apply setAdd_inv; [simpl; tauto|exact G]. }
  intros H G. eapply IH; [exact H|]. clear H.
  destruct (indexOf _ ":"%char) as [colonIndex|]; [|exact G].
  match goal with |- context [if ?b then _ else _] => destruct b eqn:K end;
    [|exact G].
  apply setAdd_inv; [|exact G].
  apply orb_true_iff in K as [K|K]; [apply orb_true_iff in K as [K|K]|];
    apply String.eqb_eq in K; rewrite K; simpl; tauto.
Qed.

(** X19 -- the keys that [getTopLevelKeysUsed] reports are among entity,
    limit, order, include and where, and none is reported twice, however
    often a key is written in the query. *)
Theorem X19_used_keys_are_distinct_keys :
  forall fuel query keys,
    getTopLevelKeysUsed fuel query = Some keys ->
    NoDup keys /\ incl keys Parse.KEYS.
Proof.
  intros fuel query keys H. unfold getTopLevelKeysUsed in H.
  eapply keysLoop_inv; [exact H|]. split; [constructor|intros x []].
Qed.

Lemma X19_witness :
  NoDup ["entity"; "limit"] /\ incl ["entity"; "limit"] Parse.KEYS.
Proof.
  apply (X19_used_keys_are_distinct_keys 40 "entity:a LIMIT:1 entity:b limit:2").
  vm_compute; reflexivity.
Defined.

End KeysUsed.

(** *** The segment at the cursor *)

Section SegmentFacts.

Import JS Autocomplete Spec Props.

Lemma segmentLoop_S :
  forall fuel beforeCursor cursor i lastClauseStart,
    segmentLoop (S fuel) beforeCursor cursor i lastClauseStart
    = let len := String.length beforeCursor in
      if len <=? i then Some (inr lastClauseStart) else
      let i := skipWs beforeCursor i in
      if len <=? i then Some (inr lastClauseStart) else
      let clauseStart := i in
      if charIs beforeCursor i dquote then
        segmentLoop fuel beforeCursor cursor (skipQuotedString beforeCursor i)
                    lastClauseStart
      else if String.eqb (slice beforeCursor i (i + 6)) "where:"
              && charIs beforeCursor (i + 6) "("%char then
        match skipWhereBlock fuel beforeCursor i with
        | None => None
        | Some endOfBlock =>
            if cursor <=? endOfBlock then
              Some (inl (mkSegment (slice beforeCursor i cursor) i))
            else
              Some (inl (mkSegment (slice beforeCursor endOfBlock cursor)
                                   endOfBlock))
        end
      else if String.eqb (toLowerCase (slice beforeCursor i (i + 6))) "order:" then
        let segmentEnd := findNextKeyStart beforeCursor (i + 6) in
        if cursor <? segmentEnd then
          Some (inl (mkSegment (slice beforeCursor i cursor) i))
        else if segmentEnd <? len then
          segmentLoop fuel beforeCursor cursor segmentEnd segmentEnd
        else if (cursor =? len) && endsWithWs beforeCursor
                && isEmpty (trim (slice beforeCursor (i + 6) segmentEnd)) then
          segmentLoop fuel beforeCursor cursor len len
        else Some (inl (mkSegment (slice beforeCursor i cursor) i))
      else
        match matchKey ["entity"; "limit"; "include"] (sliceFrom beforeCursor i) with
        | Some key =>
            let i := i + (String.length key + 1) in
            if String.eqb key "include" then
              match includeLoop fuel beforeCursor i with
              | None => None
              | Some j => segmentLoop fuel beforeCursor cursor j clauseStart
              end
            else
              segmentLoop fuel beforeCursor cursor (skipNonWs beforeCursor i)
                          clauseStart
        | None =>
            segmentLoop fuel beforeCursor cursor (skipNonWs beforeCursor i)
                        clauseStart
        end.
Proof. reflexivity. Qed.

Lemma segmentLoop_inv :
  forall fuel beforeCursor cursor i lastClauseStart r,
    String.length beforeCursor = cursor ->
    lastClauseStart <= String.length beforeCursor ->
    segmentLoop fuel beforeCursor cursor i lastClauseStart = Some r ->
    segmentOk beforeCursor cursor r.
Proof.
  induction fuel as [|fuel IH]; intros bc cursor i last r L Hl; [discriminate|].
  rewrite segmentLoop_S. cbv zeta.
  destruct (String.length bc <=? i); [intro H; injection H as <-; exact Hl|].
  destruct (String.length bc <=? skipWs bc i) eqn:E;
    [intro H; injection H as <-; exact Hl|].
  apply Nat.leb_gt in E. set (j := skipWs bc i) in *.
  destruct (charIs bc j dquote); [apply IH; assumption|].
  destruct (String.eqb (slice bc j (j + 6)) "where:" && charIs bc (j + 6) "(").
  { destruct (skipWhereBlock fuel bc j) as [e|]; [|discriminate].
    destruct (cursor <=? e) eqn:C; intro H; injection H as <-; cbn.
    - split; [lia|reflexivity].
    - apply Nat.leb_gt in C. split; [lia|reflexivity]. }
  destruct (String.eqb (toLowerCase (slice bc j (j + 6))) "order:").
  { destruct (cursor <? findNextKeyStart bc (j + 6));
      [intro H; injection H as <-; cbn; split; [lia|reflexivity]|].
    destruct (findNextKeyStart bc (j + 6) <? String.length bc) eqn:S1.
    - apply Nat.ltb_lt in S1. apply IH; [exact L|lia].
    - destruct ((cursor =? String.length bc) && endsWithWs bc
                && isEmpty (trim (slice bc (j + 6) (findNextKeyStart bc (j + 6))))).
      + apply IH; [exact L|lia].
      + intro H; injection H as <-; cbn; split; [lia|reflexivity]. }
  destruct (matchKey ["entity"; "limit"; "include"] (sliceFrom bc j)) as [key|].
  - destruct (String.eqb key "include").
    + destruct (includeLoop fuel bc (j + (String.length key + 1))) as [k|];
        [|discriminate].
      apply IH; [exact L|lia].
    + apply IH; [exact L|lia].
  - apply IH; [exact L|lia].
Qed.

Lemma length_prefix :
  forall q c, c <= String.length q -> String.length (substring 0 c q) = c.
Proof.
  induction q as [|x q IH]; intros c H.
  - destruct c; simpl in *; [reflexivity|lia].
  - destruct c as [|c]; [reflexivity|]. simpl in *. rewrite IH by lia. reflexivity.
Qed.

Lemma substring_of_prefix :
  forall q a c,
    substring a (c - a) (substring 0 c q) = substring a (c - a) q.
Proof.
  induction q as [|x q IH]; intros a c.
  - destruct c; reflexivity.
  - destruct c as [|c].
    + cbn [Nat.sub]. rewrite !substring_none. reflexivity.
    + destruct a as [|a].
      * cbn [substring Nat.sub]. f_equal.
        pose proof (IH 0 c) as H. rewrite Nat.sub_0_r in H. exact H.
      * cbn [substring Nat.sub]. apply IH.
Qed.

Lemma segment_is_slice :
  forall fuel query cursor seg,
    cursor <= String.length query ->
    getSegmentAtCursor fuel query cursor = Some seg ->
    startIndex seg <= cursor
    /\ segment seg = slice query (startIndex seg) cursor.
Proof.
  intros fuel query cursor seg C. unfold getSegmentAtCursor. cbv zeta.
  set (bc := slice query 0 cursor).
  assert (L : String.length bc = cursor).
  { unfold bc, slice. rewrite Nat.sub_0_r. apply length_prefix. exact C. }
  assert (P : forall a, slice bc a cursor = slice query a cursor).
  { intro a. unfold bc, slice. rewrite Nat.sub_0_r. apply substring_of_prefix. }
  destruct (segmentLoop fuel bc cursor 0 0) as [[r|last]|] eqn:E;
    [| |discriminate];
    pose proof (segmentLoop_inv _ _ _ _ _ _ L (Nat.le_0_l _) E) as G;
    cbn [segmentOk] in G.
  - intro H; injection H as <-. destruct G as [G1 G2].
    split; [exact G1|]. rewrite G2. apply P.
  - destruct ((cursor =? String.length query) && (0 <? String.length bc)
              && endsWithWs bc);
      intro H; injection H as <-; cbn [startIndex segment].
    + split; [lia|]. unfold slice. rewrite L, Nat.sub_diag.
      symmetry. apply substring_none.
    + split; [lia|]. rewrite <- P. unfold sliceFrom, slice. rewrite L.
      reflexivity.
Qed.

(** X20 -- the segment that [getSegmentAtCursor] returns is the text of the
    query between the start index it reports and the cursor, and the start
    index is not behind the cursor. *)
Theorem X20_segment_ends_at_cursor :
  forall fuel query cursor seg,
    cursor <= String.length query ->
    getSegmentAtCursor fuel query cursor = Some seg ->
    startIndex seg <= cursor
    /\ segment seg = slice query (startIndex seg) cursor.
Proof. exact segment_is_slice. Qed.

Lemma X20_witness :
  startIndex (mkSegment "limit:1" 13) <= 20
  /\ segment (mkSegment "limit:1" 13) = slice "entity:users limit:10" 13 20.
Proof.
  apply (X20_segment_ends_at_cursor 40 "entity:users limit:10" 20).
  - vm_compute. repeat constructor.
  - vm_compute; reflexivity.
Defined.

End SegmentFacts.

(** *** The cursor *)

Section CursorFacts.

Import JS Autocomplete Spec Props.

Lemma segment_at_start :
  forall fuel query,
    getSegmentAtCursor (S fuel) query 0 = Some (mkSegment EmptyString 0).
Proof.
  intros fuel query. unfold getSegmentAtCursor. cbv zeta.
  assert (B : slice query 0 0 = EmptyString) by apply substring_none.
  rewrite B. cbn [segmentLoop String.length Nat.leb Nat.ltb].
  rewrite andb_false_r. reflexivity.
Qed.

(** X21 -- the cursor is clamped to the query: a cursor before the start
    is read as 0 and a cursor behind the end as the length of the query.
    At the start of the query the context is the top level with an empty
    partial and the keys that the whole query uses. *)
Theorem X21_cursor_is_clamped :
  forall fuel query cursor,
    ((cursor <= 0)%Z ->
     getContext (S fuel) query cursor
     = option_map (TopLevel EmptyString) (getTopLevelKeysUsed (S fuel) query))
    /\ ((Z.of_nat (String.length query) <= cursor)%Z ->
        getContext fuel query cursor
        = getContext fuel query (Z.of_nat (String.length query))).
Proof.
  intros fuel query cursor. split.
  - intro C. unfold getContext. cbv zeta.
    replace (Z.to_nat (Z.max 0 (Z.min cursor (Z.of_nat (String.length query)))))
      with 0 by lia.
    rewrite segment_at_start. cbn [segment isEmpty].
    destruct (getTopLevelKeysUsed (S fuel) query); reflexivity.
  - intro C. unfold getContext. cbv zeta.
    replace (Z.to_nat (Z.max 0 (Z.min cursor (Z.of_nat (String.length query)))))
      with (Z.to_nat (Z.max 0 (Z.min (Z.of_nat (String.length query))
                                     (Z.of_nat (String.length query)))))
      by lia.
    reflexivity.
Qed.

Lemma X21_witness :
  getContext 30 "entity:users limit:1" (-5)
  = option_map (TopLevel EmptyString)
      (getTopLevelKeysUsed 30 "entity:users limit:1")
  /\ getContext 30 "entity:users limit:1" 99
     = getContext 30 "entity:users limit:1"
         (Z.of_nat (String.length "entity:users limit:1")).
Proof.
  split.
  - apply (proj1 (X21_cursor_is_clamped 29 "entity:users limit:1" (-5))).
    vm_compute. discriminate.
  - apply (proj2 (X21_cursor_is_clamped 30 "entity:users limit:1" 99)).
    vm_compute. discriminate.
Defined.

End CursorFacts.

(** *** The loops of the context end *)

Section ContextTotal.

Import JS Autocomplete Spec Props.

(** The scanners move forward. *)

Lemma quotedEnd_ge :
  forall n rest i, String.length rest <= n -> i <= quotedEnd rest i.
Proof.
  induction n as [|n IH]; intros rest i L.
  - destruct rest; [simpl; lia|simpl in L; lia].
  - destruct rest as [|c r]; [simpl; lia|]. simpl in L. cbn [quotedEnd].
    destruct (Ascii.eqb c backslash).
    + destruct r as [|d r']; [lia|]. simpl in L.
      specialize (IH r' (i + 2)). lia.
    + destruct (Ascii.eqb c dquote); [lia|].
      specialize (IH r (S i)). lia.
Qed.

Lemma skipQuotedString_gt : forall s i, i < skipQuotedString s i.
Proof.
  intros s i. unfold skipQuotedString.
  pose proof (quotedEnd_ge _ (sliceFrom s (S i)) (S i) (Nat.le_refl _)). lia.
Qed.

Lemma scanValue_ge :
  forall n rest i value,
    String.length rest <= n -> i <= fst (scanValue rest i value).
Proof.
  induction n as [|n IH]; intros rest i value L.
  - destruct rest; [simpl; lia|simpl in L; lia].
  - destruct rest as [|c r]; [simpl; lia|]. simpl in L. cbn [scanValue].
    destruct (Ascii.eqb c backslash).
    + destruct r as [|d r']; [simpl; lia|]. simpl in L.
      specialize (IH r' (i + 2) (value ^^ str1 d)). lia.
    + destruct (Ascii.eqb c dquote); [simpl; lia|].
      specialize (IH r (S i) (value ^^ str1 c)). lia.
Qed.

Lemma skipWhereLoop_total :
  forall fuel s i depth,
    String.length s - i < fuel ->
    exists j, skipWhereLoop fuel s i depth = Some j /\ i <= j.
Proof.
  induction fuel as [|fuel IH]; intros s i depth F; [lia|].
  cbn [skipWhereLoop].
  destruct ((i <? String.length s) && (0 <? depth)) eqn:E;
    [|exists i; split; [reflexivity|lia]].
  apply andb_true_iff in E as [E _]. apply Nat.ltb_lt in E.
  assert (G : forall k d, i < k ->
                exists j, skipWhereLoop fuel s k d = Some j /\ i <= j).
  { intros k d K. destruct (IH s k d) as [j [H1 H2]]; [lia|].
    exists j. split; [exact H1|lia]. }
  destruct (charIs s i backslash); [apply G; lia|].
  destruct (charIs s i dquote); [apply G; apply skipQuotedString_gt|].
  destruct (charIs s i "("%char); [apply G; lia|].
  destruct (charIs s i ")"%char); apply G; lia.
Qed.

Lemma skipWhereBlock_total :
  forall fuel s start,
    String.length s - start <= fuel -> start < String.length s ->
    exists j, skipWhereBlock fuel s start = Some j /\ start + 6 <= j.
Proof.
  intros fuel s start F L. unfold skipWhereBlock. cbv zeta.
  destruct (charIs s (start + 6) "("%char); cbn [negb];
    [|exists (start + 6); split; [reflexivity|lia]].
  destruct (skipWhereLoop_total fuel s (S (start + 6)) 1) as [j [H1 H2]];
    [lia|].
  exists j. split; [exact H1|lia].
Qed.

Lemma findNextKeyStart_ge :
  forall s from, from <= String.length s -> from <= findNextKeyStart s from.
Proof.
  intros s from L. unfold findNextKeyStart, Parse.nextKey.
  destruct (Parse.nextKeyFrom true (sliceFrom s from) from) as [k|] eqn:E;
    [|exact L].
  apply nextKeyFrom_ge in E. exact E.
Qed.

Lemma slice_length_inside :
  forall s i n,
    String.length (slice s i (i + n)) = n -> 1 <= n -> i + n <= String.length s.
Proof.
  intros s i n L N. rewrite slice_suffix in L. revert i n L N.
  induction s as [|c s IH]; intros i n L N.
  - rewrite sliceFrom_empty in L. destruct n; simpl in *; lia.
  - destruct i as [|i].
    + rewrite sliceFrom_0 in L. apply substring_length_le in L. lia.
    + change (sliceFrom (String c s) (S i)) with (sliceFrom s i) in L.
      apply IH in L; [simpl; lia|exact N].
Qed.

Lemma order_inside :
  forall s i,
    String.eqb (toLowerCase (slice s i (i + 6))) "order:" = true ->
    i + 6 <= String.length s.
Proof.
  intros s i H. apply String.eqb_eq in H.
  apply slice_length_inside; [|lia].
  rewrite <- toLowerCase_length, H. reflexivity.
Qed.

(** The loops of the segment and of the keys. *)

Lemma includeLoop_total :
  forall fuel bc i,
    String.length bc - i < fuel ->
    exists j, includeLoop fuel bc i = Some j /\ i <= j.
Proof.
  induction fuel as [|fuel IH]; intros bc i F; [lia|].
  cbn [includeLoop]. cbv zeta.
  destruct (String.length bc <=? i); [exists i; split; [reflexivity|lia]|].
  pose proof (skipWs_ge bc i) as W.
  destruct (String.length bc <=? skipWs bc i) eqn:E;
    [exists (skipWs bc i); split; [reflexivity|exact W]|].
  apply Nat.leb_gt in E.
  destruct (String.eqb (slice bc (skipWs bc i) (skipWs bc i + 6)) "where:"
            && charIs bc (skipWs bc i + 6) "(");
    [exists (skipWs bc i); split; [reflexivity|exact W]|].
  destruct (Parse.isSome _);
    [exists (skipWs bc i); split; [reflexivity|exact W]|].
  assert (G : forall k, skipWs bc i < k ->
                exists j, includeLoop fuel bc k = Some j /\ i <= j).
  { intros k K. destruct (IH bc k) as [j [H1 H2]]; [lia|].
    exists j. split; [exact H1|lia]. }
  destruct (charIs bc (skipWs bc i) dquote);
    [apply G; apply skipQuotedString_gt|apply G; lia].
Qed.

Lemma segmentLoop_total :
  forall fuel bc cursor i last,
    String.length bc - i < fuel ->
    segmentLoop fuel bc cursor i last <> None.
Proof.
  induction fuel as [|fuel IH]; intros bc cursor i last F; [lia|].
  rewrite segmentLoop_S. cbv zeta.
  destruct (String.length bc <=? i); [discriminate|].
  pose proof (skipWs_ge bc i) as W.
  destruct (String.length bc <=? skipWs bc i) eqn:E; [discriminate|].
  apply Nat.leb_gt in E. set (j := skipWs bc i) in *.
  destruct (charIs bc j dquote).
  { apply IH. pose proof (skipQuotedString_gt bc j). lia. }
  destruct (String.eqb (slice bc j (j + 6)) "where:" && charIs bc (j + 6) "(").
  { destruct (skipWhereBlock_total fuel bc j) as [e [H1 _]]; [lia|exact E|].
    rewrite H1. destruct (cursor <=? e); discriminate. }
  destruct (String.eqb (toLowerCase (slice bc j (j + 6))) "order:") eqn:O.
  { apply order_inside in O.
    pose proof (findNextKeyStart_ge bc (j + 6) O) as K.
    destruct (cursor <? findNextKeyStart bc (j + 6)); [discriminate|].
    destruct (findNextKeyStart bc (j + 6) <? String.length bc);
      [apply IH; lia|].
    destruct ((cursor =? String.length bc) && endsWithWs bc
              && isEmpty (trim (slice bc (j + 6) (findNextKeyStart bc (j + 6)))));
      [apply IH; lia|discriminate]. }
  destruct (matchKey ["entity"; "limit"; "include"] (sliceFrom bc j)) as [key|].
  - destruct (String.eqb key "include").
    + destruct (includeLoop_total fuel bc (j + (String.length key + 1)))
        as [k [H1 H2]]; [lia|].
      rewrite H1. apply IH. lia.
    + apply IH.
      pose proof (scanWhile_ge (fun c => negb (isSpace c))
                    (sliceFrom bc (j + (String.length key + 1)))
                    (j + (String.length key + 1))) as S1.
      unfold skipNonWs. lia.
  - apply IH. pose proof (skipNonWs_after_skipWs bc i E). fold j in H. lia.
Qed.

Lemma getSegmentAtCursor_total :
  forall fuel query cursor,
    String.length query < fuel ->
    cursor <= String.length query ->
    exists seg, getSegmentAtCursor fuel query cursor = Some seg.
Proof.
  intros fuel query cursor F C. unfold getSegmentAtCursor. cbv zeta.
  assert (L : String.length (slice query 0 cursor) = cursor).
  { unfold slice. rewrite Nat.sub_0_r. apply length_prefix. exact C. }
  pose proof (segmentLoop_total fuel (slice query 0 cursor) cursor 0 0) as T.
  destruct (segmentLoop fuel (slice query 0 cursor) cursor 0 0) as [[r|last]|].
  - exists r. reflexivity.
  - match goal with |- context [if ?b then _ else _] => destruct b end;
      eexists; reflexivity.
  - exfalso. apply T; [lia|reflexivity].
Qed.

Lemma keysLoop_total :
  forall fuel query i keys,
    String.length query - i < fuel ->
    keysLoop fuel query i keys <> None.
Proof.
  induction fuel as [|fuel IH]; intros query i keys F; [lia|].
  rewrite keysLoop_S. cbv zeta.
  destruct (String.length query <=? i); [discriminate|].
  pose proof (skipWs_ge query i) as W.
  destruct (String.length query <=? skipWs query i) eqn:E; [discriminate|].
  apply Nat.leb_gt in E. set (j := skipWs query i) in *.
  destruct (charIs query j dquote).
  { apply IH. pose proof (skipQuotedString_gt query j). lia. }
  destruct (String.eqb (slice query j (j + 6)) "where:").
  { destruct (skipWhereBlock_total fuel query j) as [e [H1 H2]]; [lia|exact E|].
    rewrite H1. apply IH. lia. }
  destruct (String.eqb (toLowerCase (slice query j (j + 6))) "order:") eqn:O.
  { apply order_inside in O.
    pose proof (findNextKeyStart_ge query (j + 6) O) as K. apply IH. lia. }
  apply IH. pose proof (skipNonWs_after_skipWs query i E). fold j in H. lia.
Qed.

(** The tokenizer of the where clause, away from exclamation marks. *)

Lemma allChars_substring :
  forall p s n m, allChars p s = true -> allChars p (substring n m s) = true.
Proof.
  induction s as [|c s IH]; intros n m A.
  - destruct n, m; reflexivity.
  - cbn [allChars] in A. apply andb_true_iff in A as [Hc A].
    destruct n as [|n].
    + destruct m as [|m]; [reflexivity|].
      cbn [substring allChars]. rewrite Hc, (IH 0 m A). reflexivity.
    + cbn [substring]. apply IH. exact A.
Qed.

Lemma allChars_trimStart :
  forall p s, allChars p s = true -> allChars p (trimStart s) = true.
Proof.
  induction s as [|c s IH]; intro A; [reflexivity|].
  cbn [trimStart]. destruct (isSpace c); [|exact A].
  cbn [allChars] in A. apply andb_true_iff in A as [_ A]. apply IH. exact A.
Qed.

Lemma allChars_trimEnd :
  forall p s, allChars p s = true -> allChars p (trimEnd s) = true.
Proof.
  intros p s A. unfold trimEnd. rewrite allChars_rev.
  apply allChars_trimStart. rewrite allChars_rev. exact A.
Qed.

Lemma allChars_trim :
  forall p s, allChars p s = true -> allChars p (trim s) = true.
Proof.
  intros p s A. unfold trim. apply allChars_trimEnd, allChars_trimStart, A.
Qed.

Lemma length_substring_le :
  forall s n m, String.length (substring n m s) <= String.length s.
Proof.
  induction s as [|c s IH]; intros n m.
  - destruct n, m; simpl; lia.
  - destruct n as [|n].
    + destruct m as [|m]; [simpl; lia|].
      cbn [substring String.length]. specialize (IH 0 m). lia.
    + cbn [substring String.length]. specialize (IH n m). lia.
Qed.

Lemma length_rev : forall s, String.length (JS.rev s) = String.length s.
Proof.
  induction s as [|c s IH]; [reflexivity|].
  rewrite rev_cons, length_append, IH. simpl. lia.
Qed.

Lemma length_trimStart_le :
  forall s, String.length (trimStart s) <= String.length s.
Proof.
  induction s as [|c s IH]; [simpl; lia|].
  cbn [trimStart]. destruct (isSpace c); simpl in *; lia.
Qed.

Lemma length_trimEnd_le :
  forall s, String.length (trimEnd s) <= String.length s.
Proof.
  intro s. unfold trimEnd. rewrite length_rev.
  pose proof (length_trimStart_le (JS.rev s)) as H. rewrite length_rev in H.
  exact H.
Qed.

Lemma length_trim_le : forall s, String.length (trim s) <= String.length s.
Proof.
  intro s. unfold trim.
  pose proof (length_trimEnd_le (trimStart s)).
  pose proof (length_trimStart_le s). lia.
Qed.

(** After the whitespace is skipped, the unread text is empty or starts with
    a character that is no whitespace. *)
Lemma skipWs_view :
  forall s i,
    skipWs s i < String.length s ->
    exists c rest,
      sliceFrom s (skipWs s i) = String c rest /\ isSpace c = false.
Proof.
  intros s i L.
  destruct (scanWhile_split isSpace (sliceFrom s i) i) as [a [b [E [J [_ St]]]]].
  unfold skipWs in *. rewrite J in *.
  apply sliceFrom_advance in E.
  assert (N : isEmpty b = false).
  { rewrite <- E, <- atEnd_suffix. apply Nat.leb_gt. exact L. }
  destruct b as [|d b]; [discriminate|].
  exists d, b. split; [exact E|exact St].
Qed.

Lemma allChars_sliceFrom :
  forall p s i, allChars p s = true -> allChars p (sliceFrom s i) = true.
Proof. intros p s i A. unfold sliceFrom. apply allChars_substring. exact A. Qed.

Lemma op_length : forall op, In op WHERE_OPS -> 1 <= String.length op.
Proof.
  intros op H. unfold WHERE_OPS in H. simpl in H.
  repeat (destruct H as [<-|H]; [simpl; lia|]). contradiction.
Qed.

(** An iteration of the tokenizer moves forward when the text holds no
    exclamation mark. *)
Lemma tokenizeStep_progress :
  forall s i tokens,
    i < String.length s ->
    allChars noBang s = true ->
    i < fst (tokenizeStep s i tokens).
Proof.
  intros s i tokens L A. unfold tokenizeStep. cbv zeta.
  pose proof (skipWs_ge s i) as W.
  destruct (String.length s <=? skipWs s i) eqn:E;
    [apply Nat.leb_le in E; simpl; lia|].
  apply Nat.leb_gt in E.
  destruct (skipWs_view s i E) as [c [rest [H Nsp]]].
  set (j := skipWs s i) in *.
  rewrite !(charIs_suffix s j c rest _ H).
  destruct (Ascii.eqb c "("%char) eqn:Po; [simpl; lia|].
  destruct (Ascii.eqb c ")"%char) eqn:Pc; [simpl; lia|]. cbn [orb].
  destruct (keywordAt s j "or"); [simpl; lia|].
  destruct (keywordAt s j "and"); [simpl; lia|].
  destruct (opFound s j) as [op|] eqn:O.
  { unfold opFound in O. apply find_some in O as [Io _].
    apply op_length in Io. simpl. lia. }
  destruct (Ascii.eqb c dquote) eqn:Q.
  { pose proof (scanValue_ge _ (sliceFrom s (S j)) (S j) EmptyString
                  (Nat.le_refl _)) as G.
    destruct (scanValue (sliceFrom s (S j)) (S j) EmptyString) as [k value].
    simpl in *. lia. }
  assert (T : forall op d,
             In op WHERE_OPS -> op = String d EmptyString ->
             Ascii.eqb c d = false).
  { intros op d Io ->. unfold opFound in O.
    pose proof (find_none _ _ O _ Io) as N. cbv beta in N.
    change (String.length (String d EmptyString)) with 1 in N.
    rewrite slice_suffix, H in N. cbn [substring String.eqb] in N.
    rewrite substring_none in N.
    destruct (Ascii.eqb c d); [|reflexivity].
    cbn [String.eqb] in N. exact N. }
  assert (Wc : wordChar c = true).
  { unfold wordChar, Parse.isWordChar.
    rewrite Nsp, Po, Pc, Q.
    rewrite (T "=" "="%char), (T "<" "<"%char), (T ">" ">"%char);
      try reflexivity; try (unfold WHERE_OPS; simpl; tauto).
    pose proof (allChars_sliceFrom noBang s j A) as B. rewrite H in B.
    cbn [allChars] in B. apply andb_true_iff in B as [B _].
    unfold noBang in B. apply negb_true_iff in B. rewrite B. reflexivity. }
  assert (G : j < scanWhile wordChar (sliceFrom s j) j).
  { rewrite H. cbn [scanWhile]. rewrite Wc.
    pose proof (scanWhile_ge wordChar rest (S j)). lia. }
  destruct (negb (isEmpty (slice s j (scanWhile wordChar (sliceFrom s j) j))));
    simpl; lia.
Qed.

Lemma tokenizeLoop_halts :
  forall fuel s i tokens,
    allChars noBang s = true ->
    String.length s - i < fuel ->
    tokenizeLoop fuel s i tokens <> None.
Proof.
  induction fuel as [|fuel IH]; intros s i tokens A F; [lia|].
  rewrite tokenizeLoop_S.
  destruct (String.length s <=? i) eqn:E; [discriminate|].
  apply Nat.leb_gt in E.
  pose proof (tokenizeStep_progress s i tokens E A) as P.
  destruct (tokenizeStep s i tokens) as [j tokens']. simpl in P.
  apply IH; [exact A|lia].
Qed.

Lemma parseWhereInner_halts :
  forall fuel inner,
    allChars noBang inner = true ->
    String.length inner < fuel ->
    exists r, parseWhereInner fuel inner = Some r.
Proof.
  intros fuel inner A F. unfold parseWhereInner. cbv zeta.
  destruct (isEmpty (trimEnd inner)); [eexists; reflexivity|].
  pose proof (tokenizeLoop_halts fuel (trimEnd inner) 0 []
                (allChars_trimEnd _ _ A)) as T.
  unfold tokenizeWhereInner.
  destruct (tokenizeLoop fuel (trimEnd inner) 0 []) as [tokens|];
    [|exfalso; apply T; [pose proof (length_trimEnd_le inner); lia|reflexivity]].
  destruct (List.rev tokens) as [|last back]; [eexists; reflexivity|].
  destruct (tok_type last); try (eexists; reflexivity).
  destruct (isType _ Op); eexists; reflexivity.
Qed.

(** [getContext] as a whole. *)

Lemma small_substring :
  forall q s n m,
    allChars noBang s = true /\ String.length s <= q ->
    allChars noBang (substring n m s) = true
    /\ String.length (substring n m s) <= q.
Proof.
  intros q s n m [A L]. split; [apply allChars_substring; exact A|].
  pose proof (length_substring_le s n m). lia.
Qed.

Lemma small_trim :
  forall q s,
    allChars noBang s = true /\ String.length s <= q ->
    allChars noBang (trim s) = true /\ String.length (trim s) <= q.
Proof.
  intros q s [A L]. split; [apply allChars_trim; exact A|].
  pose proof (length_trim_le s). lia.
Qed.

Lemma getContext_halts :
  forall fuel query c,
    c <= String.length query ->
    allChars noBang (slice query 0 c) = true ->
    String.length query < fuel ->
    exists context, getContext fuel query (Z.of_nat c) = Some context.
Proof.
  intros fuel query c C A F. unfold getContext. cbv zeta.
  replace (Z.to_nat (Z.max 0 (Z.min (Z.of_nat c) (Z.of_nat (String.length query)))))
    with c by lia.
  destruct (getSegmentAtCursor_total fuel query c F C) as [seg S1]. rewrite S1.
  destruct (segment_is_slice _ _ _ _ C S1) as [_ Seq].
  assert (Sm : allChars noBang (segment seg) = true
               /\ String.length (segment seg) <= String.length query).
  { rewrite Seq. unfold slice.
    rewrite <- substring_of_prefix. apply small_substring.
    split; [unfold slice in A; rewrite Nat.sub_0_r in A; exact A|].
    apply length_substring_le. }
  pose proof (keysLoop_total fuel query 0 []) as K.
  unfold getTopLevelKeysUsed.
  destruct (keysLoop fuel query 0 []) as [used|];
    [|exfalso; apply K; [lia|reflexivity]].
  destruct (isEmpty (segment seg)); [eexists; reflexivity|].
  destruct (indexOf (segment seg) ":"%char) as [colon|].
  - destruct (String.eqb _ "entity"); [eexists; reflexivity|].
    destruct (String.eqb _ "limit"); [eexists; reflexivity|].
    destruct (String.eqb _ "order"); [eexists; reflexivity|].
    destruct (String.eqb _ "include"); [eexists; reflexivity|].
    destruct (String.eqb _ "where"); [|eexists; reflexivity].
    match goal with
    | |- context [parseWhereInner fuel ?x] =>
        assert (Si : allChars noBang x = true
                     /\ String.length x <= String.length query);
        [|destruct (parseWhereInner_halts fuel x (proj1 Si)) as [r R];
          [lia|rewrite R]]
    end.
    + repeat match goal with
             | |- context [if ?b then _ else _] => destruct b
             end;
        unfold sliceFrom, slice;
        repeat (first [apply small_trim|apply small_substring]); exact Sm.
    + destruct (wp_kind r); eexists; reflexivity.
  - repeat match goal with
           | |- context [if ?b then _ else _] => destruct b
           end; eexists; reflexivity.
Qed.

(** X22 -- [getContext] returns whenever no exclamation mark stands before
    the cursor: each of its loops (the segment, the include value, the
    where block, the keys used, the tokens of the where clause) ends within
    as many iterations as the query has characters, and one more. *)
Theorem X22_getContext_returns_without_bang :
  forall fuel query c,
    c <= String.length query ->
    allChars noBang (slice query 0 c) = true ->
    String.length query < fuel ->
    exists context, getContext fuel query (Z.of_nat c) = Some context.
Proof. exact getContext_halts. Qed.

Lemma X22_witness :
  exists context,
    getContext 40 "entity:User where:(status>=" (Z.of_nat 27) = Some context.
Proof.
  apply X22_getContext_returns_without_bang.
  - vm_compute. repeat constructor.
  - vm_compute; reflexivity.
  - vm_compute. repeat constructor.
Defined.

(** X23 -- the segment and the keys used are always found: for every
    query, exclamation marks or not, [getSegmentAtCursor] and
    [getTopLevelKeysUsed] return within as many iterations as the query has
    characters, and one more. *)
Theorem X23_segment_and_keys_return :
  forall fuel query cursor,
    String.length query < fuel ->
    cursor <= String.length query ->
    (exists seg, getSegmentAtCursor fuel query cursor = Some seg)
    /\ (exists keys, getTopLevelKeysUsed fuel query = Some keys).
Proof.
  intros fuel query cursor F C. split.
  - apply getSegmentAtCursor_total; assumption.
  - unfold getTopLevelKeysUsed.
    pose proof (keysLoop_total fuel query 0 []) as K.
    destruct (keysLoop fuel query 0 []) as [keys|];
      [exists keys; reflexivity|exfalso; apply K; [lia|reflexivity]].
Qed.

Lemma X23_witness :
  (exists seg, getSegmentAtCursor 30 "where:(a! limit:5" 9 = Some seg)
  /\ (exists keys, getTopLevelKeysUsed 30 "where:(a! limit:5" = Some keys).
Proof.
  apply X23_segment_and_keys_return; vm_compute; repeat constructor.
Defined.

End ContextTotal.

(** *** The context and the suggestions together *)

Section MoreContextFacts.

Import JS Autocomplete Spec Props.

(** X24 -- the loop of [tokenizeWhereInner] never ends once it stands at an
    exclamation mark that no equals sign follows: the iteration pushes no
    token and leaves the index where it is, whatever the text around. *)
Theorem X24_lone_bang_never_ends :
  forall fuel s i tokens rest,
    sliceFrom s i = String "!"%char rest ->
    String.prefix "=" rest = false ->
    tokenizeStep s i tokens = (i, tokens)
    /\ tokenizeLoop fuel s i tokens = None.
Proof.
  intros fuel s i tokens rest H N. split.
  - exact (lone_bang_step s i tokens rest H N).
  - exact (tokenizeLoop_lone_bang fuel s i tokens rest H N).
Qed.

Lemma X24_witness :
  tokenizeStep "a !b" 2 [] = (2, [])
  /\ tokenizeLoop 1000 "a !b" 2 [] = None.
Proof.
  apply (X24_lone_bang_never_ends 1000 "a !b" 2 [] "b"); reflexivity.
Defined.

(** X26 -- the entity value that the autocomplete reads from a query that
    starts with an entity clause is the run of characters after [entity:]
    up to the first whitespace. *)
Theorem X26_entity_value_from_query :
  forall v rest,
    allChars notSpace v = true ->
    stopsAt notSpace rest ->
    getEntityValueFromQuery ("entity:" ^^ v ^^ rest) = v.
Proof.
  intros v rest A St. unfold getEntityValueFromQuery.
  assert (E : entityCapture ("entity:" ^^ v ^^ rest) = Some v).
  { cbn [append entityCapture].
    assert (P : String.prefix "entity:"
                  (String "e" (String "n" (String "t" (String "i" (String "t"
                     (String "y" (String ":" (v ^^ rest)))))))) = true)
      by (cbn; destruct (v ^^ rest); reflexivity).
    rewrite P. cbv zeta.
    assert (V : sliceFrom ("entity:" ^^ v ^^ rest) 7 = v ^^ rest)
      by (exact (sliceFrom_after "entity:" (v ^^ rest))).
    cbn [append] in V. rewrite V.
    rewrite (scanWhile_run (fun c => negb (isSpace c)) v rest 0 A St).
    rewrite slice_suffix, sliceFrom_0, substring_append. reflexivity. }
  rewrite E. apply trim_solid. exact A.
Qed.

Lemma X26_witness :
  getEntityValueFromQuery ("entity:" ^^ "User" ^^ " where:(") = "User".
Proof.
  apply (X26_entity_value_from_query "User" " where:("); reflexivity.
Defined.

(** X27 -- the entities relevant to an entity value are the entities of the
    schema whose name starts with the value, case ignored; with an empty
    value these are all of them, and the test of equality in the code adds
    nothing to the test of the prefix. *)
Theorem X27_relevant_entities :
  forall schema entityValue e,
    In e (findRelevantEntities schema entityValue)
    <-> In e (Schema.entities schema)
        /\ startsWith (toLowerCase (Schema.name e)) (toLowerCase entityValue)
           = true.
Proof.
  intros schema ev e. unfold findRelevantEntities.
  destruct ev as [|c ev].
  - cbn [isEmpty toLowerCase]. unfold startsWith. rewrite prefix_nil. tauto.
  - cbn [isEmpty]. cbv zeta. rewrite filter_In.
    destruct (String.eqb (toLowerCase (Schema.name e)) (toLowerCase (String c ev)))
      eqn:Q; [|tauto].
    apply String.eqb_eq in Q. rewrite Q. unfold startsWith.
    rewrite prefix_refl. tauto.
Qed.

(** X28 -- on a quoted string that is closed, the scanners of the
    autocomplete agree with the scanner of the parser: they stop at the same
    index and read the same value. *)
Theorem X28_autocomplete_scanners_agree :
  forall rest i val j v,
    Parse.scanString rest i val = (j, v, true) ->
    scanValue rest i val = (j, v) /\ quotedEnd rest i = j.
Proof.
  fix IH 1. intros [|c rest] i val j v; [discriminate|].
  cbn [Parse.scanString scanValue quotedEnd].
  destruct (Ascii.eqb c backslash).
  - destruct rest as [|d rest]; [discriminate|].
    destruct (Ascii.eqb d dquote) eqn:Q;
      [apply Ascii.eqb_eq in Q; subst d; apply IH|].
    destruct (Ascii.eqb d backslash) eqn:B;
      [apply Ascii.eqb_eq in B; subst d; apply IH|apply IH].
  - destruct (Ascii.eqb c dquote).
    + intro H. injection H as <- <-. split; reflexivity.
    + apply IH.
Qed.

Lemma X28_witness :
  scanValue (escape "a b" ^^ String dquote ")") 4 EmptyString = (8, "a b")
  /\ quotedEnd (escape "a b" ^^ String dquote ")") 4 = 8.
Proof.
  apply (X28_autocomplete_scanners_agree _ 4 EmptyString 8 "a b"). reflexivity.
Defined.

Lemma TopLevel_keys :
  forall fuel query cursor p used,
    getContext fuel query cursor = Some (TopLevel p used) ->
    getTopLevelKeysUsed fuel query = Some used.
Proof.
  intros fuel query cursor p used. unfold getContext. cbv zeta.
  destruct (getSegmentAtCursor fuel query _) as [seg|]; [|discriminate].
  destruct (getTopLevelKeysUsed fuel query) as [keys|]; [|discriminate].
  destruct (isEmpty (segment seg)); [intro H; injection H as _ <-; reflexivity|].
  destruct (indexOf (segment seg) ":"%char) as [colon|].
  - repeat match goal with
           | |- context [if String.eqb ?a ?b then _ else _] =>
               destruct (String.eqb a b); try discriminate
           end.
    destruct (parseWhereInner fuel _) as [r|]; [|discriminate].
    destruct (wp_kind r); discriminate.
  - repeat match goal with
           | |- context [if ?b then _ else _] => destruct b; try discriminate
           end.
    intro H; injection H as _ <-; reflexivity.
Qed.

(** X29 -- at the top level no key that [getTopLevelKeysUsed] reports is
    suggested: the keys of the context are those that the function finds
    in the whole query, and every suggestion is one of the five keys of the
    fixed list whose name is not among them.  (A key that the function does
    not report, such as a where clause written in upper case, is suggested
    again.) *)
Theorem X29_used_keys_are_not_suggested :
  forall fuel query cursor p used schema,
    getContext fuel query cursor = Some (TopLevel p used) ->
    getTopLevelKeysUsed fuel query = Some used
    /\ Forall (fun s =>
                 In (label s) TOP_LEVEL_KEYS
                 /\ ~ In (keyName (label s)) used)
              (getSuggestions (TopLevel p used) schema).
Proof.
  intros fuel query cursor p used schema H.
  split; [eapply TopLevel_keys; exact H|].
  unfold getSuggestions. cbv zeta. apply Forall_forall. intros s Hs.
  apply in_map_iff in Hs as [k [<- Hk]]. rewrite label_plain.
  apply filter_In in Hk as [Ik T]. split; [exact Ik|].
  apply andb_true_iff in T as [T _]. apply negb_true_iff in T.
  intro I'. apply (proj2 (has_In _ _)) in I'. unfold keyName in I'. congruence.
Qed.

Lemma X29_witness :
  getTopLevelKeysUsed 40 "entity:users l" = Some ["entity"]
  /\ Forall (fun s =>
               In (label s) TOP_LEVEL_KEYS
               /\ ~ In (keyName (label s)) ["entity"])
            (getSuggestions (TopLevel "l" ["entity"]) Schema.exampleSchema).
Proof.
  apply (X29_used_keys_are_not_suggested 40 "entity:users l" 14).
  vm_compute; reflexivity.
Defined.

End MoreContextFacts.

(** *** The parser as a whole *)

Section MoreParserFacts.

Import JS Parse Spec Props.

(** X25 -- [isValidPlainText] returns [true] exactly when [parsePlainText]
    returns a query and [false] exactly when it throws a [ParseError]; an
    error of another kind, such as the [RangeError] of an exhausted call
    stack, is passed on and gives no answer.  The recursive descent of
    [parseWhere] on [n] tokens never nests its calls deeper than
    [4 * n + 4]: started with at least that depth it does not run out. *)
Theorem X25_isValidPlainText :
  (forall input schema,
     (isValidPlainText input schema = Ok true
      <-> exists rql, parsePlainText input schema = Ok rql)
     /\ (isValidPlainText input schema = Ok false
         <-> exists m, parsePlainText input schema = Throw m))
  /\ (forall tokens depth,
        grammarFuel (List.length tokens) <= depth ->
        parseOr tokens depth 0 <> OutOfFuel).
Proof.
  split.
  - intros input schema. unfold isValidPlainText.
    destruct (parsePlainText input schema) as [rql|m|].
    + split; (split; [intros H|intros [x H]]); try discriminate;
        try reflexivity. exists rql; reflexivity.
    + split; (split; [intros H|intros [x H]]); try discriminate;
        try reflexivity. exists m; reflexivity.
    + split; (split; [intros H|intros [x H]]); discriminate.
  - intros tokens depth D.
    apply (proj1 (grammar_total tokens depth)). unfold grammarFuel in D. lia.
Qed.

Lemma X25_witness :
  grammarFuel (List.length [TIdent "a" "a"; TOp "="; TNumber (NInt 1)]) <= 16
  /\ parseOr [TIdent "a" "a"; TOp "="; TNumber (NInt 1)] 16 0 <> OutOfFuel.
Proof.
  split; [vm_compute; reflexivity|].
  apply (proj2 X25_isValidPlainText). vm_compute. reflexivity.
Defined.

Lemma splitOn_cons :
  forall c s cur, exists p ps, splitOn c s cur = p :: ps.
Proof.
  induction s as [|d s IH]; intro cur; cbn [splitOn].
  - eexists; eexists; reflexivity.
  - destruct (Ascii.eqb d c); [eexists; eexists; reflexivity|apply IH].
Qed.

Lemma parseClause_nonEmpty :
  forall out clause out',
    parseClause out clause = Ok out' ->
    nonEmptyValues out -> nonEmptyValues out'.
Proof.
  intros [e l o i w] clause out'. unfold parseClause, nonEmptyValues.
  destruct (indexOf clause ":"%char) as [colon|]; [|discriminate]. cbv zeta.
  cbn [entity limit order include where_].
  set (value := trim (sliceFrom clause (S colon))).
  destruct (String.eqb _ "entity").
  { destruct (isSome e); [discriminate|].
    destruct (isEmpty value) eqn:V; [discriminate|].
    intros H G; injection H as <-. cbn [entity order].
    split; [|tauto]. intro Q. injection Q as Q. rewrite Q in V. discriminate. }
  destruct (String.eqb _ "limit").
  { destruct (isSome l); [discriminate|].
    destruct (parseLimit value); try discriminate.
    intros H G; injection H as <-. exact G. }
  destruct (String.eqb _ "order").
  { destruct (isSome o); [discriminate|].
    destruct (isEmpty value); [discriminate|].
    destruct (parseOrderTerms (split value ",") []) as [terms| |] eqn:P;
      try discriminate.
    intros H G; injection H as <-. cbn [entity order].
    split; [tauto|].
    intro Q. injection Q as Q. subst terms.
    apply parseOrderTerms_ok in P as [L _]; [|constructor].
    unfold split in L. destruct (splitOn_cons "," value EmptyString) as [p [ps E]].
    rewrite E in L. simpl in L. lia. }
  destruct (String.eqb _ "include").
  { destruct (isSome i); [discriminate|].
    destruct (isEmpty value); [discriminate|].
    destruct (parseInclude (split value ",") []); try discriminate.
    intros H G; injection H as <-. exact G. }
  destruct (String.eqb _ "where"); [|discriminate].
  destruct (isSome w); [discriminate|].
  destruct (isEmpty value); [discriminate|].
  destruct (unwrapWhere value); try discriminate.
  destruct (parseWhere _); try discriminate.
  intros H G; injection H as <-. exact G.
Qed.

Lemma parseClauses_nonEmpty :
  forall clauses out out',
    parseClauses clauses out = Ok out' ->
    nonEmptyValues out -> nonEmptyValues out'.
Proof.
  induction clauses as [|c cs IH]; intros out out'; cbn [parseClauses].
  - intros H G; injection H as <-; exact G.
  - destruct (parseClause out c) as [o| |] eqn:E; try discriminate.
    intros H G. eapply IH; [exact H|].
    eapply parseClause_nonEmpty; eassumption.
Qed.

(** X30 -- the entity of a parsed query is not the empty name and its order
    list has a term, whatever the input and the schema.  (The include
    object can be empty: the name [__proto__] creates no key.) *)
Theorem X30_parsed_values_are_not_empty :
  forall input schema rql,
    parsePlainText input schema = Ok rql -> nonEmptyValues rql.
Proof.
  intros input schema rql. unfold parsePlainText. cbv zeta.
  assert (E0 : nonEmptyValues emptyQuery)
    by (unfold nonEmptyValues; cbn; split; discriminate).
  destruct (isEmpty (trim input)); [intro H; injection H as <-; exact E0|].
  destruct (splitTopLevel (trim input)) as [clauses| |]; try discriminate.
  destruct (parseClauses clauses emptyQuery) as [out| |] eqn:E;
    try discriminate.
  assert (G : nonEmptyValues out)
    by (eapply parseClauses_nonEmpty; [exact E|exact E0]).
  destruct schema as [sch|]; [|intro H; injection H as <-; exact G].
  destruct (validateAgainstSchema out sch); try discriminate.
  intro H; injection H as <-; exact G.
Qed.

Lemma X30_witness :
  nonEmptyValues
    (mkQuery (Some "users") None
       (Some [mkOrderTerm "name" Asc]) (Some []) None).
Proof.
  apply (X30_parsed_values_are_not_empty
           "entity:users order:name include:__proto__" None).
  vm_compute; reflexivity.
Defined.

End MoreParserFacts.
